(** * FleetCast: contact-window scheduling and orbital position simulation

    A shallow embedding of [backend/satellite_config.py]:
    - [Py]: the Python primitives the program relies on (exceptions, [str.split],
      [int()], integer true division, float modulo, [math.radians]);
    - [Position]: [simulate_satellite_position];
    - [Scheduler]: [assign_contacts], over a store of window objects that the
      function mutates in place;
    - [PyLib]: [str(int)], [isoformat], [timedelta] minutes, [float(int)] and
      the [random] module, as computations that draw numbers and print;
    - [Generator]: [haversine], [generate_contact_windows],
      [generate_all_contact_windows], the catalogs [SATELLITES] and
      [GROUND_STATIONS], and the scheduling part of [main].

    Python [int] is [Z]; Python [float] is IEEE-754 binary64, i.e. the
    kernel's primitive [PrimFloat.float]; [str] is [string]. *)

From Stdlib Require PrimFloat SpecFloat FloatOps OrderedTypeEx.
From Stdlib Require Import ZArith String Ascii List Permutation Sorted.
From stdpp Require Import gmap strings list sorting.

Local Open Scope Z_scope.

(** ** Python primitives *)
Module Py.

(** The exceptions the modelled code can raise. *)
Inductive error : Set :=
  | IndexError          (* list index out of range *)
  | ValueError          (* int() / fromisoformat() on a malformed string *)
  | KeyError            (* dict lookup of a missing key *)
  | StopIteration       (* next() on an exhausted generator *)
  | ZeroDivisionError
  | OverflowError.      (* int / int too large for a float *)

(** A computation that returns a value or raises. *)
Inductive result (A : Type) : Type :=
  | Ok (a : A)
  | Raise (e : error).
Arguments Ok {A} a.
Arguments Raise {A} e.

#[global] Instance result_ret : MRet result := fun A a => Ok a.
#[global] Instance result_bind : MBind result := fun A B f x =>
  match x with
  | Ok a => f a
  | Raise e => Raise e
  end.

Definition raises {A} (x : result A) : Prop := exists e, x = Raise e.

(** An [option] turned into a [result], raising [e] on [None]. *)
Definition or_raise {A} (e : error) (x : option A) : result A :=
  match x with Some a => Ok a | None => Raise e end.

(** *** [str.split(sep)] for a one-character separator *)
Fixpoint split (sep : ascii) (s : string) : list string :=
  match s with
  | EmptyString => [EmptyString]
  | String c s' =>
      if Ascii.eqb c sep then EmptyString :: split sep s'
      else match split sep s' with
           | h :: t => String c h :: t
           | [] => [String c EmptyString]
           end
  end.

(** *** [int(s)] for a string, base 10

    Accepted: optional surrounding whitespace, an optional sign, and decimal
    digits in groups separated by single underscores.  Strings here are byte
    strings, so only the ASCII digits and ASCII whitespace are recognised. *)
Definition is_space (c : ascii) : bool :=
  let n := N_of_ascii c in
  ((9 <=? n) && (n <=? 13) || (28 <=? n) && (n <=? 32))%N.

Definition digit_value (c : ascii) : option Z :=
  let n := N_of_ascii c in
  if ((48 <=? n) && (n <=? 57))%N then Some (Z.of_N n - 48) else None.

Fixpoint lstrip (l : list ascii) : list ascii :=
  match l with
  | c :: l' => if is_space c then lstrip l' else l
  | [] => []
  end.

Definition strip (l : list ascii) : list ascii := rev (lstrip (rev (lstrip l))).

(** [digits acc after_digit l]: [after_digit] tells whether the previous
    character was a digit (an underscore must sit between two digits). *)
Fixpoint digits (acc : Z) (after_digit : bool) (l : list ascii) : option Z :=
  match l with
  | [] => if after_digit then Some acc else None
  | c :: l' =>
      match digit_value c with
      | Some d => digits (10 * acc + d) true l'
      | None =>
          if Ascii.eqb c "_"%char && after_digit then
            match l' with
            | [] => None
            | _ => digits acc false l'
            end
          else None
      end
  end.

Definition int_of_str (s : string) : result Z :=
  match strip (list_ascii_of_string s) with
  | [] => Raise ValueError
  | c :: l =>
      if Ascii.eqb c "-"%char then
        or_raise ValueError (Z.opp <$> digits 0 false l)
      else if Ascii.eqb c "+"%char then
        or_raise ValueError (digits 0 false l)
      else or_raise ValueError (digits 0 false (c :: l))
  end.

(** *** Floats *)
Import PrimFloat.

Definition float := PrimFloat.float.

Definition of_spec (x : SpecFloat.spec_float) : float := FloatOps.SF2Prim x.
Definition to_spec (x : float) : SpecFloat.spec_float := FloatOps.Prim2SF x.

(** The binary64 value nearest to [m * 2^e] (ties to even). *)
Definition round64 (m e : Z) (szero : bool) : SpecFloat.spec_float :=
  SpecFloat.binary_normalize FloatOps.prec FloatOps.emax m e szero.

(** [a / b] on two ints: the correctly rounded quotient.  The quotient is
    taken with 64 extra bits and a sticky bit for the discarded remainder,
    then rounded once. *)
Definition int_true_divide (a b : Z) : result float :=
  if b =? 0 then Raise ZeroDivisionError
  else
    let negate := xorb (a <? 0) (b <? 0) in
    if a =? 0 then Ok (of_spec (SpecFloat.S754_zero negate))
    else
      let k := 64 + Z.log2 (Z.abs b) + 1 in
      let n := Z.abs a * 2 ^ k in
      let q := n / Z.abs b in
      let sticky := if n mod Z.abs b =? 0 then 0 else 1 in
      let m := 2 * q + sticky in
      match round64 (if negate then - m else m) (- k - 1) negate with
      | SpecFloat.S754_infinity _ => Raise OverflowError
      | r => Ok (of_spec r)
      end.

(** C's [fmod]: exact, with the sign of [x]. *)
Definition fmod (x y : float) : float :=
  match to_spec x, to_spec y with
  | SpecFloat.S754_nan, _ | _, SpecFloat.S754_nan => PrimFloat.nan
  | SpecFloat.S754_infinity _, _ | _, SpecFloat.S754_zero _ => PrimFloat.nan
  | SpecFloat.S754_zero _, _ | _, SpecFloat.S754_infinity _ => x
  | SpecFloat.S754_finite sx mx ex, SpecFloat.S754_finite _ my ey =>
      let e := Z.min ex ey in
      let r := (Z.pos mx * 2 ^ (ex - e)) mod (Z.pos my * 2 ^ (ey - e)) in
      of_spec (round64 (if sx then - r else r) e sx)
  end.

(** [vx % wx] on floats (CPython's [float_rem]): the result takes the sign
    of the divisor. *)
Definition float_rem (vx wx : float) : result float :=
  if PrimFloat.eqb wx PrimFloat.zero then Raise ZeroDivisionError
  else
    let md := fmod vx wx in
    if PrimFloat.eqb md PrimFloat.zero then
      Ok (if PrimFloat.ltb wx PrimFloat.zero then PrimFloat.neg_zero
          else PrimFloat.zero)
    else if negb (Bool.eqb (PrimFloat.ltb wx PrimFloat.zero)
                           (PrimFloat.ltb md PrimFloat.zero))
    then Ok (PrimFloat.add md wx)
    else Ok md.

(** [math.radians(x)] is [x * (pi / 180.0)]. *)
Definition math_pi : float := 0x1.921fb54442d18p+1%float.
Definition degToRad : float := PrimFloat.div math_pi 180%float.
Definition math_radians (x : float) : float := PrimFloat.mul x degToRad.

(** *** [datetime]: a naive date and time; comparison is field by field *)
Record datetime : Set := mkDatetime {
  year : Z; month : Z; day : Z;
  hour : Z; minute : Z; second : Z; microsecond : Z
}.

Definition lexico (c1 c2 : comparison) : comparison :=
  match c1 with Eq => c2 | _ => c1 end.

Definition datetime_compare (a b : datetime) : comparison :=
  lexico (year a ?= year b)
  (lexico (month a ?= month b)
  (lexico (day a ?= day b)
  (lexico (hour a ?= hour b)
  (lexico (minute a ?= minute b)
  (lexico (second a ?= second b)
          (microsecond a ?= microsecond b)))))).

(** [a <= b], [a >= b], [a < b], [a > b] on datetimes. *)
Definition datetime_le (a b : datetime) : bool :=
  match datetime_compare a b with Gt => false | _ => true end.
Definition datetime_ge (a b : datetime) : bool :=
  match datetime_compare a b with Lt => false | _ => true end.
Definition datetime_lt (a b : datetime) : bool :=
  match datetime_compare a b with Lt => true | _ => false end.
Definition datetime_gt (a b : datetime) : bool :=
  match datetime_compare a b with Gt => true | _ => false end.

End Py.

(** ** [simulate_satellite_position] *)
Module Position.
Import Py PrimFloat.

(** [int(sat_id.split("-")[1]) if sat_id else 0]: [None] and the empty
    string are falsy. *)
Definition offset_of (sat_id : option string) : result Z :=
  match sat_id with
  | None => Ok 0
  | Some s =>
      if String.eqb s "" then Ok 0
      else field ← or_raise IndexError (split "-" s !! 1%nat);
           int_of_str field
  end.

Section Simulate.
(** [math.sin] is the platform's libm routine; [utcnow] is the clock
    reading [datetime.utcnow()] would return. *)
Variable math_sin : float -> float.
Variable utcnow : datetime.

Definition simulate_satellite_position
    (orbit_period : Z) (timestamp : option datetime) (sat_id : option string)
    : result (float * float) :=
  let timestamp := default utcnow timestamp in
  offset ← offset_of sat_id;
  let minutes := minute timestamp + hour timestamp * 60 + offset in
  quotient ← int_true_divide (360 * minutes) orbit_period;
  angle ← float_rem quotient 360%float;
  let lat := mul (math_sin (math_radians angle)) 60%float in
  r ← float_rem (sub angle 180%float) 360%float;
  let lon := sub r 180%float in
  Ok (lat, lon).
End Simulate.

End Position.

(** ** [assign_contacts]

    The window dicts are objects in a store and the lists hold references
    to them, so that the writes of [assigned] and a window listed twice are
    modelled as they happen.  The [print] calls are kept as the list of
    lines printed.  [datetime.fromisoformat] is a parameter of the model;
    [fromisoformat_naive] below is one executable instance.  When the
    function raises, the model gives the exception only (not the writes
    made before it). *)
Module Scheduler.
Import Py.

(** A contact-window dict.  [assigned] is [None] while the key is absent. *)
Record ContactWindow : Set := mkContactWindow {
  satellite_id : string;
  ground_station_id : string;
  start_time : string;
  end_time : string;
  timestamp : string;
  distance : float;
  datavolume : Z;
  priority : Z;
  assigned : option bool
}.

Record GroundStation : Set := mkGroundStation {
  gs_id : string;
  gs_location : string;
  gs_capacity : Z;
  gs_lon : Z;
  gs_lat : Z
}.

(** Window dicts are objects: the lists hold references, and the function
    writes through them.  The store maps every reference to its object. *)
Definition loc := nat.
Definition heap := loc -> ContactWindow.

(** [contact["assigned"] = b] *)
Definition set_assigned (b : bool) (w : ContactWindow) : ContactWindow :=
  {| satellite_id := satellite_id w;
     ground_station_id := ground_station_id w;
     start_time := start_time w;
     end_time := end_time w;
     timestamp := timestamp w;
     distance := distance w;
     datavolume := datavolume w;
     priority := priority w;
     assigned := Some b |}.

Definition store_assigned (h : heap) (contact : loc) (b : bool) : heap :=
  fun r => if Nat.eqb r contact then set_assigned b (h r) else h r.

(** *** [sorted(contact_windows, key=lambda x: (x["priority"], x["start_time"]))] *)
Definition sort_key (w : ContactWindow) : Z * string :=
  (priority w, start_time w).

(** [a < b] on the key tuples: the first differing component decides. *)
Definition key_lt (a b : Z * string) : bool :=
  if a.1 =? b.1 then String.ltb a.2 b.2 else a.1 <? b.1.

(** [sorted] is stable; it is modelled by a stable insertion sort: [x] goes
    before the first element that is not smaller than it, so it stays ahead
    of the equal keys that followed it in the input. *)
Fixpoint insert_sorted {A} (key : A -> Z * string) (x : A) (l : list A) : list A :=
  match l with
  | [] => [x]
  | y :: l' =>
      if key_lt (key y) (key x) then y :: insert_sorted key x l'
      else x :: y :: l'
  end.

Definition sorted {A} (key : A -> Z * string) (l : list A) : list A :=
  foldr (insert_sorted key) [] l.

(** *** The lines the function prints *)
Inductive line : Set :=
  | Called                                   (* --called assign_contacts-- *)
  | Overlaps (gs : string) (overlaps : Z)    (* {gs_id} overlaps: {overlaps} *)
  | Assigned (sat gs : string)               (* Assigned contact {sat} to ground station {gs} *)
  | CouldNotAssign (sat gs : string).        (* Could not assign {sat} to {gs} *)

(** The store and the locals of the loop. *)
Record state : Type := mkState {
  st_heap : heap;
  gs_schedules : gmap string (list loc);
  assignments : list loc;
  stdout : list line
}.

(** [for x in l: st = f(st, x)], stopping at the first exception. *)
Fixpoint for_each {S A} (f : S -> A -> result S) (st : S) (l : list A) : result S :=
  match l with
  | [] => Ok st
  | x :: l' => st' ← f st x; for_each f st' l'
  end.

Section AssignContacts.
(** [datetime.fromisoformat]; [None] stands for its [ValueError]. *)
Variable fromisoformat : string -> option datetime.

(** One term of the sum:
    [not (end <= fromisoformat(existing["end_time"]) or
          start >= fromisoformat(existing["start_time"]))] *)
Definition overlapping (h : heap) (start end_ : datetime) (existing : loc)
    : result bool :=
  existing_end ← or_raise ValueError (fromisoformat (end_time (h existing)));
  if datetime_le end_ existing_end then Ok false
  else
    existing_start ← or_raise ValueError (fromisoformat (start_time (h existing)));
    Ok (negb (datetime_ge start existing_start)).

(** [sum(... for existing in gs_schedules[gs_id])] *)
Fixpoint count_overlaps (h : heap) (start end_ : datetime) (l : list loc)
    : result Z :=
  match l with
  | [] => Ok 0
  | existing :: l' =>
      b ← overlapping h start end_ existing;
      n ← count_overlaps h start end_ l';
      Ok (Z.b2z b + n)
  end.

(** [next(gs["capacity"] for gs in ground_stations if gs["id"] == gs_id)] *)
Definition capacity_of (ground_stations : list GroundStation) (g : string)
    : result Z :=
  match find (fun gs => String.eqb (gs_id gs) g) ground_stations with
  | Some gs => Ok (gs_capacity gs)
  | None => Raise StopIteration
  end.

(** The body of the loop, for one [contact]. *)
Definition step (ground_stations : list GroundStation) (st : state) (contact : loc)
    : result state :=
  let h := st_heap st in
  let g := ground_station_id (h contact) in
  start ← or_raise ValueError (fromisoformat (start_time (h contact)));
  end_ ← or_raise ValueError (fromisoformat (end_time (h contact)));
  existing ← or_raise KeyError (gs_schedules st !! g);
  overlaps ← count_overlaps h start end_ existing;
  let out := stdout st ++ [Overlaps g overlaps] in
  capacity ← capacity_of ground_stations g;
  if overlaps <? capacity then
    Ok {| st_heap := store_assigned h contact true;
          gs_schedules := <[g := existing ++ [contact]]> (gs_schedules st);
          assignments := assignments st ++ [contact];
          stdout := out ++ [Assigned (satellite_id (h contact)) g] |}
  else
    Ok {| st_heap := store_assigned h contact false;
          gs_schedules := gs_schedules st;
          assignments := assignments st ++ [contact];
          stdout := out ++ [CouldNotAssign (satellite_id (h contact)) g] |}.

(** The state on entry to the loop. *)
Definition initial (h : heap) (ground_stations : list GroundStation) : state :=
  {| st_heap := h;
     gs_schedules :=
       foldl (fun m gs => <[gs_id gs := []]> m) ∅ ground_stations;
     assignments := [];
     stdout := [Called] |}.

(** The whole function, returning the final state of its locals. *)
Definition run (h : heap) (contact_windows : list loc)
    (ground_stations : list GroundStation) : result state :=
  let sorted_windows := sorted (fun r => sort_key (h r)) contact_windows in
  for_each (step ground_stations) (initial h ground_stations) sorted_windows.

(** [assign_contacts]: the store after the call, the returned list and
    what was printed. *)
Definition assign_contacts (h : heap) (contact_windows : list loc)
    (ground_stations : list GroundStation)
    : result (heap * list loc * list line) :=
  st ← run h contact_windows ground_stations;
  Ok (st_heap st, assignments st, stdout st).
End AssignContacts.

(** *** An executable [fromisoformat]

    The format [isoformat()] writes for a naive datetime and the variants
    CPython 3.7 reads back: [YYYY-MM-DD], then optionally any one separator
    character and [HH[:MM[:SS[.fff[fff]]]]]. *)
Fixpoint number (n : nat) (acc : Z) (l : list ascii) : option (Z * list ascii) :=
  match n with
  | O => Some (acc, l)
  | S n' =>
      match l with
      | c :: l' => d ← digit_value c; number n' (10 * acc + d) l'
      | [] => None
      end
  end.

Definition expect (c : ascii) (l : list ascii) : option (list ascii) :=
  match l with
  | c' :: l' => if Ascii.eqb c c' then Some l' else None
  | [] => None
  end.

Definition is_leap (y : Z) : bool :=
  (y mod 4 =? 0) && (negb (y mod 100 =? 0) || (y mod 400 =? 0)).

Definition days_in_month (y m : Z) : Z :=
  if m =? 2 then (if is_leap y then 29 else 28)
  else if (m =? 4) || (m =? 6) || (m =? 9) || (m =? 11) then 30
  else 31.

(** [.fff] or [.ffffff], then the end of the string. *)
Definition parse_fraction (l : list ascii) : option Z :=
  match l with
  | [] => Some 0
  | _ =>
      l ← expect "." l;
      '(ms, l') ← number 3 0 l;
      match l' with
      | [] => Some (ms * 1000)
      | _ => '(us, l'') ← number 3 ms l';
             match l'' with [] => Some us | _ => None end
      end
  end.

(** [HH[:MM[:SS[.fff[fff]]]]] as (hour, minute, second, microsecond). *)
Definition parse_time (l : list ascii) : option (Z * Z * Z * Z) :=
  '(hh, l) ← number 2 0 l;
  match l with
  | [] => Some (hh, 0, 0, 0)
  | _ =>
      l ← expect ":" l;
      '(mi, l) ← number 2 0 l;
      match l with
      | [] => Some (hh, mi, 0, 0)
      | _ =>
          l ← expect ":" l;
          '(ss, l) ← number 2 0 l;
          us ← parse_fraction l;
          Some (hh, mi, ss, us)
      end
  end.

Definition fromisoformat_naive (s : string) : option datetime :=
  '(y, l) ← number 4 0 (list_ascii_of_string s);
  l ← expect "-" l;
  '(m, l) ← number 2 0 l;
  l ← expect "-" l;
  '(d, l) ← number 2 0 l;
  '(hh, mi, ss, us) ←
    match l with
    | [] => Some (0, 0, 0, 0)
    | _ :: l' => parse_time l'
    end;
  if (1 <=? y) && (1 <=? m) && (m <=? 12) && (1 <=? d) && (d <=? days_in_month y m)
     && (hh <? 24) && (mi <? 60) && (ss <? 60)
  then Some (mkDatetime y m d hh mi ss us)
  else None.

(** *** Notions used to state the properties *)

(** [x] may stand before [y] in a list sorted by [key]. *)
Definition key_le {A} (key : A -> Z * string) (x y : A) : Prop :=
  key_lt (key y) (key x) = false.

(** Rearrangements that only exchange neighbours with equal keys. *)
Inductive tie_perm {A} (key : A -> Z * string) : list A -> list A -> Prop :=
  | tie_nil : tie_perm key [] []
  | tie_skip x l l' : tie_perm key l l' -> tie_perm key (x :: l) (x :: l')
  | tie_swap x y l : key x = key y -> tie_perm key (y :: x :: l) (x :: y :: l)
  | tie_trans l l' l'' :
      tie_perm key l l' -> tie_perm key l' l'' -> tie_perm key l l''.

(** Two outcomes agree: both raise, or both return related values. *)
Definition result_rel {A} (R : A -> A -> Prop) (x y : result A) : Prop :=
  match x, y with
  | Ok a, Ok b => R a b
  | Raise _, Raise _ => True
  | _, _ => False
  end.

(** Two loop states that differ only in the order of the station lists and
    of the output (the printed lines are not compared). *)
Definition state_equiv (s1 s2 : state) : Prop :=
  (forall r, st_heap s1 r = st_heap s2 r) /\
  (forall g, option_Forall2 Permutation
               (gs_schedules s1 !! g) (gs_schedules s2 !! g)) /\
  assignments s1 ≡ₚ assignments s2.

(** The fields of a window other than [assigned]. *)
Definition same_fields (w w' : ContactWindow) : Prop :=
  satellite_id w = satellite_id w' /\
  ground_station_id w = ground_station_id w' /\
  start_time w = start_time w' /\
  end_time w = end_time w' /\
  timestamp w = timestamp w' /\
  distance w = distance w' /\
  datavolume w = datavolume w' /\
  priority w = priority w'.

(** The loop body in two halves: what is decided for [contact] (the overlap
    count and whether it is admitted), and the writes that follow. *)
Definition decision (fromisoformat : string -> option datetime)
    (ground_stations : list GroundStation) (h : heap)
    (schedules : gmap string (list loc)) (contact : loc) : result (Z * bool) :=
  let g := ground_station_id (h contact) in
  start ← or_raise ValueError (fromisoformat (start_time (h contact)));
  end_ ← or_raise ValueError (fromisoformat (end_time (h contact)));
  existing ← or_raise KeyError (schedules !! g);
  overlaps ← count_overlaps fromisoformat h start end_ existing;
  capacity ← capacity_of ground_stations g;
  Ok (overlaps, overlaps <? capacity).

Definition commit (st : state) (contact : loc) (d : Z * bool) : state :=
  let h := st_heap st in
  let g := ground_station_id (h contact) in
  {| st_heap := store_assigned h contact d.2;
     gs_schedules :=
       if d.2 then
         <[g := default [] (gs_schedules st !! g) ++ [contact]]> (gs_schedules st)
       else gs_schedules st;
     assignments := assignments st ++ [contact];
     stdout :=
       (stdout st ++ [Overlaps g d.1])
       ++ [if d.2 then Assigned (satellite_id (h contact)) g
           else CouldNotAssign (satellite_id (h contact)) g] |}.

(** [run_trace st l ds st']: the loop over [l] from [st] ends in [st'],
    having decided [ds] for the elements of [l] in turn. *)
Inductive run_trace (fromisoformat : string -> option datetime)
    (ground_stations : list GroundStation)
    : state -> list loc -> list (Z * bool) -> state -> Prop :=
  | run_nil st : run_trace fromisoformat ground_stations st [] [] st
  | run_cons st contact d l ds st' :
      decision fromisoformat ground_stations
        (st_heap st) (gs_schedules st) contact = Ok d ->
      run_trace fromisoformat ground_stations (commit st contact d) l ds st' ->
      run_trace fromisoformat ground_stations st (contact :: l) (d :: ds) st'.

(** The writes [contact["assigned"] = b], one after the other. *)
Definition store_all (h : heap) (writes : list (loc * bool)) : heap :=
  foldl (fun h w => store_assigned h w.1 w.2) h writes.

(** What the loop prints for one window. *)
Definition lines_for (w : ContactWindow) (d : Z * bool) : list line :=
  [Overlaps (ground_station_id w) d.1;
   if d.2 then Assigned (satellite_id w) (ground_station_id w)
   else CouldNotAssign (satellite_id w) (ground_station_id w)].

(** The parsed interval [(start, end)] of a window. *)
Definition interval (fromisoformat : string -> option datetime)
    (w : ContactWindow) : option (datetime * datetime) :=
  s ← fromisoformat (start_time w);
  e ← fromisoformat (end_time w);
  Some (s, e).

(** [e1 > e2 and s1 < s2]: the candidate [(s1, e1)] starts before and ends
    after the existing [(s2, e2)]. *)
Definition strictly_contains (candidate existing : datetime * datetime) : bool :=
  datetime_gt candidate.2 existing.2 && datetime_lt candidate.1 existing.1.

(** Whether the earlier window [p.1], decided [p.2], is one the candidate
    [contact] counts: it was admitted, at the same station, and the
    candidate's interval strictly contains its interval. *)
Definition counted (fromisoformat : string -> option datetime) (h : heap)
    (contact : loc) (p : loc * (Z * bool)) : bool :=
  p.2.2
  && String.eqb (ground_station_id (h p.1)) (ground_station_id (h contact))
  && match interval fromisoformat (h contact), interval fromisoformat (h p.1) with
     | Some c, Some x => strictly_contains c x
     | _, _ => false
     end.

(** The windows of [ps] admitted at station [g], in order. *)
Definition admitted_at (h : heap) (g : string) (ps : list (loc * (Z * bool)))
    : list loc :=
  (List.filter (fun p => p.2.2 && String.eqb (ground_station_id (h p.1)) g) ps).*1.

(** Inputs the scheduler accepts: both times of every window parse and its
    station is in the catalog. *)
Definition well_formed_window (fromisoformat : string -> option datetime)
    (ground_stations : list GroundStation) (w : ContactWindow) : bool :=
  bool_decide (is_Some (fromisoformat (start_time w)))
  && bool_decide (is_Some (fromisoformat (end_time w)))
  && existsb (fun gs => String.eqb (gs_id gs) (ground_station_id w)) ground_stations.

Definition well_formed (fromisoformat : string -> option datetime)
    (h : heap) (contact_windows : list loc) (ground_stations : list GroundStation)
    : bool :=
  forallb (fun r => well_formed_window fromisoformat ground_stations (h r))
          contact_windows.

End Scheduler.

(** ** Concrete inputs *)
Module Scenarios.
Import Py Scheduler PrimFloat.

Definition noon : datetime := mkDatetime 2024 1 1 12 0 0 0.
Definition midnight : datetime := mkDatetime 2024 1 1 0 0 0 0.

Definition window (sat gs start end_ : string) (p : Z) : ContactWindow :=
  {| satellite_id := sat; ground_station_id := gs;
     start_time := start; end_time := end_; timestamp := start;
     distance := 1234.5%float; datavolume := 500;
     priority := p; assigned := None |}.

(** One station of capacity 1. *)
Definition one_station : list GroundStation :=
  [mkGroundStation "GS-1" "Location-1" 1 10 20].

(** Two windows over the same interval, priorities 1 and 2. *)
Definition same_interval : heap := fun r =>
  match r with
  | O => window "SAT-1" "GS-1" "2024-01-01T12:00:00" "2024-01-01T12:10:00" 1
  | _ => window "SAT-2" "GS-1" "2024-01-01T12:00:00" "2024-01-01T12:10:00" 2
  end.

(** Two windows of one priority, the second inside the first. *)
Definition nested : heap := fun r =>
  match r with
  | O => window "SAT-1" "GS-1" "2024-01-01T12:00:00" "2024-01-01T12:10:00" 1
  | _ => window "SAT-2" "GS-1" "2024-01-01T12:01:00" "2024-01-01T12:05:00" 1
  end.

(** Three windows at two stations; the input order is not the sorted one. *)
Definition two_stations : list GroundStation :=
  [mkGroundStation "GS-1" "Location-1" 1 10 20;
   mkGroundStation "GS-2" "Location-2" 2 (-30) 40].

Definition three_windows : heap := fun r =>
  match r with
  | O => window "SAT-3" "GS-1" "2024-01-01T12:00:00" "2024-01-01T12:15:00" 2
  | S O => window "SAT-1" "GS-1" "2024-01-01T12:05:00" "2024-01-01T12:10:00" 1
  | _ => window "SAT-2" "GS-2" "2024-01-01T12:00:00" "2024-01-01T12:07:00" 1
  end.

Definition three_windows_after : heap :=
  store_all three_windows [(2, true); (1, true); (0, false)]%nat.

Definition three_windows_printed : list line :=
  [Called;
   Overlaps "GS-2" 0; Assigned "SAT-2" "GS-2";
   Overlaps "GS-1" 0; Assigned "SAT-1" "GS-1";
   Overlaps "GS-1" 1; CouldNotAssign "SAT-3" "GS-1"].

End Scenarios.

(** * Properties *)

(** ** The order on sort keys and the stable sort *)
Module SortFacts.
Import Py Scheduler.

Lemma string_ltb_lt (a b : string) :
  String.ltb a b = true <-> OrderedTypeEx.String_as_OT.lt a b.
Proof.
  unfold String.ltb. rewrite <- OrderedTypeEx.String_as_OT.cmp_lt.
  unfold OrderedTypeEx.String_as_OT.cmp.
  destruct (String.compare a b); split; congruence.
Qed.

Lemma string_ltb_irrefl (a : string) : String.ltb a a = false.
Proof.
  unfold String.ltb.
  assert (String.compare a a = Eq) as ->
    by (now apply OrderedTypeEx.String_as_OT.cmp_eq).
  reflexivity.
Qed.

Lemma string_ltb_trans (a b c : string) :
  String.ltb a b = true -> String.ltb b c = true -> String.ltb a c = true.
Proof.
  rewrite !string_ltb_lt. apply OrderedTypeEx.String_as_OT.lt_trans.
Qed.

Lemma string_ltb_connex (a b : string) :
  String.ltb a b = false -> a = b \/ String.ltb b a = true.
Proof.
  unfold String.ltb. rewrite (String.compare_antisym b a).
  destruct (String.compare a b) eqn:E; simpl; intros; try discriminate.
  - left. now apply String.compare_eq_iff.
  - now right.
Qed.

Lemma key_lt_irrefl (a : Z * string) : key_lt a a = false.
Proof. unfold key_lt. rewrite Z.eqb_refl. apply string_ltb_irrefl. Qed.

Lemma key_lt_trans (a b c : Z * string) :
  key_lt a b = true -> key_lt b c = true -> key_lt a c = true.
Proof.
  unfold key_lt. destruct a as [p s], b as [p' s'], c as [p'' s'']; simpl.
  destruct (Z.eqb_spec p p'), (Z.eqb_spec p' p''), (Z.eqb_spec p p'');
    try lia; rewrite ?Z.ltb_lt; try lia; eauto using string_ltb_trans.
Qed.

Lemma key_lt_connex (a b : Z * string) :
  key_lt a b = false -> a = b \/ key_lt b a = true.
Proof.
  unfold key_lt. destruct a as [p s], b as [p' s']; simpl.
  destruct (Z.eqb_spec p p'), (Z.eqb_spec p' p); try lia.
  subst. intros [->|H]%string_ltb_connex; auto.
Qed.

Lemma key_lt_asym (a b : Z * string) : key_lt a b = true -> key_lt b a = false.
Proof.
  intros H. destruct (key_lt b a) eqn:E; [|done].
  pose proof (key_lt_trans _ _ _ H E) as F. now rewrite key_lt_irrefl in F.
Qed.

Lemma key_lt_antisym (a b : Z * string) :
  key_lt a b = false -> key_lt b a = false -> a = b.
Proof. intros [->|H]%key_lt_connex; [done | congruence]. Qed.

Lemma strongly_sorted_weaken {A} (R R' : A -> A -> Prop) (l : list A) :
  (forall x y, R x y -> R' x y) -> StronglySorted R l -> StronglySorted R' l.
Proof.
  intros HR. induction 1 as [|x l _ IH Hx]; constructor; [done|].
  eapply Forall_impl; [exact Hx|]. apply HR.
Qed.

Section Sort.
Context {A : Type} (key : A -> Z * string).

Lemma key_le_refl (x : A) : key_le key x x.
Proof. apply key_lt_irrefl. Qed.

Lemma key_le_trans (x y z : A) : key_le key x y -> key_le key y z -> key_le key x z.
Proof.
  unfold key_le. intros Hxy Hyz.
  destruct (key_lt (key z) (key x)) eqn:E; [|done].
  destruct (key_lt_connex _ _ Hyz) as [Heq|Hlt].
  - rewrite <- Heq in Hxy. congruence.
  - pose proof (key_lt_trans _ _ _ Hlt E). congruence.
Qed.

Lemma key_le_antisym (x y : A) : key_le key x y -> key_le key y x -> key x = key y.
Proof. unfold key_le. intros. now apply key_lt_antisym. Qed.

Lemma insert_sorted_perm (x : A) (l : list A) : insert_sorted key x l ≡ₚ x :: l.
Proof.
  induction l as [|y l IH]; simpl; [done|].
  destruct (key_lt (key y) (key x)); [|done].
  rewrite IH. apply Permutation_swap.
Qed.

Lemma sorted_perm (l : list A) : sorted key l ≡ₚ l.
Proof.
  induction l as [|x l IH]; simpl; [done|].
  now rewrite insert_sorted_perm, IH.
Qed.

Lemma sorted_length (l : list A) : length (sorted key l) = length l.
Proof. apply Permutation_length, sorted_perm. Qed.

Lemma insert_sorted_sorted (x : A) (l : list A) :
  StronglySorted (key_le key) l -> StronglySorted (key_le key) (insert_sorted key x l).
Proof.
  induction 1 as [|y l Hs IH Hy]; simpl.
  - repeat constructor.
  - destruct (key_lt (key y) (key x)) eqn:E.
    + constructor; [done|].
      rewrite insert_sorted_perm. constructor; [|done].
      unfold key_le. now apply key_lt_asym.
    + constructor; [now constructor|].
      constructor; [done|].
      eapply Forall_impl; [exact Hy|]. intros z Hz.
      eapply key_le_trans; [|exact Hz]. exact E.
Qed.

Lemma sorted_sorted (l : list A) : StronglySorted (key_le key) (sorted key l).
Proof.
  induction l as [|x l IH]; simpl; [constructor|].
  now apply insert_sorted_sorted.
Qed.

(** Stability: the elements of one key keep their input order. *)
Lemma insert_sorted_filter (k : Z * string) (x : A) (l : list A) :
  filter (fun y => key y = k) (insert_sorted key x l)
  = filter (fun y => key y = k) (x :: l).
Proof.
  induction l as [|y l IH]; simpl; [done|].
  destruct (key_lt (key y) (key x)) eqn:E; [|done].
  rewrite filter_cons, IH, !filter_cons.
  destruct (decide (key y = k)) as [Hy|Hy], (decide (key x = k)) as [Hx|Hx];
    try done.
  rewrite Hy, Hx, key_lt_irrefl in E. done.
Qed.

Lemma sorted_stable (k : Z * string) (l : list A) :
  filter (fun y => key y = k) (sorted key l) = filter (fun y => key y = k) l.
Proof.
  induction l as [|x l IH]; simpl; [done|].
  now rewrite insert_sorted_filter, !filter_cons, IH.
Qed.

(** Rearrangements of ties. *)
Lemma tie_perm_refl (l : list A) : tie_perm key l l.
Proof. induction l; constructor; done. Qed.

Lemma tie_perm_perm (l l' : list A) : tie_perm key l l' -> l ≡ₚ l'.
Proof.
  induction 1; [done|by constructor|apply Permutation_swap|by etrans].
Qed.

Lemma tie_perm_middle (x : A) (pre post : list A) :
  Forall (fun y => key y = key x) pre ->
  tie_perm key (x :: pre ++ post) (pre ++ x :: post).
Proof.
  induction 1 as [|y pre Hy _ IH]; simpl; [apply tie_perm_refl|].
  eapply tie_trans; [|apply tie_skip, IH].
  now apply tie_swap.
Qed.

(** Two sorted arrangements of the same elements differ only in ties. *)
Lemma sorted_perm_tie_perm (l l' : list A) :
  StronglySorted (key_le key) l -> StronglySorted (key_le key) l' ->
  l ≡ₚ l' -> tie_perm key l l'.
Proof.
  intros Hl. revert l'.
  induction Hl as [|x l Hs IH Hx]; intros l' Hl' Hp.
  - apply Permutation_nil in Hp as ->. constructor.
  - assert (x ∈ l') as Hin by (rewrite <- Hp; left).
    apply list_elem_of_split in Hin as (pre & post & ->).
    rewrite <- Permutation_middle in Hp. apply Permutation_cons_inv in Hp.
    apply StronglySorted_app in Hl' as (Hcross & Hpre & Hpost).
    apply StronglySorted_cons in Hpost as [Hxpost Hpost].
    assert (Forall (fun y => key y = key x) pre) as Hties.
    { apply Forall_forall. intros y Hy. apply key_le_antisym.
      - apply Hcross; [done|left].
      - rewrite Forall_forall in Hx. apply Hx.
        rewrite Hp. apply elem_of_app. now left. }
    eapply tie_trans; [|apply tie_perm_middle; exact Hties].
    apply tie_skip, IH; [|done].
    apply StronglySorted_app. split_and!; [|done..].
    intros x1 x2 H1 H2. apply Hcross; [done|now right].
Qed.

Lemma sorted_tie_perm (l l' : list A) :
  l ≡ₚ l' -> tie_perm key (sorted key l) (sorted key l').
Proof.
  intros Hp. apply sorted_perm_tie_perm; try apply sorted_sorted.
  now rewrite !sorted_perm.
Qed.
End Sort.

End SortFacts.

(** ** The scheduling loop *)
Module LoopFacts.
Import Py Scheduler SortFacts.

Ltac unfold_result :=
  unfold mbind, result_bind, mret, result_ret, or_raise in *; simpl in *.

Lemma datetime_compare_refl (a : datetime) : datetime_compare a a = Eq.
Proof. unfold datetime_compare. now rewrite !Z.compare_refl. Qed.

Lemma datetime_ge_refl (a : datetime) : datetime_ge a a = true.
Proof. unfold datetime_ge. now rewrite datetime_compare_refl. Qed.

Lemma same_fields_refl (w : ContactWindow) : same_fields w w.
Proof. repeat split. Qed.

Lemma same_fields_set_assigned (b : bool) (w : ContactWindow) :
  same_fields (set_assigned b w) w.
Proof. repeat split. Qed.

Lemma same_fields_store (h : heap) (contact : loc) (b : bool) (r : loc) :
  same_fields (store_assigned h contact b r) (h r).
Proof.
  unfold store_assigned. destruct (r =? contact)%nat.
  - apply same_fields_set_assigned.
  - apply same_fields_refl.
Qed.

Lemma same_fields_trans (w1 w2 w3 : ContactWindow) :
  same_fields w1 w2 -> same_fields w2 w3 -> same_fields w1 w3.
Proof. unfold same_fields. intuition congruence. Qed.

Lemma same_fields_sort_key (w w' : ContactWindow) :
  same_fields w w' -> sort_key w = sort_key w'.
Proof. unfold same_fields, sort_key. intuition congruence. Qed.

Section Loop.
Variable fromisoformat : string -> option datetime.
Variable ground_stations : list GroundStation.

Local Abbreviation overlapping := (overlapping fromisoformat).
Local Abbreviation count_overlaps := (count_overlaps fromisoformat).
Local Abbreviation decision := (decision fromisoformat ground_stations).
Local Abbreviation step := (step fromisoformat ground_stations).

(** *** The loop body is [decision] followed by [commit] *)
Lemma step_decision (st : state) (contact : loc) :
  step st contact
  = d ← decision (st_heap st) (gs_schedules st) contact; Ok (commit st contact d).
Proof.
  unfold Scheduler.step, Scheduler.decision, commit.
  destruct (fromisoformat (start_time _)); unfold_result; [|done].
  destruct (fromisoformat (end_time _)); unfold_result; [|done].
  destruct (gs_schedules st !! _) as [existing|] eqn:E; unfold_result; [|done].
  destruct (count_overlaps _ _ _ _); unfold_result; [|done].
  destruct (capacity_of _ _); unfold_result; [|done].
  now destruct (_ <? _).
Qed.

(** *** Only the time fields of the store are read *)
Lemma overlapping_static (h h' : heap) (start end_ : datetime) (x : loc) :
  same_fields (h x) (h' x) ->
  overlapping h start end_ x = overlapping h' start end_ x.
Proof.
  intros (_ & _ & Hs & He & _). unfold Scheduler.overlapping.
  now rewrite Hs, He.
Qed.

Lemma count_overlaps_static (h h' : heap) (start end_ : datetime) (l : list loc) :
  (forall r, same_fields (h r) (h' r)) ->
  count_overlaps h start end_ l = count_overlaps h' start end_ l.
Proof.
  intros Hh. induction l as [|x l IH]; simpl; [done|].
  now rewrite (overlapping_static h h'), IH.
Qed.

Lemma decision_static (h h' : heap) (schedules : gmap string (list loc))
    (contact : loc) :
  (forall r, same_fields (h r) (h' r)) ->
  decision h schedules contact = decision h' schedules contact.
Proof.
  intros Hh. unfold Scheduler.decision.
  destruct (Hh contact) as (_ & -> & -> & -> & _).
  destruct (fromisoformat (start_time _)); unfold_result; [|done].
  destruct (fromisoformat (end_time _)); unfold_result; [|done].
  destruct (schedules !! _); unfold_result; [|done].
  now rewrite (count_overlaps_static h h').
Qed.

(** *** The overlap count is a sum *)
Lemma overlapping_raises (h : heap) (start end_ : datetime) (x : loc) (e : error) :
  overlapping h start end_ x = Raise e -> e = ValueError.
Proof.
  unfold Scheduler.overlapping.
  destruct (fromisoformat (end_time _)); unfold_result; [|congruence].
  destruct (datetime_le _ _); [done|].
  destruct (fromisoformat (start_time _)); unfold_result; congruence.
Qed.

Lemma count_overlaps_raises (h : heap) (start end_ : datetime) (l : list loc)
    (e : error) :
  count_overlaps h start end_ l = Raise e -> e = ValueError.
Proof.
  induction l as [|x l IH]; simpl; [done|].
  destruct (overlapping _ _ _ _) eqn:E; unfold_result.
  - destruct (count_overlaps _ _ _ _); unfold_result; [done|].
    intros [= <-]. now apply IH.
  - intros [= <-]. eapply overlapping_raises, E.
Qed.

Lemma count_overlaps_app (h : heap) (start end_ : datetime) (l1 l2 : list loc) :
  count_overlaps h start end_ (l1 ++ l2)
  = n1 ← count_overlaps h start end_ l1;
    n2 ← count_overlaps h start end_ l2;
    Ok (n1 + n2).
Proof.
  induction l1 as [|x l1 IH]; simpl.
  - unfold_result. now destruct (count_overlaps _ _ _ _).
  - rewrite IH. destruct (overlapping _ _ _ _); unfold_result; [|done].
    destruct (count_overlaps _ _ _ l1); unfold_result; [|done].
    destruct (count_overlaps _ _ _ l2); unfold_result; [|done].
    f_equal. lia.
Qed.

Lemma count_overlaps_perm (h : heap) (start end_ : datetime) (l l' : list loc) :
  l ≡ₚ l' -> count_overlaps h start end_ l = count_overlaps h start end_ l'.
Proof.
  induction 1 as [|x l l' _ IH|x y l|l l' l'' _ IH1 _ IH2]; simpl.
  - done.
  - now rewrite IH.
  - destruct (overlapping h start end_ x) as [bx|ex] eqn:Ex,
             (overlapping h start end_ y) as [by_|ey] eqn:Ey; unfold_result;
      try apply overlapping_raises in Ex; try apply overlapping_raises in Ey;
      subst; try done;
      destruct (count_overlaps _ _ _ _) eqn:E; try done;
      try (now apply count_overlaps_raises in E as ->).
    f_equal; lia.
  - congruence.
Qed.

(** *** A window with the same start time is never counted *)
Lemma overlapping_tie (h : heap) (start end_ : datetime) (x : loc) :
  fromisoformat (start_time (h x)) = Some start ->
  is_Some (fromisoformat (end_time (h x))) ->
  overlapping h start end_ x = Ok false.
Proof.
  intros Hs [e He]. unfold Scheduler.overlapping. rewrite He, Hs. unfold_result.
  destruct (datetime_le _ _); [done|]. now rewrite datetime_ge_refl.
Qed.

Lemma commit_lookup (st : state) (contact : loc) (d : Z * bool) (g : string) :
  gs_schedules (commit st contact d) !! g
  = if d.2 && bool_decide (g = ground_station_id (st_heap st contact))
    then Some (default [] (gs_schedules st !! g) ++ [contact])
    else gs_schedules st !! g.
Proof.
  unfold commit; simpl. destruct d as [n [|]]; simpl; [|done].
  case_bool_decide as Hg.
  - subst. now rewrite lookup_insert_eq.
  - now rewrite lookup_insert_ne.
Qed.

Lemma commit_same_fields (st : state) (contact : loc) (d : Z * bool) (r : loc) :
  same_fields (st_heap (commit st contact d) r) (st_heap st r).
Proof. apply same_fields_store. Qed.

(** Deciding [r1] after a window [r2] with the same start time has been
    handled gives what deciding it before would have given. *)
Lemma decision_after_tie (st : state) (r1 r2 : loc) (d2 : Z * bool) :
  start_time (st_heap st r1) = start_time (st_heap st r2) ->
  decision (st_heap st) (gs_schedules st) r2 = Ok d2 ->
  decision (st_heap (commit st r2 d2)) (gs_schedules (commit st r2 d2)) r1
  = decision (st_heap st) (gs_schedules st) r1.
Proof.
  intros Hstart H2.
  rewrite (decision_static _ (st_heap st)) by apply commit_same_fields.
  unfold Scheduler.decision in *. rewrite commit_lookup.
  rewrite Hstart.
  destruct (fromisoformat (start_time (st_heap st r2))) as [s2|] eqn:Es2;
    unfold_result; [|done].
  destruct (fromisoformat (end_time (st_heap st r2))) as [e2|] eqn:Ee2;
    unfold_result; [|done].
  destruct (gs_schedules st !! ground_station_id (st_heap st r2))
    as [l2|] eqn:El2; unfold_result; [|done].
  destruct (fromisoformat (end_time (st_heap st r1))) as [e1|]; [|done].
  destruct (d2.2 && bool_decide _) eqn:Hb; [|done].
  apply andb_true_iff in Hb as [_ Hg%bool_decide_eq_true]. rewrite Hg, El2.
  simpl. rewrite count_overlaps_app. simpl.
  rewrite (overlapping_tie _ s2 e1 r2) by (rewrite ?Ee2; eauto).
  unfold_result. clear H2.
  destruct (count_overlaps (st_heap st) s2 e1 l2); [|done].
  now rewrite !Z.add_0_r.
Qed.

(** *** States up to the order of the lists *)
Lemma state_equiv_refl (st : state) : state_equiv st st.
Proof. repeat split; intros; reflexivity. Qed.

Lemma state_equiv_trans (s1 s2 s3 : state) :
  state_equiv s1 s2 -> state_equiv s2 s3 -> state_equiv s1 s3.
Proof.
  intros (Hh & Hs & Ha) (Hh' & Hs' & Ha'). repeat split.
  - intros r. now rewrite Hh.
  - intros g. etrans; [apply Hs|apply Hs'].
  - now rewrite Ha.
Qed.

Lemma result_rel_refl (x : result state) : result_rel state_equiv x x.
Proof. destruct x; simpl; [apply state_equiv_refl|done]. Qed.

Lemma result_rel_trans (x y z : result state) :
  result_rel state_equiv x y -> result_rel state_equiv y z ->
  result_rel state_equiv x z.
Proof.
  destruct x, y, z; simpl; try done. apply state_equiv_trans.
Qed.

Lemma decision_equiv (s1 s2 : state) (contact : loc) :
  state_equiv s1 s2 ->
  decision (st_heap s1) (gs_schedules s1) contact
  = decision (st_heap s2) (gs_schedules s2) contact.
Proof.
  intros (Hh & Hs & _).
  rewrite (decision_static _ (st_heap s2))
    by (intros r; rewrite Hh; apply same_fields_refl).
  unfold Scheduler.decision.
  destruct (fromisoformat (start_time _)); unfold_result; [|done].
  destruct (fromisoformat (end_time _)); unfold_result; [|done].
  destruct (Hs (ground_station_id (st_heap s2 contact))) as [l1 l2 Hl|];
    unfold_result; [|done].
  now rewrite (count_overlaps_perm _ _ _ _ _ Hl).
Qed.

Lemma commit_equiv (s1 s2 : state) (contact : loc) (d : Z * bool) :
  state_equiv s1 s2 -> state_equiv (commit s1 contact d) (commit s2 contact d).
Proof.
  intros (Hh & Hs & Ha). split_and!.
  - intros r. simpl. unfold store_assigned. now rewrite Hh.
  - intros g. rewrite !commit_lookup, Hh.
    destruct (d.2 && _); [|apply Hs].
    constructor. apply Permutation_app_tail.
    destruct (Hs g); simpl; done.
  - simpl. now rewrite Ha.
Qed.

Lemma step_equiv (s1 s2 : state) (contact : loc) :
  state_equiv s1 s2 ->
  result_rel state_equiv (step s1 contact) (step s2 contact).
Proof.
  intros H. rewrite !step_decision, (decision_equiv s1 s2) by done.
  destruct (decision _ _ _); unfold_result; [|done].
  now apply commit_equiv.
Qed.

Lemma for_each_equiv (l : list loc) (s1 s2 : state) :
  state_equiv s1 s2 ->
  result_rel state_equiv (for_each step s1 l) (for_each step s2 l).
Proof.
  revert s1 s2. induction l as [|x l IH]; intros s1 s2 H; simpl; [done|].
  pose proof (step_equiv s1 s2 x H) as Hx.
  destruct (step s1 x), (step s2 x); unfold_result; try done.
  now apply IH.
Qed.

(** *** Two neighbours with the same key can be handled in either order *)
Lemma commit_swap (st : state) (r1 r2 : loc) (d1 d2 : Z * bool) :
  (r1 = r2 -> d1 = d2) ->
  state_equiv (commit (commit st r1 d1) r2 d2) (commit (commit st r2 d2) r1 d1).
Proof.
  intros Hsame. split_and!.
  - intros r. simpl. unfold store_assigned.
    destruct (Nat.eqb_spec r r2) as [E2|], (Nat.eqb_spec r r1) as [E1|];
      try done.
    now rewrite Hsame by congruence.
  - intros g. rewrite !commit_lookup.
    destruct (commit_same_fields st r1 d1 r2) as (_ & -> & _).
    destruct (commit_same_fields st r2 d2 r1) as (_ & -> & _).
    destruct (d2.2 && _), (d1.2 && _); simpl; try reflexivity.
    constructor. rewrite <- !app_assoc. apply Permutation_app_head.
    apply Permutation_swap.
  - simpl. rewrite <- !app_assoc. apply Permutation_app_head.
    apply Permutation_swap.
Qed.

Lemma step_swap (st : state) (r1 r2 : loc) :
  sort_key (st_heap st r1) = sort_key (st_heap st r2) ->
  result_rel state_equiv
    (st' ← step st r1; step st' r2) (st' ← step st r2; step st' r1).
Proof.
  intros [= _ Hstart].
  rewrite !step_decision.
  destruct (decision _ _ r1) as [d1|e1] eqn:E1,
           (decision _ _ r2) as [d2|e2] eqn:E2; unfold_result.
  - rewrite !step_decision.
    rewrite (decision_after_tie st r2 r1 d1), E2 by done.
    rewrite (decision_after_tie st r1 r2 d2), E1 by done.
    unfold_result. apply commit_swap. intros ->. congruence.
  - rewrite step_decision, (decision_after_tie st r2 r1 d1), E2 by done.
    done.
  - rewrite step_decision, (decision_after_tie st r1 r2 d2), E1 by done.
    done.
  - done.
Qed.

(** The sort keys never change. *)
Lemma step_same_fields (st st' : state) (contact : loc) :
  step st contact = Ok st' ->
  forall r, same_fields (st_heap st' r) (st_heap st r).
Proof.
  rewrite step_decision. destruct (decision _ _ _); unfold_result; [|done].
  intros [= <-] r. apply commit_same_fields.
Qed.

Lemma for_each_tie_perm (key : loc -> Z * string) (l l' : list loc) :
  tie_perm key l l' ->
  forall st, (forall r, sort_key (st_heap st r) = key r) ->
  result_rel state_equiv (for_each step st l) (for_each step st l').
Proof.
  induction 1 as [|x l l' _ IH|x y l Hxy|l l' l'' _ IH1 _ IH2]; intros st Hkey.
  - apply result_rel_refl.
  - simpl. destruct (step st x) as [st'|] eqn:E; unfold_result; [|done].
    apply IH. intros r. rewrite <- Hkey.
    apply same_fields_sort_key. eapply step_same_fields, E.
  - simpl. pose proof (step_swap st y x) as Hswap.
    rewrite !Hkey in Hswap. specialize (Hswap (eq_sym Hxy)).
    destruct (step st y) as [sy|] eqn:Ey, (step st x) as [sx|] eqn:Ex;
      unfold_result.
    + destruct (step sy x), (step sx y); unfold_result; try done.
      now apply for_each_equiv.
    + destruct (step sy x); unfold_result; done.
    + destruct (step sx y); unfold_result; done.
    + done.
  - eapply result_rel_trans; [apply IH1|apply IH2]; done.
Qed.

(** *** Runs and their traces *)
Lemma for_each_run_trace (l : list loc) (st st' : state) :
  for_each step st l = Ok st' <->
  exists ds, run_trace fromisoformat ground_stations st l ds st'.
Proof.
  revert st. induction l as [|x l IH]; intros st; simpl.
  - split.
    + intros [= <-]. exists []. constructor.
    + intros [ds H]. now inversion H.
  - rewrite step_decision. split.
    + destruct (decision _ _ _) as [d|] eqn:E; unfold_result; [|done].
      intros [ds H]%IH. exists (d :: ds). now constructor.
    + intros [ds H]. inversion H as [|? ? d ? ds' ? Hd Hr]; subst.
      rewrite Hd. unfold_result. apply IH. eauto.
Qed.

Lemma run_trace_length (st st' : state) (l : list loc) (ds : list (Z * bool)) :
  run_trace fromisoformat ground_stations st l ds st' -> length ds = length l.
Proof. induction 1; simpl; congruence. Qed.

Lemma run_trace_assignments (st st' : state) (l : list loc) (ds : list (Z * bool)) :
  run_trace fromisoformat ground_stations st l ds st' ->
  assignments st' = assignments st ++ l.
Proof.
  induction 1 as [|st x d l ds st' _ _ IH]; simpl.
  - now rewrite app_nil_r.
  - rewrite IH. simpl. now rewrite <- app_assoc.
Qed.

Lemma run_trace_heap (st st' : state) (l : list loc) (ds : list (Z * bool)) :
  run_trace fromisoformat ground_stations st l ds st' ->
  st_heap st' = store_all (st_heap st) (zip l ds.*2).
Proof. induction 1 as [|st x d l ds st' _ _ IH]; simpl; [done|]. now rewrite IH. Qed.

Lemma run_trace_same_fields (st st' : state) (l : list loc) (ds : list (Z * bool)) :
  run_trace fromisoformat ground_stations st l ds st' ->
  forall r, same_fields (st_heap st' r) (st_heap st r).
Proof.
  induction 1 as [|st x d l ds st' _ _ IH]; intros r.
  - apply same_fields_refl.
  - eapply same_fields_trans; [apply IH|apply commit_same_fields].
Qed.

Lemma run_trace_untouched (st st' : state) (l : list loc) (ds : list (Z * bool)) :
  run_trace fromisoformat ground_stations st l ds st' ->
  forall r, r ∉ l -> st_heap st' r = st_heap st r.
Proof.
  induction 1 as [|st x d l ds st' _ _ IH]; intros r Hr; [done|].
  apply not_elem_of_cons in Hr as [Hx Hl]. rewrite IH by done.
  simpl. unfold store_assigned.
  destruct (Nat.eqb_spec r x); [done|done].
Qed.

Lemma run_trace_stdout (st st' : state) (l : list loc) (ds : list (Z * bool)) :
  run_trace fromisoformat ground_stations st l ds st' ->
  stdout st' = stdout st ++ concat (zip_with (fun r d => lines_for (st_heap st r) d) l ds).
Proof.
  induction 1 as [|st x d l ds st' _ Hrun IH]; simpl.
  - now rewrite app_nil_r.
  - rewrite IH. simpl. rewrite <- !app_assoc. simpl. do 3 f_equal.
    f_equal. apply zip_with_ext; [|done..].
    intros r d'. unfold lines_for.
    now destruct (same_fields_store (st_heap st) x d.2 r) as (-> & -> & _).
Qed.

Lemma run_trace_app_inv (st st' : state) (l1 l2 : list loc) (x : loc)
    (ds : list (Z * bool)) :
  run_trace fromisoformat ground_stations st (l1 ++ x :: l2) ds st' ->
  exists ds1 d ds2 st1,
    ds = ds1 ++ d :: ds2 /\ length ds1 = length l1 /\
    run_trace fromisoformat ground_stations st l1 ds1 st1 /\
    decision (st_heap st1) (gs_schedules st1) x = Ok d /\
    run_trace fromisoformat ground_stations (commit st1 x d) l2 ds2 st'.
Proof.
  revert st ds. induction l1 as [|y l1 IH]; intros st ds H; simpl in *.
  - inversion H; subst. exists [], d, ds0, st. split_and!; try done. constructor.
  - inversion H as [|? ? d0 ? ds0 ? Hd Hr]; subst.
    apply IH in Hr as (ds1 & d & ds2 & st1 & -> & Hlen & H1 & Hd1 & H2).
    exists (d0 :: ds1), d, ds2, st1. split_and!; simpl; try done.
    + congruence.
    + now constructor.
Qed.

(** *** What a decision consists of *)
Lemma decision_inv (h : heap) (schedules : gmap string (list loc))
    (contact : loc) (d : Z * bool) :
  decision h schedules contact = Ok d <->
  exists start end_ existing capacity,
    fromisoformat (start_time (h contact)) = Some start /\
    fromisoformat (end_time (h contact)) = Some end_ /\
    schedules !! ground_station_id (h contact) = Some existing /\
    count_overlaps h start end_ existing = Ok d.1 /\
    capacity_of ground_stations (ground_station_id (h contact))
      = Ok capacity /\
    d.2 = (d.1 <? capacity).
Proof.
  unfold Scheduler.decision. split.
  - destruct (fromisoformat (start_time _)) as [s|]; unfold_result; [|done].
    destruct (fromisoformat (end_time _)) as [e|]; unfold_result; [|done].
    destruct (schedules !! _) as [l|]; unfold_result; [|done].
    destruct (count_overlaps _ _ _ _) as [n|] eqn:En; unfold_result; [|done].
    destruct (capacity_of _ _) as [c|]; unfold_result; [|done].
    intros [= <-]. exists s, e, l, c. done.
  - intros (s & e & l & c & -> & -> & -> & Hn & Hc & Hd). unfold_result.
    rewrite Hn. unfold_result. rewrite Hc.
    destruct d; simpl in *. now subst.
Qed.

Lemma overlapping_spec (h : heap) (start end_ : datetime) (x : loc)
    (i : datetime * datetime) :
  interval fromisoformat (h x) = Some i ->
  overlapping h start end_ x = Ok (strictly_contains (start, end_) i).
Proof.
  unfold interval, Scheduler.overlapping, strictly_contains.
  destruct (fromisoformat (start_time _)) as [s2|]; simpl; [|done].
  destruct (fromisoformat (end_time _)) as [e2|]; simpl; [|done].
  intros [= <-]. unfold_result.
  unfold datetime_le, datetime_ge, datetime_gt, datetime_lt.
  destruct (datetime_compare end_ e2), (datetime_compare start s2); done.
Qed.

Lemma count_overlaps_spec (h : heap) (start end_ : datetime) (l : list loc) :
  Forall (fun x => is_Some (interval fromisoformat (h x))) l ->
  count_overlaps h start end_ l
  = Ok (Z.of_nat (length (List.filter
      (fun x => match interval fromisoformat (h x) with
                | Some i => strictly_contains (start, end_) i
                | None => false
                end) l))).
Proof.
  induction 1 as [|x l [i Hi] _ IH]; simpl; [done|].
  rewrite (overlapping_spec _ _ _ _ i Hi), IH, Hi. unfold_result.
  destruct (strictly_contains _ _); simpl; f_equal; lia.
Qed.

Lemma capacity_of_ok (g : string) :
  existsb (fun gs => String.eqb (gs_id gs) g) ground_stations = true ->
  exists capacity, capacity_of ground_stations g = Ok capacity.
Proof.
  unfold capacity_of. induction ground_stations as [|gs l IH]; simpl; [done|].
  destruct (String.eqb (gs_id gs) g); simpl; eauto.
Qed.

Lemma initial_lookup (h : heap) (g : string) :
  gs_schedules (initial h ground_stations) !! g
  = if existsb (fun gs => String.eqb (gs_id gs) g) ground_stations
    then Some [] else None.
Proof.
  unfold initial; simpl.
  assert (forall m : gmap string (list loc),
    foldl (fun m gs => <[gs_id gs := []]> m) m ground_stations !! g
    = if existsb (fun gs => String.eqb (gs_id gs) g) ground_stations
      then Some [] else m !! g) as H.
  { induction ground_stations as [|gs l IH]; intros m; simpl; [done|].
    rewrite IH. destruct (existsb _ l).
    - now rewrite orb_true_r.
    - rewrite orb_false_r. destruct (String.eqb_spec (gs_id gs) g) as [->|].
      + now rewrite lookup_insert_eq.
      + now rewrite lookup_insert_ne. }
  rewrite H. now rewrite lookup_empty.
Qed.

(** *** The station lists hold the windows admitted so far *)
Lemma admitted_at_static (h h' : heap) (g : string) (ps : list (loc * (Z * bool))) :
  (forall r, same_fields (h r) (h' r)) -> admitted_at h g ps = admitted_at h' g ps.
Proof.
  intros Hh. unfold admitted_at. f_equal. apply filter_ext.
  intros [x d]; simpl. now destruct (Hh x) as (_ & -> & _).
Qed.

Lemma run_trace_schedules (st st' : state) (l : list loc) (ds : list (Z * bool)) :
  run_trace fromisoformat ground_stations st l ds st' ->
  forall g, gs_schedules st' !! g
            = (fun l0 => l0 ++ admitted_at (st_heap st) g (zip l ds))
              <$> gs_schedules st !! g.
Proof.
  induction 1 as [|st x d l ds st' Hd _ IH]; intros g.
  - unfold admitted_at; simpl. destruct (_ !! g); simpl; [|done].
    now rewrite app_nil_r.
  - rewrite IH, commit_lookup.
    rewrite (admitted_at_static _ (st_heap st)) by apply commit_same_fields.
    apply decision_inv in Hd as (_ & _ & l0 & _ & _ & _ & Hl0 & _).
    unfold admitted_at at 2; simpl.
    destruct (String.eqb_spec (ground_station_id (st_heap st x)) g) as [<-|Hg].
    + rewrite bool_decide_eq_true_2 by done. rewrite Hl0. simpl.
      destruct (d.2); simpl; [|done]. now rewrite <- app_assoc.
    + rewrite bool_decide_eq_false_2 by congruence.
      rewrite !andb_false_r. done.
Qed.

(** *** Well-formed inputs are scheduled without an exception *)
Lemma interval_static (w w' : ContactWindow) :
  same_fields w w' -> interval fromisoformat w = interval fromisoformat w'.
Proof. intros (_ & _ & Hs & He & _). unfold interval. now rewrite Hs, He. Qed.

Lemma well_formed_window_static (w w' : ContactWindow) :
  same_fields w w' ->
  well_formed_window fromisoformat ground_stations w
  = well_formed_window fromisoformat ground_stations w'.
Proof.
  intros (_ & Hg & Hs & He & _). unfold well_formed_window.
  now rewrite Hg, Hs, He.
Qed.

Lemma well_formed_window_spec (w : ContactWindow) :
  well_formed_window fromisoformat ground_stations w = true ->
  (exists s e, fromisoformat (start_time w) = Some s /\
               fromisoformat (end_time w) = Some e) /\
  existsb (fun gs => String.eqb (gs_id gs) (ground_station_id w))
          ground_stations = true.
Proof.
  unfold well_formed_window. rewrite !andb_true_iff, !bool_decide_eq_true.
  intros [[[s Hs] [e He]] Hg]. eauto.
Qed.

Lemma run_trace_total (l : list loc) (st : state) :
  Forall (fun r => well_formed_window fromisoformat ground_stations
                     (st_heap st r) = true) l ->
  (forall g l0, gs_schedules st !! g = Some l0 ->
     Forall (fun x => is_Some (interval fromisoformat (st_heap st x))) l0) ->
  (forall g, existsb (fun gs => String.eqb (gs_id gs) g) ground_stations = true ->
     is_Some (gs_schedules st !! g)) ->
  exists ds st', run_trace fromisoformat ground_stations st l ds st'.
Proof.
  revert st. induction l as [|x l IH]; intros st Hwf Hsched Hdom.
  - exists [], st. constructor.
  - apply Forall_cons in Hwf as [Hx Hl].
    apply well_formed_window_spec in Hx as [(s & e & Hs & He) Hg].
    destruct (Hdom _ Hg) as [l0 Hl0].
    destruct (capacity_of_ok _ Hg) as [c Hc].
    pose proof (count_overlaps_spec (st_heap st) s e l0 (Hsched _ _ Hl0)) as Hn.
    set (n := Z.of_nat _) in Hn.
    assert (decision (st_heap st) (gs_schedules st) x = Ok (n, n <? c)) as Hd.
    { apply decision_inv. exists s, e, l0, c. done. }
    destruct (IH (commit st x (n, n <? c))) as (ds & st' & Hrun).
    + eapply Forall_impl; [exact Hl|]. intros r Hr. simpl in Hr |- *.
      now rewrite (well_formed_window_static _ (st_heap st r))
        by apply same_fields_store.
    + intros g l1. rewrite commit_lookup. intros Hl1.
      assert (Forall (fun y => is_Some (interval fromisoformat (st_heap st y))) l1)
        as Hold.
      { destruct (_ && _) eqn:Hb.
        - apply andb_true_iff in Hb as [_ ->%bool_decide_eq_true].
          rewrite Hl0 in Hl1. injection Hl1 as <-. simpl.
          apply Forall_app. split; [now apply (Hsched _ _ Hl0)|].
          apply Forall_singleton. unfold interval. rewrite Hs, He. eauto.
        - now apply (Hsched g). }
      eapply Forall_impl; [exact Hold|]. intros y Hy.
      now rewrite (interval_static _ (st_heap st y)) by apply commit_same_fields.
    + intros g Hg'. rewrite commit_lookup.
      destruct (_ && _); [eauto|]. now apply Hdom.
    + exists ((n, n <? c) :: ds), st'. now constructor.
Qed.

Lemma run_total (h : heap) (contact_windows : list loc) :
  well_formed fromisoformat h contact_windows ground_stations = true ->
  exists ds st',
    run_trace fromisoformat ground_stations (initial h ground_stations)
      (sorted (fun r => sort_key (h r)) contact_windows) ds st' /\
    run fromisoformat h contact_windows ground_stations = Ok st'.
Proof.
  intros Hwf. unfold well_formed in Hwf. rewrite forallb_forall in Hwf.
  destruct (run_trace_total (sorted (fun r => sort_key (h r)) contact_windows)
              (initial h ground_stations)) as (ds & st' & Hrun).
  - apply Forall_forall. intros r Hr. apply Hwf.
    apply list_elem_of_In. now rewrite <- (sorted_perm (fun r => sort_key (h r))).
  - intros g l0. rewrite initial_lookup.
    destruct (existsb _ _); [|done]. now intros [= <-].
  - intros g Hg. rewrite initial_lookup, Hg. eauto.
  - exists ds, st'. split; [done|]. unfold run.
    apply for_each_run_trace. eauto.
Qed.

(** *** Every handled window has both times parsed and [assigned] set *)
Lemma run_trace_intervals (st st' : state) (l : list loc) (ds : list (Z * bool)) :
  run_trace fromisoformat ground_stations st l ds st' ->
  Forall (fun x => is_Some (interval fromisoformat (st_heap st x))) l.
Proof.
  induction 1 as [|st x d l ds st' Hd _ IH]; constructor.
  - apply decision_inv in Hd as (s & e & _ & _ & Hs & He & _).
    unfold interval. rewrite Hs, He. eauto.
  - eapply Forall_impl; [exact IH|]. intros y Hy.
    now rewrite <- (interval_static _ _ (commit_same_fields st x d y)).
Qed.

Lemma run_trace_assigned_mono (st st' : state) (l : list loc)
    (ds : list (Z * bool)) (r : loc) :
  run_trace fromisoformat ground_stations st l ds st' ->
  is_Some (assigned (st_heap st r)) -> is_Some (assigned (st_heap st' r)).
Proof.
  induction 1 as [|st x d l ds st' _ _ IH]; [done|].
  intros H. apply IH. simpl. unfold store_assigned.
  destruct (r =? x)%nat; simpl; eauto.
Qed.

Lemma run_trace_assigned (st st' : state) (l : list loc) (ds : list (Z * bool)) :
  run_trace fromisoformat ground_stations st l ds st' ->
  forall r, r ∈ l -> is_Some (assigned (st_heap st' r)).
Proof.
  induction 1 as [|st x d l ds st' _ Hrun IH]; intros r Hr.
  - now apply elem_of_nil in Hr.
  - apply elem_of_cons in Hr as [->|Hr]; [|now apply IH].
    eapply run_trace_assigned_mono; [exact Hrun|].
    simpl. unfold store_assigned. rewrite Nat.eqb_refl. simpl. eauto.
Qed.

(** *** Windows that all start together *)
Lemma count_overlaps_same_start (h : heap) (start end_ : datetime)
    (l : list loc) (n : Z) :
  Forall (fun x => fromisoformat (start_time (h x)) = Some start) l ->
  count_overlaps h start end_ l = Ok n -> n = 0.
Proof.
  intros Hl. revert n. induction Hl as [|x l Hx _ IH]; intros n; simpl.
  - now intros [= <-].
  - unfold Scheduler.overlapping. rewrite Hx.
    destruct (fromisoformat (end_time (h x))); unfold_result; [|done].
    rewrite datetime_ge_refl.
    destruct (count_overlaps _ _ _ l) as [m|]; unfold_result;
      destruct (datetime_le _ _); simpl; try done;
      intros [= <-]; now rewrite (IH m).
Qed.

Lemma run_trace_same_start (sigma : string) (st st' : state) (l : list loc)
    (ds : list (Z * bool)) :
  run_trace fromisoformat ground_stations st l ds st' ->
  Forall (fun r => start_time (st_heap st r) = sigma) l ->
  (forall g l0, gs_schedules st !! g = Some l0 ->
     Forall (fun x => start_time (st_heap st x) = sigma) l0) ->
  Forall (fun d => d.1 = 0) ds /\
  forall r, r ∈ l ->
    exists capacity,
      capacity_of ground_stations (ground_station_id (st_heap st r)) = Ok capacity /\
      assigned (st_heap st' r) = Some (0 <? capacity).
Proof.
  induction 1 as [|st x d l ds st' Hd Hrun IH]; intros Hl Hsched.
  - split; [constructor|]. intros r Hr. now apply elem_of_nil in Hr.
  - apply Forall_cons in Hl as [Hx Hl].
    apply decision_inv in Hd as (s & e & l0 & c & Hs & He & Hl0 & Hn & Hc & Hb).
    assert (d.1 = 0) as H0.
    { eapply count_overlaps_same_start; [|exact Hn].
      eapply Forall_impl; [apply (Hsched _ _ Hl0)|].
      intros y Hy. simpl in Hy. now rewrite Hy, <- Hx. }
    destruct IH as [Hds Hheap].
    + eapply Forall_impl; [exact Hl|]. intros r <-.
      now destruct (commit_same_fields st x d r) as (_ & _ & -> & _).
    + intros g l1. rewrite commit_lookup. intros Hl1.
      assert (Forall (fun y => start_time (st_heap st y) = sigma) l1) as Hold.
      { destruct (_ && _) eqn:Hg.
        - apply andb_true_iff in Hg as [_ ->%bool_decide_eq_true].
          rewrite Hl0 in Hl1. injection Hl1 as <-. simpl.
          apply Forall_app. split; [now apply (Hsched _ _ Hl0)|].
          now apply Forall_singleton.
        - now apply (Hsched g). }
      eapply Forall_impl; [exact Hold|]. intros y <-.
      now destruct (commit_same_fields st x d y) as (_ & _ & -> & _).
    + split; [now constructor|]. intros r Hr.
      destruct (decide (r ∈ l)) as [Hin|Hnotin].
      * destruct (Hheap r Hin) as (c' & Hc' & Ha). exists c'. split; [|done].
        now destruct (commit_same_fields st x d r) as (_ & <- & _).
      * apply elem_of_cons in Hr as [->|]; [|done].
        exists c. split; [done|].
        rewrite (run_trace_untouched _ _ _ _ Hrun x Hnotin). simpl.
        unfold store_assigned. rewrite Nat.eqb_refl. simpl.
        now rewrite Hb, H0.
Qed.

(** *** The count taken for each window *)
Lemma length_filter_admitted (h : heap) (g : string) (P : loc -> bool)
    (ps : list (loc * (Z * bool))) :
  length (List.filter P (admitted_at h g ps))
  = length (List.filter
      (fun p => p.2.2 && String.eqb (ground_station_id (h p.1)) g && P p.1) ps).
Proof.
  unfold admitted_at. induction ps as [|p ps IH]; [done|].
  cbn [List.filter]. destruct (p.2.2 && _); cbn [andb]; [|done].
  rewrite fmap_cons. cbn [List.filter].
  destruct (P p.1); cbn [length]; now rewrite IH.
Qed.

Lemma run_trace_counts (h : heap) (l : list loc) (ds : list (Z * bool))
    (st' : state) (i : nat) (contact : loc) (d : Z * bool) :
  run_trace fromisoformat ground_stations (initial h ground_stations) l ds st' ->
  l !! i = Some contact -> ds !! i = Some d ->
  d.1 = Z.of_nat (length (List.filter (counted fromisoformat h contact)
                            (take i (zip l ds)))) /\
  exists capacity,
    capacity_of ground_stations (ground_station_id (h contact)) = Ok capacity /\
    d.2 = (d.1 <? capacity).
Proof.
  intros Hrun Hl Hds.
  pose proof (take_drop_middle _ _ _ Hl) as Hsplit.
  rewrite <- Hsplit in Hrun.
  apply run_trace_app_inv in Hrun
    as (ds1 & d' & ds2 & st1 & -> & Hlen & Hpre & Hd & _).
  assert (length (take i l) = i) as Hi
    by (apply length_take_le, Nat.lt_le_incl, (lookup_lt_Some _ _ _ Hl)).
  rewrite lookup_app_r, Hlen, Hi, Nat.sub_diag in Hds by lia.
  injection Hds as ->.
  assert (take i (zip l (ds1 ++ d :: ds2)) = zip (take i l) ds1) as ->.
  { rewrite <- Hsplit at 1. rewrite zip_with_app by done.
    rewrite take_app_length' by (rewrite length_zip_with; lia). done. }
  pose proof (run_trace_same_fields _ _ _ _ Hpre) as Hsame. simpl in Hsame.
  rewrite (decision_static _ h) in Hd by done.
  apply decision_inv in Hd as (s & e & l0 & c & Hs & He & Hl0 & Hn & Hc & Hb).
  split; [|eauto].
  rewrite (run_trace_schedules _ _ _ _ Hpre), initial_lookup in Hl0.
  destruct (existsb _ _); [|done]. simpl in Hl0. injection Hl0 as <-.
  rewrite count_overlaps_spec in Hn.
  - injection Hn as <-. f_equal. rewrite length_filter_admitted.
    f_equal. apply filter_ext. intros [x dx]. unfold counted, interval; simpl.
    rewrite Hs, He. simpl.
    destruct (fromisoformat (start_time (h x))),
             (fromisoformat (end_time (h x))); simpl; try done.
    all: now rewrite ?andb_false_r.
  - unfold admitted_at. apply Forall_fmap, Forall_forall.
    intros [x dx] Hin%list_elem_of_In. apply filter_In in Hin as [Hin _].
    apply list_elem_of_In, elem_of_zip_l in Hin. simpl.
    pose proof (run_trace_intervals _ _ _ _ Hpre) as Hint. simpl in Hint.
    rewrite Forall_forall in Hint. now apply Hint.
Qed.
End Loop.

End LoopFacts.

(** ** [assign_contacts]: what it returns *)
Module SchedulerTheorems.
Import Py Scheduler SortFacts LoopFacts.

(** [priority] ascending, then [start_time] ascending, on two windows. *)
Definition window_le (w w' : ContactWindow) : Prop :=
  priority w < priority w' \/
  (priority w = priority w' /\ String.leb (start_time w) (start_time w') = true).

Lemma key_le_window_le (h : heap) (r r' : loc) :
  key_le (fun r => sort_key (h r)) r r' <-> window_le (h r) (h r').
Proof.
  unfold key_le, key_lt, sort_key, window_le; simpl.
  unfold String.leb, String.ltb.
  rewrite (String.compare_antisym (start_time (h r)) (start_time (h r'))).
  destruct (Z.eqb_spec (priority (h r')) (priority (h r))) as [E|E].
  - destruct (String.compare (start_time (h r')) (start_time (h r)));
      simpl; split; try done; try (intros _; right; split; done).
    intros [?|[? ?]]; [lia|done].
  - rewrite Z.ltb_ge. split; [lia|]. intros [?|[? ?]]; lia.
Qed.

Lemma assign_contacts_run (fromisoformat : string -> option datetime)
    (h : heap) (ws : list loc) (gs : list GroundStation)
    (h' : heap) (out : list loc) (o : list line) :
  assign_contacts fromisoformat h ws gs = Ok (h', out, o) <->
  exists st', run fromisoformat h ws gs = Ok st' /\
              h' = st_heap st' /\ out = assignments st' /\ o = stdout st'.
Proof.
  unfold assign_contacts. destruct (run _ _ _ _) as [st|]; unfold_result.
  - split.
    + intros [= <- <- <-]. eauto.
    + intros (st' & [= <-] & -> & -> & ->). done.
  - split; [done|]. intros (st' & [=] & _).
Qed.

(** C5.  On a well-formed input [assign_contacts] returns; the returned
    list has the length of the input; every returned window has [assigned]
    set to [True] or [False]; and the returned list is the input sorted by
    priority, then start time, windows with equal keys keeping their input
    order (so it is a rearrangement of the input, not the input order). *)
Theorem assign_contacts_returns_sorted_input
    (fromisoformat : string -> option datetime)
    (h : heap) (contact_windows : list loc) (ground_stations : list GroundStation) :
  well_formed fromisoformat h contact_windows ground_stations = true ->
  exists h' out printed,
    assign_contacts fromisoformat h contact_windows ground_stations
      = Ok (h', out, printed) /\
    length out = length contact_windows /\
    (forall r, r ∈ out -> exists b, assigned (h' r) = Some b) /\
    out = sorted (fun r => sort_key (h r)) contact_windows /\
    StronglySorted (fun r r' => window_le (h' r) (h' r')) out /\
    out ≡ₚ contact_windows /\
    (forall k, filter (fun r => sort_key (h' r) = k) out
               = filter (fun r => sort_key (h' r) = k) contact_windows).
Proof.
  intros Hwf.
  destruct (run_total fromisoformat ground_stations h contact_windows Hwf)
    as (ds & st' & Htrace & Hrun).
  pose proof (run_trace_assignments _ _ _ _ _ _ Htrace) as Hout. simpl in Hout.
  pose proof (run_trace_same_fields _ _ _ _ _ _ Htrace) as Hsame. simpl in Hsame.
  assert (forall r, sort_key (st_heap st' r) = sort_key (h r)) as Hkey
    by (intros r; apply same_fields_sort_key, Hsame).
  exists (st_heap st'), (assignments st'), (stdout st').
  split; [apply assign_contacts_run; eauto|].
  rewrite Hout. split_and!.
  - apply sorted_length.
  - intros r Hr. apply (run_trace_assigned _ _ _ _ _ _ Htrace r Hr).
  - done.
  - eapply strongly_sorted_weaken;
      [|apply (sorted_sorted (fun r => sort_key (h r)))].
    intros r r' Hle. apply key_le_window_le.
    unfold key_le in *. now rewrite !Hkey.
  - apply sorted_perm.
  - intros k.
    rewrite !(list_filter_iff (fun r => sort_key (st_heap st' r) = k)
                (fun r => sort_key (h r) = k))
      by (intros r; now rewrite Hkey).
    apply sorted_stable.
Qed.

(** C3.  Rearranging a well-formed input changes neither the value
    [assigned] to any window nor the set of windows returned: both calls
    return, leave the same store, and return lists that are rearrangements
    of one another. *)
Theorem assign_contacts_permutation_invariant
    (fromisoformat : string -> option datetime)
    (h : heap) (contact_windows contact_windows' : list loc)
    (ground_stations : list GroundStation) :
  contact_windows ≡ₚ contact_windows' ->
  well_formed fromisoformat h contact_windows ground_stations = true ->
  exists h1 out1 printed1 h2 out2 printed2,
    assign_contacts fromisoformat h contact_windows ground_stations
      = Ok (h1, out1, printed1) /\
    assign_contacts fromisoformat h contact_windows' ground_stations
      = Ok (h2, out2, printed2) /\
    (forall r, h1 r = h2 r) /\
    (forall r, assigned (h1 r) = assigned (h2 r)) /\
    out1 ≡ₚ out2.
Proof.
  intros Hperm Hwf.
  destruct (run_total fromisoformat ground_stations h contact_windows Hwf)
    as (ds & st1 & _ & Hrun1).
  pose proof (for_each_tie_perm fromisoformat ground_stations
                (fun r => sort_key (h r)) _ _
                (sorted_tie_perm (fun r => sort_key (h r)) _ _ Hperm)
                (initial h ground_stations) (fun r => eq_refl)) as Hrel.
  fold (run fromisoformat h contact_windows ground_stations) in Hrel.
  fold (run fromisoformat h contact_windows' ground_stations) in Hrel.
  rewrite Hrun1 in Hrel.
  destruct (run fromisoformat h contact_windows' ground_stations)
    as [st2|] eqn:Hrun2; [|done].
  destruct Hrel as (Hheap & _ & Hout).
  exists (st_heap st1), (assignments st1), (stdout st1),
         (st_heap st2), (assignments st2), (stdout st2).
  split_and!; try done.
  - apply assign_contacts_run; eauto.
  - apply assign_contacts_run; eauto.
  - intros r. now rewrite Hheap.
Qed.

(** C9.  A call that returns has changed nothing but [assigned]: every
    other field of every window is as before, objects outside the input
    are untouched, and the store is the old one after one write of
    [assigned] per input window, made in sorted order. *)
Theorem assign_contacts_writes_assigned_only
    (fromisoformat : string -> option datetime)
    (h : heap) (contact_windows : list loc) (ground_stations : list GroundStation)
    (h' : heap) (out : list loc) (printed : list line) :
  assign_contacts fromisoformat h contact_windows ground_stations
    = Ok (h', out, printed) ->
  (forall r, same_fields (h' r) (h r)) /\
  (forall r, r ∉ contact_windows -> h' r = h r) /\
  exists writes : list (loc * bool),
    writes.*1 = sorted (fun r => sort_key (h r)) contact_windows /\
    h' = store_all h writes.
Proof.
  intros (st' & Hrun & -> & -> & ->)%assign_contacts_run.
  apply for_each_run_trace in Hrun as [ds Htrace].
  split_and!.
  - apply (run_trace_same_fields _ _ _ _ _ _ Htrace).
  - intros r Hr. apply (run_trace_untouched _ _ _ _ _ _ Htrace).
    now rewrite sorted_perm.
  - exists (zip (sorted (fun r => sort_key (h r)) contact_windows) ds.*2).
    split.
    + apply fst_zip. rewrite length_fmap.
      now rewrite (run_trace_length _ _ _ _ _ _ Htrace).
    + apply (run_trace_heap _ _ _ _ _ _ Htrace).
Qed.

(** C4.  The test applied to a candidate [s1, e1) and an existing window
    [s2, e2) is [not (e1 <= e2 or s1 >= s2)], which holds exactly when
    [e1 > e2] and [s1 < s2].  In a call that returns, the count printed for
    each window is the number of earlier windows in sorted order that were
    admitted at the same station and pass this test; nothing else is
    counted, and the window is admitted exactly when the count is below the
    station's capacity. *)
Theorem overlap_count_is_strict_containment
    (fromisoformat : string -> option datetime)
    (h : heap) (contact_windows : list loc) (ground_stations : list GroundStation)
    (h' : heap) (out : list loc) (printed : list line) :
  assign_contacts fromisoformat h contact_windows ground_stations
    = Ok (h', out, printed) ->
  (forall (h0 : heap) (s1 e1 s2 e2 : datetime) (existing : loc),
     fromisoformat (start_time (h0 existing)) = Some s2 ->
     fromisoformat (end_time (h0 existing)) = Some e2 ->
     overlapping fromisoformat h0 s1 e1 existing
       = Ok (negb (datetime_le e1 e2 || datetime_ge s1 s2)) /\
     (negb (datetime_le e1 e2 || datetime_ge s1 s2) = true <->
      datetime_gt e1 e2 = true /\ datetime_lt s1 s2 = true)) /\
  exists ds : list (Z * bool),
    length ds = length contact_windows /\
    printed = Called :: concat (zip_with (fun r d => lines_for (h r) d) out ds) /\
    h' = store_all h (zip out ds.*2) /\
    forall i contact d,
      out !! i = Some contact -> ds !! i = Some d ->
      d.1 = Z.of_nat (length (List.filter (counted fromisoformat h contact)
                                (take i (zip out ds)))) /\
      exists capacity,
        capacity_of ground_stations (ground_station_id (h contact)) = Ok capacity /\
        d.2 = (d.1 <? capacity).
Proof.
  intros (st' & Hrun & -> & -> & ->)%assign_contacts_run.
  split.
  - intros h0 s1 e1 s2 e2 x Hs He. split.
    + rewrite (overlapping_spec _ _ _ _ _ (s2, e2))
        by (unfold interval; now rewrite Hs, He).
      f_equal. unfold strictly_contains, datetime_le, datetime_ge,
        datetime_gt, datetime_lt; simpl.
      now destruct (datetime_compare e1 e2), (datetime_compare s1 s2).
    + unfold datetime_le, datetime_ge, datetime_gt, datetime_lt.
      destruct (datetime_compare e1 e2), (datetime_compare s1 s2);
        simpl; intuition congruence.
  - apply for_each_run_trace in Hrun as [ds Htrace].
    pose proof (run_trace_assignments _ _ _ _ _ _ Htrace) as Hout.
    simpl in Hout. rewrite Hout.
    exists ds. split_and!.
    + rewrite (run_trace_length _ _ _ _ _ _ Htrace). apply sorted_length.
    + apply (run_trace_stdout _ _ _ _ _ _ Htrace).
    + apply (run_trace_heap _ _ _ _ _ _ Htrace).
    + intros i contact d. apply (run_trace_counts _ _ _ _ _ _ _ _ _ Htrace).
Qed.

(** C10.  When all windows of a well-formed input have the same
    [start_time], the call returns, the overlap count printed for every
    window is 0, and each window gets [assigned = True] exactly when the
    capacity of its station is greater than 0. *)
Theorem same_start_time_admits_by_capacity
    (fromisoformat : string -> option datetime)
    (h : heap) (contact_windows : list loc) (ground_stations : list GroundStation) :
  well_formed fromisoformat h contact_windows ground_stations = true ->
  (forall r r', r ∈ contact_windows -> r' ∈ contact_windows ->
     start_time (h r) = start_time (h r')) ->
  exists h' out printed ds,
    assign_contacts fromisoformat h contact_windows ground_stations
      = Ok (h', out, printed) /\
    printed = Called :: concat (zip_with (fun r d => lines_for (h r) d) out ds) /\
    length ds = length contact_windows /\
    Forall (fun d => d.1 = 0) ds /\
    forall r, r ∈ contact_windows ->
      exists capacity,
        capacity_of ground_stations (ground_station_id (h r)) = Ok capacity /\
        assigned (h' r) = Some (0 <? capacity).
Proof.
  intros Hwf Hstart.
  destruct (run_total fromisoformat ground_stations h contact_windows Hwf)
    as (ds & st' & Htrace & Hrun).
  pose proof (run_trace_assignments _ _ _ _ _ _ Htrace) as Hout. simpl in Hout.
  set (key := fun r => sort_key (h r)) in *.
  assert (exists sigma, Forall (fun r => start_time (h r) = sigma)
                          (sorted key contact_windows)) as [sigma Hsigma].
  { destruct contact_windows as [|r0 l] eqn:E.
    - exists EmptyString. constructor.
    - exists (start_time (h r0)). rewrite <- E in *. apply Forall_forall.
      intros r Hr. rewrite sorted_perm in Hr. apply Hstart; [done|].
      rewrite E. left. }
  destruct (run_trace_same_start _ _ sigma _ _ _ _ Htrace) as [H0 Hheap].
  - exact Hsigma.
  - intros g l0. rewrite initial_lookup.
    destruct (existsb _ _); [|done]. intros [= <-]. constructor.
  - exists (st_heap st'), (assignments st'), (stdout st'), ds.
    split_and!.
    + apply assign_contacts_run; eauto.
    + rewrite Hout. apply (run_trace_stdout _ _ _ _ _ _ Htrace).
    + rewrite (run_trace_length _ _ _ _ _ _ Htrace). apply sorted_length.
    + exact H0.
    + intros r Hr. apply Hheap. now rewrite sorted_perm.
Qed.

(** *** The properties on concrete inputs *)

(** The three windows are returned in sorted order [2; 1; 0], not in the
    input order [0; 1; 2]; the window of priority 2 is rejected because it
    strictly contains the window admitted before it at the same station. *)
Example three_windows_run :
  assign_contacts fromisoformat_naive Scenarios.three_windows [0; 1; 2]%nat
    Scenarios.two_stations
  = Ok (Scenarios.three_windows_after, [2; 1; 0]%nat,
        Scenarios.three_windows_printed).
Proof. vm_compute. reflexivity. Qed.

Lemma returns_sorted_input_witness :
  exists h' out printed,
    assign_contacts fromisoformat_naive Scenarios.three_windows [0; 1; 2]%nat
      Scenarios.two_stations = Ok (h', out, printed) /\
    length out = length [0; 1; 2]%nat /\
    (forall r, r ∈ out -> exists b, assigned (h' r) = Some b) /\
    out = sorted (fun r => sort_key (Scenarios.three_windows r)) [0; 1; 2]%nat /\
    StronglySorted (fun r r' => window_le (h' r) (h' r')) out /\
    out ≡ₚ [0; 1; 2]%nat /\
    (forall k, filter (fun r => sort_key (h' r) = k) out
               = filter (fun r => sort_key (h' r) = k) [0; 1; 2]%nat).
Proof.
  apply (assign_contacts_returns_sorted_input fromisoformat_naive
           Scenarios.three_windows [0; 1; 2]%nat Scenarios.two_stations).
  vm_compute. reflexivity.
Defined.

Lemma permutation_invariant_witness :
  exists h1 out1 printed1 h2 out2 printed2,
    assign_contacts fromisoformat_naive Scenarios.three_windows [0; 1; 2]%nat
      Scenarios.two_stations = Ok (h1, out1, printed1) /\
    assign_contacts fromisoformat_naive Scenarios.three_windows [2; 0; 1]%nat
      Scenarios.two_stations = Ok (h2, out2, printed2) /\
    (forall r, h1 r = h2 r) /\
    (forall r, assigned (h1 r) = assigned (h2 r)) /\
    out1 ≡ₚ out2.
Proof.
  apply (assign_contacts_permutation_invariant fromisoformat_naive
           Scenarios.three_windows [0; 1; 2]%nat [2; 0; 1]%nat
           Scenarios.two_stations).
  - change [2; 0; 1]%nat with ([2]%nat ++ [0; 1]%nat).
    change [0; 1; 2]%nat with ([0; 1]%nat ++ [2]%nat).
    apply Permutation_app_comm.
  - vm_compute. reflexivity.
Defined.

Lemma writes_assigned_only_witness :
  assign_contacts fromisoformat_naive Scenarios.three_windows [0; 1; 2]%nat
    Scenarios.two_stations
  = Ok (Scenarios.three_windows_after, [2; 1; 0]%nat,
        Scenarios.three_windows_printed) /\
  ((forall r, same_fields (Scenarios.three_windows_after r)
                (Scenarios.three_windows r)) /\
   (forall r, r ∉ [0; 1; 2]%nat ->
      Scenarios.three_windows_after r = Scenarios.three_windows r) /\
   exists writes : list (loc * bool),
     writes.*1 = sorted (fun r => sort_key (Scenarios.three_windows r))
                   [0; 1; 2]%nat /\
     Scenarios.three_windows_after = store_all Scenarios.three_windows writes).
Proof.
  split; [vm_compute; reflexivity|].
  apply (assign_contacts_writes_assigned_only fromisoformat_naive
           Scenarios.three_windows [0; 1; 2]%nat Scenarios.two_stations
           Scenarios.three_windows_after [2; 1; 0]%nat
           Scenarios.three_windows_printed).
  vm_compute. reflexivity.
Defined.

Lemma overlap_count_witness :
  assign_contacts fromisoformat_naive Scenarios.three_windows [0; 1; 2]%nat
    Scenarios.two_stations
  = Ok (Scenarios.three_windows_after, [2; 1; 0]%nat,
        Scenarios.three_windows_printed) /\
  exists ds : list (Z * bool),
    length ds = length [0; 1; 2]%nat /\
    Scenarios.three_windows_printed
    = Called :: concat (zip_with (fun r d => lines_for (Scenarios.three_windows r) d)
                          [2; 1; 0]%nat ds) /\
    Scenarios.three_windows_after
    = store_all Scenarios.three_windows (zip [2; 1; 0]%nat ds.*2) /\
    forall i contact d,
      [2; 1; 0]%nat !! i = Some contact -> ds !! i = Some d ->
      d.1 = Z.of_nat (length (List.filter
                (counted fromisoformat_naive Scenarios.three_windows contact)
                (take i (zip [2; 1; 0]%nat ds)))) /\
      exists capacity,
        capacity_of Scenarios.two_stations
          (ground_station_id (Scenarios.three_windows contact)) = Ok capacity /\
        d.2 = (d.1 <? capacity).
Proof.
  split; [vm_compute; reflexivity|].
  apply (overlap_count_is_strict_containment fromisoformat_naive
           Scenarios.three_windows [0; 1; 2]%nat Scenarios.two_stations
           Scenarios.three_windows_after [2; 1; 0]%nat
           Scenarios.three_windows_printed).
  vm_compute. reflexivity.
Defined.

Lemma same_start_time_witness :
  exists h' out printed ds,
    assign_contacts fromisoformat_naive Scenarios.same_interval [0; 1]%nat
      Scenarios.one_station = Ok (h', out, printed) /\
    printed = Called :: concat (zip_with
                (fun r d => lines_for (Scenarios.same_interval r) d) out ds) /\
    length ds = length [0; 1]%nat /\
    Forall (fun d => d.1 = 0) ds /\
    forall r, r ∈ [0; 1]%nat ->
      exists capacity,
        capacity_of Scenarios.one_station
          (ground_station_id (Scenarios.same_interval r)) = Ok capacity /\
        assigned (h' r) = Some (0 <? capacity).
Proof.
  apply (same_start_time_admits_by_capacity fromisoformat_naive
           Scenarios.same_interval [0; 1]%nat Scenarios.one_station).
  - vm_compute. reflexivity.
  - intros r r' Hr Hr'.
    repeat (apply elem_of_cons in Hr as [->|Hr]);
      repeat (apply elem_of_cons in Hr' as [->|Hr']);
      try reflexivity; exfalso; eapply not_elem_of_nil; eassumption.
Defined.

(** *** Where the capacity limit is not enforced *)

(** C1.  Two windows over the same interval at a station of capacity 1,
    priorities 1 and 2: both get [assigned = True]; the overlap count of the
    second is 0. *)
Theorem same_interval_both_admitted :
  assign_contacts fromisoformat_naive Scenarios.same_interval [0; 1]%nat
    Scenarios.one_station
  = Ok (store_all Scenarios.same_interval [(0, true); (1, true)]%nat,
        [0; 1]%nat,
        [Called; Overlaps "GS-1" 0; Assigned "SAT-1" "GS-1";
                 Overlaps "GS-1" 0; Assigned "SAT-2" "GS-1"]) /\
  assigned (store_all Scenarios.same_interval [(0, true); (1, true)]%nat 0%nat)
    = Some true /\
  assigned (store_all Scenarios.same_interval [(0, true); (1, true)]%nat 1%nat)
    = Some true /\
  capacity_of Scenarios.one_station "GS-1" = Ok 1.
Proof. split_and!; vm_compute; reflexivity. Qed.

(** C2.  Two windows of one priority at a station of capacity 1, the
    second lying inside the first (so the first passes the documented test
    against the second, and the two intervals intersect): both get
    [assigned = True]. *)
Theorem nested_windows_exceed_capacity :
  assign_contacts fromisoformat_naive Scenarios.nested [0; 1]%nat
    Scenarios.one_station
  = Ok (store_all Scenarios.nested [(0, true); (1, true)]%nat,
        [0; 1]%nat,
        [Called; Overlaps "GS-1" 0; Assigned "SAT-1" "GS-1";
                 Overlaps "GS-1" 0; Assigned "SAT-2" "GS-1"]) /\
  (exists a b,
     interval fromisoformat_naive (Scenarios.nested 0%nat) = Some a /\
     interval fromisoformat_naive (Scenarios.nested 1%nat) = Some b /\
     strictly_contains a b = true /\
     datetime_lt a.1 b.2 = true /\ datetime_lt b.1 a.2 = true) /\
  ground_station_id (Scenarios.nested 0%nat)
    = ground_station_id (Scenarios.nested 1%nat) /\
  capacity_of Scenarios.one_station "GS-1" = Ok 1.
Proof.
  split_and!; try (vm_compute; reflexivity).
  eexists _, _. split_and!; vm_compute; reflexivity.
Qed.

End SchedulerTheorems.

(** ** [simulate_satellite_position]: errors and range *)
Module PositionTheorems.
Import Py Position LoopFacts PrimFloat.

(** *** [split] and [int_of_str] *)
Fixpoint has_char (c : ascii) (s : string) : bool :=
  match s with
  | EmptyString => false
  | String c' s' => Ascii.eqb c' c || has_char c s'
  end.

Lemma split_not_nil (sep : ascii) (s : string) : split sep s <> [].
Proof.
  destruct s as [|c s]; simpl; [done|].
  destruct (Ascii.eqb c sep); [done|]. now destruct (split sep s).
Qed.

Lemma split_without_separator (sep : ascii) (s : string) :
  has_char sep s = false -> split sep s = [s].
Proof.
  induction s as [|c s IH]; simpl; [done|].
  intros [Hc Hs]%orb_false_iff. now rewrite Hc, IH.
Qed.

Lemma split_fields (sep : ascii) (s : string) :
  Forall (fun field => has_char sep field = false) (split sep s).
Proof.
  induction s as [|c s IH]; simpl.
  - now repeat constructor.
  - destruct (Ascii.eqb c sep) eqn:E.
    + now constructor.
    + destruct (split sep s) as [|h t].
      * constructor; [|constructor]. simpl. now rewrite E.
      * apply Forall_cons in IH as [Hh Ht]. constructor; [|done].
        simpl. now rewrite E.
Qed.

Lemma split_prefixed (field : string) :
  has_char "-" field = false ->
  split "-" (String.append "SAT-" field) !! 1%nat = Some field.
Proof.
  intros H. simpl. change (String.append "" field) with field.
  now rewrite (split_without_separator _ _ H).
Qed.

Lemma int_of_str_raises (s : string) (e : error) :
  int_of_str s = Raise e -> e = ValueError.
Proof.
  unfold int_of_str, or_raise.
  destruct (strip _) as [|c l]; [congruence|].
  destruct (Ascii.eqb c "-"); [|destruct (Ascii.eqb c "+")];
    destruct (digits _ _ _); simpl; congruence.
Qed.

Lemma float_rem_360 (x : float) : exists r, float_rem x 360%float = Ok r.
Proof.
  unfold float_rem.
  replace (PrimFloat.eqb 360 PrimFloat.zero) with false by reflexivity.
  destruct (PrimFloat.eqb _ _); [eauto|].
  destruct (negb _); eauto.
Qed.

Section Errors.
Variable math_sin : float -> float.
Variable utcnow : datetime.

Local Abbreviation simulate := (simulate_satellite_position math_sin utcnow).

Lemma simulate_offset_raises (orbit_period : Z) (timestamp : option datetime)
    (sat_id : option string) (e : error) :
  offset_of sat_id = Raise e ->
  simulate orbit_period timestamp sat_id = Raise e.
Proof.
  intros H. unfold simulate_satellite_position. now rewrite H.
Qed.

Lemma simulate_returns (orbit_period : Z) (timestamp : option datetime)
    (sat_id : option string) (offset : Z) (quotient : float) :
  offset_of sat_id = Ok offset ->
  int_true_divide
    (360 * (minute (default utcnow timestamp)
            + hour (default utcnow timestamp) * 60 + offset))
    orbit_period = Ok quotient ->
  exists lat lon, simulate orbit_period timestamp sat_id = Ok (lat, lon).
Proof.
  intros Ho Hq. unfold simulate_satellite_position. rewrite Ho.
  unfold_result. rewrite Hq.
  destruct (float_rem_360 quotient) as [angle ->].
  destruct (float_rem_360 (PrimFloat.sub angle 180)) as [r ->].
  eauto.
Qed.

(** C7, as the code has it.  For a non-empty identifier the offset is
    the integer value of the second field between dashes: a missing field
    raises [IndexError], a field [int()] rejects raises [ValueError], and
    either exception leaves [simulate_satellite_position].  Only that
    field is read, so any identifier is treated as [SAT-<field>]; an
    absent or empty identifier gives offset 0. *)
Theorem identifier_offset_errors (orbit_period : Z)
    (timestamp : option datetime) (s : string) :
  s <> EmptyString ->
  offset_of (Some s)
  = match split "-" s !! 1%nat with
    | None => Raise IndexError
    | Some field =>
        match int_of_str field with
        | Ok offset => Ok offset
        | Raise _ => Raise ValueError
        end
    end /\
  (forall e, offset_of (Some s) = Raise e ->
     simulate orbit_period timestamp (Some s) = Raise e) /\
  (forall field, split "-" s !! 1%nat = Some field ->
     simulate orbit_period timestamp (Some s)
     = simulate orbit_period timestamp (Some (String.append "SAT-" field))) /\
  offset_of None = Ok 0 /\ offset_of (Some EmptyString) = Ok 0.
Proof.
  intros Hs. apply String.eqb_neq in Hs.
  assert (forall field, split "-" s !! 1%nat = Some field ->
            offset_of (Some s) = int_of_str field) as Hfield.
  { intros field Hf. unfold offset_of. rewrite Hs, Hf. done. }
  split_and!; try done.
  - unfold offset_of. rewrite Hs.
    destruct (split "-" s !! 1%nat) as [field|]; unfold_result; [|done].
    destruct (int_of_str field) eqn:E; [done|].
    now apply int_of_str_raises in E as ->.
  - intros e. apply simulate_offset_raises.
  - intros field Hf.
    assert (offset_of (Some (String.append "SAT-" field)) = int_of_str field)
      as H'.
    { unfold offset_of.
      replace (String.eqb (String.append "SAT-" field) "") with false
        by reflexivity.
      rewrite split_prefixed; [done|].
      pose proof (split_fields "-" s) as Hall.
      rewrite Forall_forall in Hall. apply Hall.
      now apply list_elem_of_lookup_2 in Hf. }
    unfold simulate_satellite_position. now rewrite (Hfield _ Hf), H'.
Qed.

(** C8, as the code has it.  With [orbit_period = 0] no position is
    returned: the division raises [ZeroDivisionError] (unless the
    identifier has already raised).  A negative [orbit_period] is not
    checked: when the identifier gives an offset and the quotient fits a
    float, a position is returned. *)
Theorem zero_period_raises_negative_period_returns
    (timestamp : option datetime) (sat_id : option string) :
  simulate 0 timestamp sat_id
    = (offset_of sat_id ≫= fun _ => Raise ZeroDivisionError) /\
  raises (simulate 0 timestamp sat_id) /\
  forall orbit_period offset quotient,
    orbit_period < 0 ->
    offset_of sat_id = Ok offset ->
    int_true_divide
      (360 * (minute (default utcnow timestamp)
              + hour (default utcnow timestamp) * 60 + offset))
      orbit_period = Ok quotient ->
    exists lat lon, simulate orbit_period timestamp sat_id = Ok (lat, lon).
Proof.
  assert (simulate 0 timestamp sat_id
          = (offset_of sat_id ≫= fun _ => Raise ZeroDivisionError)) as H0.
  { unfold simulate_satellite_position.
    destruct (offset_of sat_id); unfold_result; done. }
  split_and!.
  - exact H0.
  - rewrite H0. unfold raises. destruct (offset_of sat_id); unfold_result; eauto.
  - intros p offset q _. apply simulate_returns.
Qed.
End Errors.

(** The identifier [GS-7] does not match [SAT-<int>], yet a position is
    returned, whatever the sine routine and the clock. *)
Lemma station_identifier_yields_position :
  (fun math_sin utcnow =>
     simulate_satellite_position math_sin utcnow 90
       (Some Scenarios.midnight) (Some "GS-7"%string))
  = (fun math_sin _ =>
       Ok (PrimFloat.mul (math_sin (math_radians 28%float)) 60%float, 28%float)).
Proof. vm_compute. reflexivity. Qed.

Lemma identifier_offset_errors_witness :
  "SAT-x"%string <> EmptyString /\
  simulate_satellite_position (fun x => x) Scenarios.noon 90
    (Some Scenarios.midnight) (Some "SAT-x"%string) = Raise ValueError.
Proof.
  split; [discriminate|].
  apply (proj1 (proj2 (identifier_offset_errors (fun x => x) Scenarios.noon 90
                         (Some Scenarios.midnight) "SAT-x"%string
                         ltac:(discriminate)))).
  vm_compute. reflexivity.
Defined.

(** A negative orbit period is accepted: 90 minutes backwards gives the
    mirrored longitude. *)
Lemma negative_period_yields_position :
  (fun math_sin utcnow =>
     simulate_satellite_position math_sin utcnow (-90)
       (Some Scenarios.midnight) (Some "SAT-7"%string))
  = (fun math_sin _ =>
       Ok (PrimFloat.mul (math_sin (math_radians 332%float)) 60%float,
           (-28)%float)).
Proof. vm_compute. reflexivity. Qed.

Lemma negative_period_returns_witness :
  exists lat lon,
    simulate_satellite_position (fun x => x) Scenarios.noon (-90)
      (Some Scenarios.midnight) (Some "SAT-7"%string) = Ok (lat, lon).
Proof.
  apply (proj2 (proj2 (zero_period_raises_negative_period_returns
                         (fun x => x) Scenarios.noon
                         (Some Scenarios.midnight) (Some "SAT-7"%string)))
           (-90) 7 (-28)%float).
  - reflexivity.
  - vm_compute. reflexivity.
  - vm_compute. reflexivity.
Defined.

(** C6.  With [orbit_period = 6333186975989761] and the identifier
    [SAT-3166593487994880] at 00:00 the angle is the float just below 180;
    [angle - 180] is [-2^-45], its remainder modulo 360 rounds up to 360.0,
    and the longitude returned is 180.0, which is not below 180. *)
Theorem longitude_can_be_180 :
  (fun math_sin utcnow =>
     simulate_satellite_position math_sin utcnow 6333186975989761
       (Some Scenarios.midnight) (Some "SAT-3166593487994880"%string))
  = (fun math_sin _ =>
       Ok (PrimFloat.mul (math_sin 0x1.921fb54442d17p+1%float) 60%float,
           180%float)) /\
  int_true_divide (360 * 3166593487994880) 6333186975989761
    = Ok 0x1.67fffffffffffp+7%float /\
  float_rem (PrimFloat.sub 0x1.67fffffffffffp+7 180) 360%float
    = Ok 360%float /\
  PrimFloat.ltb 180 180 = false.
Proof. split_and!; vm_compute; reflexivity. Qed.

End PositionTheorems.

(** * Further properties of the scheduler *)

(** A station that is closed (capacity 0). *)
Module MoreScenarios.
Import Py Scheduler.

Definition closed_station : list GroundStation :=
  [mkGroundStation "GS-1" "Location-1" 0 10 20].

Definition both_rejected : heap :=
  store_all Scenarios.same_interval [(0, false); (1, false)]%nat.

End MoreScenarios.

Module SchedulerMore.
Import Py Scheduler SortFacts LoopFacts SchedulerTheorems.

Section More.
Variable fromisoformat : string -> option datetime.
Variable ground_stations : list GroundStation.

Local Abbreviation decision := (decision fromisoformat ground_stations).
Local Abbreviation step := (step fromisoformat ground_stations).
Local Abbreviation run_trace := (run_trace fromisoformat ground_stations).
Local Abbreviation in_catalog g :=
  (existsb (fun gs => String.eqb (gs_id gs) g) ground_stations).





Lemma capacity_of_raises (g : string) (e : error) :
  capacity_of ground_stations g = Raise e -> in_catalog g = false.
Proof.
  unfold capacity_of. induction ground_stations as [|gs l IH]; simpl; [done|].
  destruct (String.eqb (gs_id gs) g); simpl; [done|]. exact IH.
Qed.


End More.


Section Again.
Variable fromisoformat : string -> option datetime.
Variable ground_stations : list GroundStation.

Local Abbreviation decision := (decision fromisoformat ground_stations).
Local Abbreviation run_trace := (run_trace fromisoformat ground_stations).

Lemma count_overlaps_nonneg (h : heap) (start end_ : datetime) (l : list loc)
    (n : Z) :
  count_overlaps fromisoformat h start end_ l = Ok n -> 0 <= n.
Proof.
  revert n. induction l as [|x l IH]; intros n; simpl.
  - intros [= <-]. lia.
  - destruct (overlapping _ _ _ _ _) as [b|]; unfold_result; [|done].
    destruct (count_overlaps _ _ _ _ l) as [m|]; unfold_result; [|done].
    intros [= <-]. specialize (IH m eq_refl). destruct b; simpl; lia.
Qed.

Lemma run_trace_rejects (st st' : state) (l : list loc) (ds : list (Z * bool)) :
  run_trace st l ds st' ->
  forall r capacity, r ∈ l ->
    capacity_of ground_stations (ground_station_id (st_heap st r)) = Ok capacity ->
    capacity <= 0 ->
    assigned (st_heap st' r) = Some false.
Proof.
  induction 1 as [|st x d l ds st' Hd Hrun IH]; intros r c Hr Hc Hle.
  - now apply elem_of_nil in Hr.
  - destruct (decide (r ∈ l)) as [Hin|Hnotin].
    + apply (IH r c Hin); [|done].
      now destruct (commit_same_fields st x d r) as (_ & -> & _).
    + apply elem_of_cons in Hr as [E|]; [subst r|done].
      rewrite (run_trace_untouched _ _ _ _ _ _ Hrun x Hnotin). simpl.
      unfold store_assigned. rewrite Nat.eqb_refl. simpl.
      apply decision_inv in Hd as (s & e & l0 & c' & _ & _ & _ & Hn & Hc' & ->).
      apply count_overlaps_nonneg in Hn.
      rewrite Hc in Hc'. injection Hc' as <-.
      f_equal. apply Z.ltb_ge. lia.
Qed.

(** Writing the same sequence of decisions twice is writing it once. *)
Lemma store_all_app (h : heap) (w1 w2 : list (loc * bool)) :
  store_all h (w1 ++ w2) = store_all (store_all h w1) w2.
Proof. unfold store_all. apply foldl_app. Qed.

Lemma store_all_same_fields (h : heap) (writes : list (loc * bool)) (r : loc) :
  same_fields (store_all h writes r) (h r).
Proof.
  revert h. induction writes as [|[x b] writes IH]; intros h; simpl.
  - apply same_fields_refl.
  - eapply same_fields_trans; [apply IH|apply same_fields_store].
Qed.

Lemma store_all_assigned (h h' : heap) (writes : list (loc * bool)) (r : loc) :
  r ∈ writes.*1 ->
  assigned (store_all h writes r) = assigned (store_all h' writes r).
Proof.
  revert h h'. induction writes as [|[x b] writes IH]; intros h h' Hr; simpl in *.
  - now apply elem_of_nil in Hr.
  - destruct (decide (r ∈ writes.*1)) as [Hin|Hnotin]; [now apply IH|].
    apply elem_of_cons in Hr as [E|]; [subst x|done].
    assert (forall h0 : heap, r ∉ writes.*1 -> store_all h0 writes r = h0 r) as Hun.
    { clear. induction writes as [|[y c] writes IH]; intros h0 Hn; simpl; [done|].
      simpl in Hn. apply not_elem_of_cons in Hn as [Hy Hn].
      rewrite IH by done. unfold store_assigned.
      now destruct (Nat.eqb_spec r y). }
    rewrite !Hun by done. unfold store_assigned. now rewrite Nat.eqb_refl.
Qed.

Lemma same_fields_sym (w w' : ContactWindow) :
  same_fields w w' -> same_fields w' w.
Proof. unfold same_fields. intuition congruence. Qed.

Lemma window_eq (w w' : ContactWindow) :
  same_fields w w' -> assigned w = assigned w' -> w = w'.
Proof.
  destruct w, w'. unfold same_fields. simpl.
  intros (-> & -> & -> & -> & -> & -> & -> & ->) ->. done.
Qed.

Lemma store_all_twice (h : heap) (writes : list (loc * bool)) (r : loc) :
  store_all (store_all h writes) writes r = store_all h writes r.
Proof.
  destruct (decide (r ∈ writes.*1)) as [Hin|Hnotin].
  - apply window_eq.
    + apply store_all_same_fields.
    + now apply store_all_assigned.
  - generalize (store_all h writes). intros h0.
    revert h0. induction writes as [|[y c] writes IH]; intros h0; simpl; [done|].
    simpl in Hnotin. apply not_elem_of_cons in Hnotin as [Hy Hn].
    rewrite IH by done. unfold store_assigned.
    now destruct (Nat.eqb_spec r y).
Qed.

Lemma decision_schedules_ext (h : heap) (s1 s2 : gmap string (list loc))
    (contact : loc) :
  s1 !! ground_station_id (h contact) = s2 !! ground_station_id (h contact) ->
  decision h s1 contact = decision h s2 contact.
Proof. intros H. unfold Scheduler.decision. now rewrite H. Qed.

(** A run from a state with the same station lists and the same fields
    other than [assigned] takes the same decisions. *)
Lemma run_trace_static (st st' : state) (l : list loc) (ds : list (Z * bool)) :
  run_trace st l ds st' ->
  forall st2,
    (forall r, same_fields (st_heap st2 r) (st_heap st r)) ->
    gs_schedules st2 = gs_schedules st ->
    exists st2', run_trace st2 l ds st2'.
Proof.
  induction 1 as [|st x d l ds st' Hd _ IH]; intros st2 Hsame Hsched.
  - exists st2. constructor.
  - destruct (IH (commit st2 x d)) as [st2' Hrun].
    + intros r. eapply same_fields_trans; [apply commit_same_fields|].
      eapply same_fields_trans; [apply Hsame|].
      apply same_fields_sym, commit_same_fields.
    + unfold commit; simpl. rewrite Hsched.
      now destruct (Hsame x) as (_ & -> & _).
    + exists st2'. constructor; [|done].
      rewrite (decision_static _ _ _ (st_heap st)), Hsched; done.
Qed.
End Again.

Lemma insert_sorted_ext {A} (key key' : A -> Z * string) (x : A) (l : list A) :
  (forall y, key y = key' y) -> insert_sorted key x l = insert_sorted key' x l.
Proof.
  intros H. induction l as [|y l IH]; simpl; [done|]. now rewrite !H, IH.
Qed.

Lemma sorted_ext {A} (key key' : A -> Z * string) (l : list A) :
  (forall y, key y = key' y) -> sorted key l = sorted key' l.
Proof.
  intros H. induction l as [|x l IH]; simpl; [done|].
  now rewrite IH, (insert_sorted_ext key key').
Qed.

(** X3. Scheduling the same windows again, after a call that returned,
    returns the same list, prints the same lines and leaves every window
    as the first call left it. *)
Theorem assign_contacts_idempotent
    (fromisoformat : string -> option datetime)
    (h : heap) (contact_windows : list loc) (ground_stations : list GroundStation)
    (h' : heap) (out : list loc) (printed : list line) :
  assign_contacts fromisoformat h contact_windows ground_stations
    = Ok (h', out, printed) ->
  exists h'',
    assign_contacts fromisoformat h' contact_windows ground_stations
      = Ok (h'', out, printed) /\
    forall r, h'' r = h' r.
Proof.
  intros (st' & Hrun & -> & -> & ->)%assign_contacts_run.
  apply for_each_run_trace in Hrun as [ds Htrace].
  pose proof (run_trace_same_fields _ _ _ _ _ _ Htrace) as Hsame. simpl in Hsame.
  pose proof (run_trace_heap _ _ _ _ _ _ Htrace) as Hheap. simpl in Hheap.
  destruct (run_trace_static _ _ _ _ _ _ Htrace
              (initial (st_heap st') ground_stations)) as [st2 Htrace2];
    [exact Hsame|done|].
  assert (sorted (fun r => sort_key (st_heap st' r)) contact_windows
          = sorted (fun r => sort_key (h r)) contact_windows) as Hsorted
    by (apply sorted_ext; intros r; apply same_fields_sort_key, Hsame).
  exists (st_heap st2). split.
  - apply assign_contacts_run. exists st2. split_and!; try done.
    + unfold run. rewrite Hsorted. apply for_each_run_trace. eauto.
    + rewrite (run_trace_assignments _ _ _ _ _ _ Htrace),
              (run_trace_assignments _ _ _ _ _ _ Htrace2). done.
    + rewrite (run_trace_stdout _ _ _ _ _ _ Htrace),
              (run_trace_stdout _ _ _ _ _ _ Htrace2). simpl. do 2 f_equal.
      apply zip_with_ext; [|done..]. intros r d. unfold lines_for.
      now destruct (Hsame r) as (-> & -> & _).
  - intros r. rewrite (run_trace_heap _ _ _ _ _ _ Htrace2). simpl.
    rewrite Hheap. apply store_all_twice.
Qed.

(** X2. After a call that returns, every input window whose station has
    capacity 0 (or less) has [assigned = False]. *)
Theorem zero_capacity_rejects_every_window
    (fromisoformat : string -> option datetime)
    (h : heap) (contact_windows : list loc) (ground_stations : list GroundStation)
    (h' : heap) (out : list loc) (printed : list line) (r : loc) (capacity : Z) :
  assign_contacts fromisoformat h contact_windows ground_stations
    = Ok (h', out, printed) ->
  r ∈ contact_windows ->
  capacity_of ground_stations (ground_station_id (h r)) = Ok capacity ->
  capacity <= 0 ->
  assigned (h' r) = Some false.
Proof.
  intros (st' & Hrun & -> & -> & ->)%assign_contacts_run Hr Hc Hle.
  apply for_each_run_trace in Hrun as [ds Htrace].
  apply (run_trace_rejects _ _ _ _ _ _ Htrace r capacity); try done.
  now rewrite sorted_perm.
Qed.

(** *** Sorting a selection of the input *)
Section SortFilter.
Context {A : Type} (key : A -> Z * string).
Context (P : A -> Prop) `{!forall x, Decision (P x)}.

Lemma insert_sorted_first (x : A) (l : list A) :
  Forall (key_le key x) l -> insert_sorted key x l = x :: l.
Proof. intros [|y l' Hy _]; simpl; [done|]. now rewrite Hy. Qed.

Lemma filter_insert_sorted (x : A) (l : list A) :
  StronglySorted (key_le key) l ->
  filter P (insert_sorted key x l)
  = if decide (P x) then insert_sorted key x (filter P l) else filter P l.
Proof.
  induction 1 as [|y l Hs IH Hy]; simpl.
  - rewrite filter_cons, filter_nil. now destruct (decide (P x)).
  - destruct (key_lt (key y) (key x)) eqn:E.
    + rewrite !filter_cons, IH.
      destruct (decide (P y)), (decide (P x)); simpl; try done.
      now rewrite E.
    + rewrite !(filter_cons _ x). destruct (decide (P x)); [|done].
      symmetry. apply insert_sorted_first.
      apply Forall_forall. intros z Hz.
      apply list_elem_of_filter in Hz as [_ Hz].
      apply elem_of_cons in Hz as [->|Hz]; [exact E|].
      eapply key_le_trans; [exact E|].
      rewrite Forall_forall in Hy. now apply Hy.
Qed.

Lemma filter_sorted (l : list A) :
  filter P (sorted key l) = sorted key (filter P l).
Proof.
  induction l as [|x l IH]; simpl; [done|].
  rewrite filter_insert_sorted by apply sorted_sorted.
  rewrite filter_cons, IH. now destruct (decide (P x)).
Qed.

Lemma filter_none (l : list A) : Forall (fun z => ~ P z) l -> filter P l = [].
Proof.
  induction 1 as [|z l Hz _ IH]; [done|]. now rewrite filter_cons_False.
Qed.

Lemma filter_all (l : list A) : Forall P l -> filter P l = l.
Proof.
  induction 1 as [|z l Hz _ IH]; [done|]. rewrite filter_cons_True by done.
  now f_equal.
Qed.
End SortFilter.

Section SortSplit.
Context {A : Type} (key : A -> Z * string).
Context (P : A -> Prop) `{!forall x, Decision (P x)}.

(** A sorted list is its part below a cut followed by its part above. *)
Lemma sorted_split (l : list A) :
  (forall x y, key_le key x y -> P y -> P x) ->
  StronglySorted (key_le key) l ->
  l = filter P l ++ filter (fun x => ~ P x) l.
Proof.
  intros Hdown. induction 1 as [|x l Hs IH Hx]; [done|].
  rewrite !filter_cons. destruct (decide (P x)) as [Hp|Hp].
  - rewrite decide_False by tauto. simpl. now f_equal.
  - rewrite decide_True by done.
    assert (Forall (fun z => ~ P z) l) as Hnone.
    { eapply Forall_impl; [exact Hx|]. intros z Hz Hpz. eauto. }
    rewrite (filter_none P l Hnone). simpl. f_equal.
    symmetry. now apply (filter_all (fun z => ~ P z)).
Qed.
End SortSplit.

Section Selections.
Variable fromisoformat : string -> option datetime.
Variable ground_stations : list GroundStation.

Local Abbreviation decision := (decision fromisoformat ground_stations).
Local Abbreviation run_trace := (run_trace fromisoformat ground_stations).

Lemma run_trace_app (st st' : state) (l1 l2 : list loc) (ds : list (Z * bool)) :
  run_trace st (l1 ++ l2) ds st' ->
  exists ds1 ds2 st1,
    ds = ds1 ++ ds2 /\ run_trace st l1 ds1 st1 /\ run_trace st1 l2 ds2 st'.
Proof.
  revert st ds. induction l1 as [|x l1 IH]; intros st ds H; simpl in *.
  - exists [], ds, st. split_and!; [done|constructor|done].
  - inversion H as [|? ? d ? ds0 ? Hd Hr]; subst.
    apply IH in Hr as (ds1 & ds2 & st1 & -> & H1 & H2).
    exists (d :: ds1), ds2, st1. split_and!; [done| |done]. now constructor.
Qed.

(** The windows of one station are decided without regard to the others:
    a run over all windows and a run over those of station [g] agree on
    the list of [g] and on the windows of [g]. *)
Definition agree_at (h0 : heap) (g : string) (st st2 : state) : Prop :=
  (forall r, same_fields (st_heap st2 r) (st_heap st r)) /\
  (forall r, ground_station_id (h0 r) = g ->
     assigned (st_heap st2 r) = assigned (st_heap st r)) /\
  gs_schedules st2 !! g = gs_schedules st !! g.

Lemma run_trace_station (h0 : heap) (g : string) (st st' : state)
    (l : list loc) (ds : list (Z * bool)) :
  run_trace st l ds st' ->
  (forall r, same_fields (st_heap st r) (h0 r)) ->
  forall st2, agree_at h0 g st st2 ->
  exists ds2 st2',
    run_trace st2 (filter (fun r => ground_station_id (h0 r) = g) l) ds2 st2' /\
    agree_at h0 g st' st2'.
Proof.
  induction 1 as [|st x d l ds st' Hd _ IH]; intros Hh0 st2 (Hsame & Hasg & Hsched).
  - exists [], st2. split; [constructor|done].
  - assert (forall r, same_fields (st_heap (commit st x d) r) (h0 r)) as Hh0'.
    { intros r. eapply same_fields_trans; [apply commit_same_fields|apply Hh0]. }
    assert (ground_station_id (st_heap st x) = ground_station_id (h0 x)) as Hgx
      by (now destruct (Hh0 x) as (_ & -> & _)).
    assert (ground_station_id (st_heap st2 x) = ground_station_id (h0 x)) as Hgx2
      by (now destruct (Hsame x) as (_ & -> & _)).
    rewrite filter_cons. destruct (decide (ground_station_id (h0 x) = g)) as [Hg|Hg].
    + destruct (IH Hh0' (commit st2 x d)) as (ds2 & st2' & Hrun & Hagree).
      { split_and!.
        - intros r. eapply same_fields_trans; [apply commit_same_fields|].
          eapply same_fields_trans; [apply Hsame|].
          apply same_fields_sym, commit_same_fields.
        - intros r Hr. simpl. unfold store_assigned.
          destruct (r =? x)%nat; simpl; [done|now apply Hasg].
        - rewrite !commit_lookup, Hgx, Hgx2, Hsched. done. }
      exists (d :: ds2), st2'. split; [|done]. constructor; [|done].
      rewrite (decision_static _ _ _ (st_heap st)) by done.
      rewrite <- Hd. apply decision_schedules_ext. now rewrite Hgx, Hg.
    + destruct (IH Hh0' st2) as (ds2 & st2' & Hrun & Hagree); [|eauto].
      split_and!.
      * intros r. eapply same_fields_trans; [apply Hsame|].
        apply same_fields_sym, commit_same_fields.
      * intros r Hr. simpl. unfold store_assigned.
        destruct (Nat.eqb_spec r x) as [->|]; [congruence|now apply Hasg].
      * rewrite commit_lookup, Hgx, Hsched.
        rewrite bool_decide_eq_false_2 by congruence.
        now rewrite andb_false_r.
Qed.
End Selections.

(** X4. The windows of one station are scheduled as if they were alone:
    when a call returns, the call on just the windows of station [g] also
    returns, its list is the first list restricted to [g], and it leaves
    every window of [g] exactly as the first call did. *)
Theorem stations_are_scheduled_independently
    (fromisoformat : string -> option datetime)
    (h : heap) (contact_windows : list loc) (ground_stations : list GroundStation)
    (g : string) (h1 : heap) (out1 : list loc) (printed1 : list line) :
  assign_contacts fromisoformat h contact_windows ground_stations
    = Ok (h1, out1, printed1) ->
  exists h2 out2 printed2,
    assign_contacts fromisoformat h
      (filter (fun r => ground_station_id (h r) = g) contact_windows)
      ground_stations = Ok (h2, out2, printed2) /\
    out2 = filter (fun r => ground_station_id (h r) = g) out1 /\
    forall r, ground_station_id (h r) = g -> h2 r = h1 r.
Proof.
  intros (st' & Hrun & -> & -> & ->)%assign_contacts_run.
  apply for_each_run_trace in Hrun as [ds Htrace].
  destruct (run_trace_station _ _ h g _ _ _ _ Htrace
              (fun r => same_fields_refl _) (initial h ground_stations))
    as (ds2 & st2 & Htrace2 & (Hsame & Hasg & _)).
  { split_and!; done. }
  rewrite filter_sorted in Htrace2.
  exists (st_heap st2), (assignments st2), (stdout st2). split_and!.
  - apply assign_contacts_run. exists st2. split_and!; try done.
    unfold run. apply for_each_run_trace. eauto.
  - rewrite (run_trace_assignments _ _ _ _ _ _ Htrace),
            (run_trace_assignments _ _ _ _ _ _ Htrace2). simpl.
    now rewrite filter_sorted.
  - intros r Hr. apply window_eq; [apply Hsame|now apply Hasg].
Qed.

(** X5. Windows of lower priority (a greater number) have no effect on the
    others: when a call returns, the call on just the windows of priority
    at most [p] also returns, its list is the first list restricted to
    them, and it leaves every such window exactly as the first call did. *)
Theorem lower_priority_windows_have_no_effect
    (fromisoformat : string -> option datetime)
    (h : heap) (contact_windows : list loc) (ground_stations : list GroundStation)
    (p : Z) (h1 : heap) (out1 : list loc) (printed1 : list line) :
  assign_contacts fromisoformat h contact_windows ground_stations
    = Ok (h1, out1, printed1) ->
  exists h2 out2 printed2,
    assign_contacts fromisoformat h
      (filter (fun r => priority (h r) <= p) contact_windows)
      ground_stations = Ok (h2, out2, printed2) /\
    out2 = filter (fun r => priority (h r) <= p) out1 /\
    forall r, priority (h r) <= p -> h2 r = h1 r.
Proof.
  intros (st' & Hrun & -> & -> & ->)%assign_contacts_run.
  apply for_each_run_trace in Hrun as [ds Htrace].
  set (key := fun r => sort_key (h r)) in *.
  set (P := fun r => priority (h r) <= p).
  pose proof (run_trace_assignments _ _ _ _ _ _ Htrace) as Hout. simpl in Hout.
  rewrite (sorted_split key P (sorted key contact_windows)) in Htrace.
  2:{ intros x y Hle%key_le_window_le Hy. unfold P in *.
      destruct Hle as [?|[? _]]; lia. }
  2:{ apply sorted_sorted. }
  apply run_trace_app in Htrace as (ds1 & ds2 & st1 & -> & Htrace1 & Htrace2).
  rewrite filter_sorted in Htrace1.
  exists (st_heap st1), (assignments st1), (stdout st1). split_and!.
  - apply assign_contacts_run. exists st1. split_and!; try done.
    unfold run. apply for_each_run_trace. eauto.
  - rewrite Hout, (run_trace_assignments _ _ _ _ _ _ Htrace1). simpl.
    now rewrite filter_sorted.
  - intros r Hr. symmetry.
    apply (run_trace_untouched _ _ _ _ _ _ Htrace2).
    intros [Hn _]%list_elem_of_filter. now apply Hn.
Qed.

(** *** The properties on concrete inputs *)
Lemma zero_capacity_witness :
  assign_contacts fromisoformat_naive Scenarios.same_interval [0; 1]%nat
    MoreScenarios.closed_station
  = Ok (MoreScenarios.both_rejected, [0; 1]%nat,
        [Called; Overlaps "GS-1" 0; CouldNotAssign "SAT-1" "GS-1";
                 Overlaps "GS-1" 0; CouldNotAssign "SAT-2" "GS-1"]) /\
  assigned (MoreScenarios.both_rejected 1%nat) = Some false.
Proof.
  split; [vm_compute; reflexivity|].
  apply (zero_capacity_rejects_every_window fromisoformat_naive
           Scenarios.same_interval [0; 1]%nat MoreScenarios.closed_station
           MoreScenarios.both_rejected [0; 1]%nat
           [Called; Overlaps "GS-1" 0; CouldNotAssign "SAT-1" "GS-1";
                    Overlaps "GS-1" 0; CouldNotAssign "SAT-2" "GS-1"]
           1%nat 0).
  - vm_compute. reflexivity.
  - right. left.
  - vm_compute. reflexivity.
  - lia.
Defined.

Lemma idempotent_witness :
  exists h'',
    assign_contacts fromisoformat_naive Scenarios.three_windows_after
      [0; 1; 2]%nat Scenarios.two_stations
    = Ok (h'', [2; 1; 0]%nat, Scenarios.three_windows_printed) /\
    forall r, h'' r = Scenarios.three_windows_after r.
Proof.
  apply (assign_contacts_idempotent fromisoformat_naive Scenarios.three_windows
           [0; 1; 2]%nat Scenarios.two_stations).
  vm_compute. reflexivity.
Defined.

Lemma independent_stations_witness :
  exists h2 out2 printed2,
    assign_contacts fromisoformat_naive Scenarios.three_windows
      (filter (fun r => ground_station_id (Scenarios.three_windows r)
                        = "GS-1"%string) [0; 1; 2]%nat)
      Scenarios.two_stations = Ok (h2, out2, printed2) /\
    out2 = filter (fun r => ground_station_id (Scenarios.three_windows r)
                            = "GS-1"%string) [2; 1; 0]%nat /\
    forall r, ground_station_id (Scenarios.three_windows r) = "GS-1"%string ->
              h2 r = Scenarios.three_windows_after r.
Proof.
  apply (stations_are_scheduled_independently fromisoformat_naive
           Scenarios.three_windows [0; 1; 2]%nat Scenarios.two_stations
           "GS-1" Scenarios.three_windows_after [2; 1; 0]%nat
           Scenarios.three_windows_printed).
  vm_compute. reflexivity.
Defined.

Lemma lower_priority_witness :
  exists h2 out2 printed2,
    assign_contacts fromisoformat_naive Scenarios.three_windows
      (filter (fun r => priority (Scenarios.three_windows r) <= 1) [0; 1; 2]%nat)
      Scenarios.two_stations = Ok (h2, out2, printed2) /\
    out2 = filter (fun r => priority (Scenarios.three_windows r) <= 1)
             [2; 1; 0]%nat /\
    forall r, priority (Scenarios.three_windows r) <= 1 ->
              h2 r = Scenarios.three_windows_after r.
Proof.
  apply (lower_priority_windows_have_no_effect fromisoformat_naive
           Scenarios.three_windows [0; 1; 2]%nat Scenarios.two_stations
           1 Scenarios.three_windows_after [2; 1; 0]%nat
           Scenarios.three_windows_printed).
  vm_compute. reflexivity.
Defined.

End SchedulerMore.

(** * The generator and the catalogs *)

(** ** More Python primitives: formatting, dates, random numbers *)
Module PyLib.
Import Py.

(** *** [str(n)] for an int, as used by [f"SAT-{i}"] *)
Definition digit_char (d : Z) : ascii := ascii_of_N (Z.to_N (48 + d)).

(** The digits of [n >= 0] put in front of [acc]; [fuel] bounds their number. *)
Fixpoint decimal (fuel : nat) (n : Z) (acc : list ascii) : list ascii :=
  match fuel with
  | O => acc
  | S fuel' =>
      let acc' := digit_char (n mod 10) :: acc in
      if n <? 10 then acc' else decimal fuel' (n / 10) acc'
  end.

Definition str_of_int (n : Z) : string :=
  let digits := decimal (S (Z.to_nat (Z.log2 (Z.abs n)))) (Z.abs n) [] in
  string_of_list_ascii (if n <? 0 then "-"%char :: digits else digits).

(** *** [datetime.isoformat()] of a naive datetime *)

(** [n] written with [width] digits. *)
Fixpoint pad (width : nat) (n : Z) : list ascii :=
  match width with
  | O => []
  | S w => pad w (n / 10) ++ [digit_char (n mod 10)]
  end.

Definition isoformat (d : datetime) : string :=
  string_of_list_ascii
    (pad 4 (year d) ++ "-"%char :: pad 2 (month d) ++ "-"%char :: pad 2 (day d)
     ++ "T"%char :: pad 2 (hour d) ++ ":"%char :: pad 2 (minute d)
     ++ ":"%char :: pad 2 (second d)
     ++ (if microsecond d =? 0 then []
         else "."%char :: pad 6 (microsecond d))).

(** *** [d + timedelta(minutes=k)] for [k >= 0] *)
Definition next_day (ymd : Z * Z * Z) : Z * Z * Z :=
  let '(y, m, d) := ymd in
  if d <? Scheduler.days_in_month y m then (y, m, d + 1)
  else if m <? 12 then (y, m + 1, 1)
  else (y + 1, 1, 1).

Definition add_minutes (d : datetime) (k : Z) : result datetime :=
  let total := hour d * 60 + minute d + k in
  let '(y, m, dd) :=
    Nat.iter (Z.to_nat (total / 1440)) next_day (year d, month d, day d) in
  if y <=? 9999 then
    Ok (mkDatetime y m dd (total mod 1440 / 60) (total mod 60)
          (second d) (microsecond d))
  else Raise OverflowError.

(** A date and time [datetime] can hold. *)
Definition valid_datetime (d : datetime) : bool :=
  (1 <=? year d) && (year d <=? 9999) && (1 <=? month d) && (month d <=? 12)
  && (1 <=? day d) && (day d <=? Scheduler.days_in_month (year d) (month d))
  && (0 <=? hour d) && (hour d <? 24) && (0 <=? minute d) && (minute d <? 60)
  && (0 <=? second d) && (second d <? 60)
  && (0 <=? microsecond d) && (microsecond d <? 1000000).

(** *** Floats *)

(** [float(n)] for an int: the nearest float, or [OverflowError]. *)
Definition float_of_int (n : Z) : result float :=
  match round64 n 0 false with
  | SpecFloat.S754_infinity _ => Raise OverflowError
  | r => Ok (of_spec r)
  end.

(** [math.sqrt]: a domain error below zero. *)
Definition math_sqrt (x : float) : result float :=
  if PrimFloat.ltb x PrimFloat.zero then Raise ValueError
  else Ok (PrimFloat.sqrt x).

(** The wrapper CPython puts around a libm routine [f] of one argument that
    cannot overflow ([math.sin], [math.cos], [math.asin]): a NaN out of a
    number, or an infinity out of a finite number, is a domain error. *)
Definition math_1 (f : float -> float) (x : float) : result float :=
  let r := f x in
  if PrimFloat.is_nan r && negb (PrimFloat.is_nan x) then Raise ValueError
  else if PrimFloat.is_infinity r && PrimFloat.is_finite x then Raise ValueError
  else Ok r.

(** *** The [random] module

    The generator's hidden state is an unknown sequence of numbers; each
    request consumes the next one.  The lines printed so far are kept in
    the same state. *)
Record world (L : Type) : Type := mkWorld {
  oracle : nat -> Z;
  cursor : nat;
  printed : list L
}.
Arguments mkWorld {L}.
Arguments oracle {L}.
Arguments cursor {L}.
Arguments printed {L}.

(** A computation that draws random numbers, prints, and may raise. *)
Definition io (L A : Type) : Type := world L -> result (A * world L).

#[global] Instance io_ret {L} : MRet (io L) := fun A a w => Ok (a, w).
#[global] Instance io_bind {L} : MBind (io L) := fun A B f x w =>
  match x w with
  | Ok (a, w') => f a w'
  | Raise e => Raise e
  end.

Definition raise {L A} (e : error) : io L A := fun _ => Raise e.
Definition lift {L A} (x : result A) : io L A := fun w =>
  match x with Ok a => Ok (a, w) | Raise e => Raise e end.
Definition print {L} (l : L) : io L unit := fun w =>
  Ok (tt, mkWorld (oracle w) (cursor w) (printed w ++ [l])).

(** One number drawn. *)
Definition tick {L} (w : world L) : world L :=
  mkWorld (oracle w) (S (cursor w)) (printed w).

(** A number in [0, n). *)
Definition randbelow {L} (n : Z) : io L Z := fun w =>
  Ok (oracle w (cursor w) mod n, tick w).

(** [random.randint(a, b)] *)
Definition randint {L} (a b : Z) : io L Z :=
  if b <? a then raise ValueError
  else k ← randbelow (b - a + 1); mret (a + k).

(** [random.choice(seq)] *)
Definition choice {L A} (seq : list A) : io L A :=
  match seq with
  | [] => raise IndexError
  | _ => k ← randbelow (Z.of_nat (length seq));
         match seq !! Z.to_nat k with
         | Some a => mret a
         | None => raise IndexError
         end
  end.

(** [x[i], x[j] = x[j], x[i]] *)
Definition swap {A} (i j : nat) (x : list A) : list A :=
  match x !! i, x !! j with
  | Some a, Some b => <[j := a]> (<[i := b]> x)
  | _, _ => x
  end.

(** [random.shuffle(x)]: for [i] from [len(x) - 1] down to 1, exchange
    [x[i]] with [x[j]] for a random [j <= i]. *)
Fixpoint shuffle_from {L A} (i : nat) (x : list A) : io L (list A) :=
  match i with
  | O => mret x
  | S i' => j ← randbelow (Z.of_nat i + 1);
            shuffle_from i' (swap i (Z.to_nat j) x)
  end.

Definition shuffle {L A} (x : list A) : io L (list A) :=
  shuffle_from (length x - 1) x.

(** [for l in ls: print(l)] *)
Fixpoint print_all {L} (ls : list L) : io L unit :=
  match ls with
  | [] => mret tt
  | l :: ls' => _ ← print l; print_all ls'
  end.

(** [[f(x) for x in l]] *)
Fixpoint for_list {L A B} (f : A -> io L B) (l : list A) : io L (list B) :=
  match l with
  | [] => mret []
  | x :: l' => y ← f x; ys ← for_list f l'; mret (y :: ys)
  end.

(** [w'] is [w] after [n] random numbers were drawn and [ls] printed. *)
Definition advanced {L} (w w' : world L) (n : nat) (ls : list L) : Prop :=
  oracle w' = oracle w /\ cursor w' = (cursor w + n)%nat /\
  printed w' = printed w ++ ls.

End PyLib.

(** ** [haversine], the generators, the catalogs and [main] *)
Module Generator.
Import Py PyLib Position Scheduler PrimFloat.

Record Satellite : Set := mkSatellite {
  sat_id : string;
  orbit_period : Z;
  sat_priority : Z
}.

(** What the program prints: the line of [generate_contact_windows] for a
    station, [→ Distance to {id} (lat={lat}, lon={lon}): {distance:.2f} km];
    the two counts of [main]; and the lines of [assign_contacts]. *)
Inductive output : Set :=
  | DistanceTo (gs : string) (lat lon : Z) (distance : float)
  | Generated (n : nat)
  | Scheduling (l : line)
  | AssignedTotal (n : nat).

Definition gen := io output.

Section Generate.
(** The libm routines behind [math.sin], [math.cos] and [math.asin], the
    float power [x ** y], and the clock. *)
Variable libm_sin : float -> float.
Variable libm_cos : float -> float.
Variable libm_asin : float -> float.
Variable float_pow : float -> float -> result float.
Variable utcnow : datetime.

(** [haversine(lat1, lon1, lat2, lon2)], called with a float position and
    the int coordinates of a station. *)
Definition haversine (lat1 lon1 : float) (lat2 lon2 : Z) : result float :=
  let R := 6371 in
  let phi1 := math_radians lat1 in
  lat2f ← float_of_int lat2;
  let phi2 := math_radians lat2f in
  let dphi := math_radians (sub lat2f lat1) in
  lon2f ← float_of_int lon2;
  let dlmb := math_radians (sub lon2f lon1) in
  two ← float_of_int 2;
  s1 ← math_1 libm_sin (div dphi two);
  p1 ← float_pow s1 two;
  c1 ← math_1 libm_cos phi1;
  c2 ← math_1 libm_cos phi2;
  s2 ← math_1 libm_sin (div dlmb two);
  p2 ← float_pow s2 two;
  let a := add p1 (mul (mul c1 c2) p2) in
  diameter ← float_of_int (2 * R);
  root ← math_sqrt a;
  angle ← math_1 libm_asin root;
  Ok (mul diameter angle).

(** The dict appended for a station in range. *)
Definition new_window (satellite : Satellite) (gs : GroundStation)
    (ts end_ : datetime) (distance : float) (datavolume : Z)
    : ContactWindow :=
  {| satellite_id := sat_id satellite;
     ground_station_id := gs_id gs;
     start_time := isoformat ts;
     end_time := isoformat end_;
     timestamp := isoformat ts;
     distance := distance;
     datavolume := datavolume;
     priority := sat_priority satellite;
     assigned := None |}.

(** The loop over the stations, [contact_windows] being the list so far. *)
Fixpoint visit_stations (satellite : Satellite) (ts : datetime)
    (lat lon : float) (ground_stations : list GroundStation)
    (contact_windows : list ContactWindow) : gen (list ContactWindow) :=
  match ground_stations with
  | [] => mret contact_windows
  | gs :: rest =>
      distance ← lift (haversine lat lon (gs_lat gs) (gs_lon gs));
      _ ← print (DistanceTo (gs_id gs) (gs_lat gs) (gs_lon gs) distance);
      if ltb distance 5000%float then
        duration ← randint 5 15;
        end_ ← lift (add_minutes ts duration);
        datavolume ← randint 100 1000;
        visit_stations satellite ts lat lon rest
          (contact_windows
           ++ [new_window satellite gs ts end_ distance datavolume])
      else
        visit_stations satellite ts lat lon rest contact_windows
  end.

Definition generate_contact_windows (satellite : Satellite)
    (ground_stations : list GroundStation) (ts : option datetime)
    : gen (list ContactWindow) :=
  let ts := default utcnow ts in
  '(lat, lon) ← lift (simulate_satellite_position libm_sin utcnow
                        (orbit_period satellite) (Some ts)
                        (Some (sat_id satellite)));
  visit_stations satellite ts lat lon ground_stations [].

(** The loop over the shuffled satellites. *)
Fixpoint visit_satellites (shuffled : list Satellite)
    (ground_stations : list GroundStation) (ts : datetime)
    (all_contact_windows : list ContactWindow) : gen (list ContactWindow) :=
  match shuffled with
  | [] => mret all_contact_windows
  | satellite :: rest =>
      ws ← generate_contact_windows satellite ground_stations (Some ts);
      visit_satellites rest ground_stations ts (all_contact_windows ++ ws)
  end.

Definition generate_all_contact_windows (satellites : list Satellite)
    (ground_stations : list GroundStation) (ts : option datetime)
    : gen (list ContactWindow) :=
  let ts := default utcnow ts in
  shuffled ← shuffle satellites;
  visit_satellites shuffled ground_stations ts [].

(** *** The scheduling part of [main]

    The generated dicts become the objects 0, 1, ... of a fresh store.
    [is_assigned] is the test [c.get("assigned")]. *)
Definition unset_window : ContactWindow :=
  mkContactWindow "" "" "" "" "" zero 0 0 None.

Definition heap_of (ws : list ContactWindow) : heap :=
  fun r => nth r ws unset_window.

Definition is_assigned (w : ContactWindow) : bool :=
  match assigned w with Some true => true | _ => false end.

(** [main] from the call of [generate_all_contact_windows] to the second
    count it prints; the result is the store and the lists
    [assigned_contacts] and [assigned]. *)
Definition generate_and_assign (fromisoformat : string -> option datetime)
    (satellites : list Satellite) (ground_stations : list GroundStation)
    (ts : datetime) : gen (heap * list loc * list loc) :=
  all_contact_windows ← generate_all_contact_windows satellites ground_stations
                          (Some ts);
  _ ← print (Generated (length all_contact_windows));
  '(h, assigned_contacts, lines) ←
    lift (assign_contacts fromisoformat (heap_of all_contact_windows)
            (seq 0 (length all_contact_windows)) ground_stations);
  _ ← print_all (Scheduling <$> lines);
  let assigned := List.filter (fun r => is_assigned (h r)) assigned_contacts in
  _ ← print (AssignedTotal (length assigned));
  mret (h, assigned_contacts, assigned).

(** [next(s["orbit_period"] for s in SATELLITES if s["id"] == id)] *)
Definition orbit_period_of (satellites : list Satellite) (id : string)
    : result Z :=
  or_raise StopIteration
    (orbit_period <$> List.find (fun s => String.eqb (sat_id s) id) satellites).

(** The position [simulate_telemetry(contact, orbit_period)] reports, before
    it is rounded. *)
Definition telemetry_position (fromisoformat : string -> option datetime)
    (contact : ContactWindow) (period : Z) : result (float * float) :=
  ts ← or_raise ValueError (fromisoformat (timestamp contact));
  simulate_satellite_position libm_sin utcnow period (Some ts)
    (Some (satellite_id contact)).

(** *** Notions used to state the properties *)

(** The station is less than 5000 km from the position. *)
Definition in_range (lat lon : float) (gs : GroundStation) : bool :=
  match haversine lat lon (gs_lat gs) (gs_lon gs) with
  | Ok d => ltb d 5000%float
  | Raise _ => false
  end.

(** [w] is a window for [satellite] at [gs], seen from the position and
    starting at [ts]: it lasts 5 to 15 minutes and carries 100 to 1000 units. *)
Definition emitted (satellite : Satellite) (ts : datetime) (lat lon : float)
    (gs : GroundStation) (w : ContactWindow) : Prop :=
  exists d e k v,
    haversine lat lon (gs_lat gs) (gs_lon gs) = Ok d /\ 5 <= k <= 15 /\
    add_minutes ts k = Ok e /\ 100 <= v <= 1000 /\
    w = new_window satellite gs ts e d v.

(** [l] is the line printed for [gs]. *)
Definition distance_line (lat lon : float) (gs : GroundStation) (l : output)
    : Prop :=
  exists d, haversine lat lon (gs_lat gs) (gs_lon gs) = Ok d /\
            l = DistanceTo (gs_id gs) (gs_lat gs) (gs_lon gs) d.

(** The windows and lines of one satellite. *)
Definition generated_for (ground_stations : list GroundStation) (ts : datetime)
    (satellite : Satellite) (out : list ContactWindow * list output) : Prop :=
  exists lat lon,
    simulate_satellite_position libm_sin utcnow (orbit_period satellite)
      (Some ts) (Some (sat_id satellite)) = Ok (lat, lon) /\
    Forall2 (emitted satellite ts lat lon)
      (List.filter (in_range lat lon) ground_stations) out.1 /\
    Forall2 (distance_line lat lon) ground_stations out.2.
End Generate.

(** *** The catalogs [SATELLITES] and [GROUND_STATIONS] *)
Definition range (first count : nat) : list Z := Z.of_nat <$> seq first count.

Definition new_satellite (i : Z) : gen Satellite :=
  period ← randint 90 180;
  p ← choice [1; 2; 3];
  mret (mkSatellite (String.append "SAT-" (str_of_int i)) period p).

Definition SATELLITES : gen (list Satellite) :=
  for_list new_satellite (range 1 100).

Definition new_ground_station (i : Z) : gen GroundStation :=
  capacity ← randint 1 10;
  lon ← randint (-180) 180;
  lat ← randint (-60) 60;
  mret (mkGroundStation (String.append "GS-" (str_of_int i))
          (String.append "Location-" (str_of_int i)) capacity lon lat).

Definition GROUND_STATIONS : gen (list GroundStation) :=
  for_list new_ground_station (range 1 7).

End Generator.

(** ** Concrete inputs for the generators *)
Module GeneratorScenarios.
Import Py PyLib Scheduler Generator.

(** Stand-ins for the libm routines that put every satellite at latitude 0
    and at distance 0 from every station. *)
Definition sin_zero : float -> float := fun _ => PrimFloat.zero.
Definition cos_one : float -> float := fun _ => PrimFloat.one.
Definition asin_same : float -> float := fun x => x.
Definition pow_square : float -> float -> result float :=
  fun x _ => Ok (PrimFloat.mul x x).

(** The random numbers 0, 1, 2, ... and nothing printed yet. *)
Definition counting : world output := mkWorld (fun n => Z.of_nat n) 0 [].

Definition sat_1 : Satellite := mkSatellite "SAT-1" 90 1.
Definition station_1 : GroundStation := mkGroundStation "GS-1" "Location-1" 1 0 0.

(** The stations [GROUND_STATIONS] builds from [counting]. *)
Definition sample_stations : list GroundStation :=
  Eval vm_compute in
    match GROUND_STATIONS counting with
    | Ok (ground_stations, _) => ground_stations
    | Raise _ => []
    end.

(** What [generate_all_contact_windows] returns for [sat_1] and
    [station_1] at noon, and the state it leaves. *)
Definition sample_windows : list ContactWindow :=
  Eval vm_compute in
    match generate_all_contact_windows sin_zero cos_one asin_same pow_square
            Scenarios.midnight [sat_1] [station_1] (Some Scenarios.noon) counting
    with
    | Ok (ws, _) => ws
    | Raise _ => []
    end.

Definition sample_world : world output :=
  mkWorld (fun n => Z.of_nat n) 2 [DistanceTo "GS-1" 0 0 PrimFloat.zero].

End GeneratorScenarios.

(** ** Facts about the Python primitives *)
Module PyLibFacts.
Import Py PyLib Scheduler LoopFacts.

Lemma digit_value_digit_char (d : Z) :
  0 <= d < 10 -> digit_value (digit_char d) = Some d.
Proof.
  intros H.
  assert (d = 0 \/ d = 1 \/ d = 2 \/ d = 3 \/ d = 4 \/ d = 5 \/ d = 6 \/ d = 7
          \/ d = 8 \/ d = 9) as Hd by lia.
  repeat destruct Hd as [->|Hd]; try reflexivity. now subst.
Qed.

Lemma digit_value_mod (n : Z) : digit_value (digit_char (n mod 10)) = Some (n mod 10).
Proof. apply digit_value_digit_char, Z.mod_pos_bound. lia. Qed.

Lemma number_pad (n k : nat) (v acc : Z) (rest : list ascii) :
  number (n + k) acc (pad n v ++ rest)
  = number k (acc * 10 ^ Z.of_nat n + v mod 10 ^ Z.of_nat n) rest.
Proof.
  revert k v acc rest. induction n as [|n IH]; intros k v acc rest.
  - simpl. rewrite Z.mod_1_r. f_equal. lia.
  - replace (S n + k)%nat with (n + S k)%nat by lia.
    simpl pad. rewrite <- app_assoc. simpl app. rewrite IH. simpl number.
    rewrite digit_value_mod. simpl. f_equal.
    rewrite Nat2Z.inj_succ, Z.pow_succ_r by lia.
    rewrite (Z.rem_mul_r v 10 (10 ^ Z.of_nat n)) by lia. lia.
Qed.

Lemma number_pad_all (n : nat) (v : Z) (rest : list ascii) :
  0 <= v < 10 ^ Z.of_nat n ->
  number n 0 (pad n v ++ rest) = Some (v, rest).
Proof.
  intros H. rewrite <- (Nat.add_0_r n) at 1. rewrite number_pad. simpl.
  now rewrite Z.mod_small.
Qed.

Lemma pad_split (n m : nat) (v : Z) :
  pad (n + m) v = pad n (v / 10 ^ Z.of_nat m) ++ pad m v.
Proof.
  revert v. induction m as [|m IH]; intros v.
  - rewrite Nat.add_0_r. simpl. now rewrite Z.div_1_r, app_nil_r.
  - replace (n + S m)%nat with (S (n + m)) by lia. simpl pad.
    rewrite IH, app_assoc. do 3 f_equal.
    rewrite Nat2Z.inj_succ, Z.pow_succ_r by lia.
    rewrite Z.div_div by lia. reflexivity.
Qed.

Lemma pad_length (n : nat) (v : Z) : length (pad n v) = n.
Proof.
  revert v. induction n as [|n IH]; intros v; [done|].
  simpl. rewrite length_app, IH. simpl. lia.
Qed.

Lemma number_O (acc : Z) (l : list ascii) : number 0 acc l = Some (acc, l).
Proof. reflexivity. Qed.

Local Opaque pad number.

Lemma fromisoformat_isoformat (d : datetime) :
  valid_datetime d = true -> fromisoformat_naive (isoformat d) = Some d.
Proof.
  unfold valid_datetime. rewrite !andb_true_iff.
  destruct d as [y m dd hh mi ss us]. simpl.
  intros [[[[[[[[[[[[[Hy1 Hy2] Hm1] Hm2] Hd1] Hd2] Hh1] Hh2] Hi1] Hi2] Hs1] Hs2]
            Hu1] Hu2].
  assert (dd <= 31) as Hdd.
  { apply Z.leb_le in Hd2. unfold days_in_month in Hd2.
    repeat destruct (_ =? _) in Hd2; simpl in Hd2;
      try destruct (is_leap _); lia. }
  unfold fromisoformat_naive, isoformat. simpl microsecond. simpl year.
  simpl month. simpl day. simpl hour. simpl minute. simpl second.
  rewrite list_ascii_of_string_of_list_ascii.
  rewrite (number_pad_all 4) by lia. simpl.
  rewrite (number_pad_all 2) by lia. simpl.
  rewrite (number_pad_all 2) by lia. simpl.
  unfold parse_time.
  rewrite (number_pad_all 2) by lia. simpl.
  rewrite (number_pad_all 2) by lia. simpl.
  rewrite (number_pad_all 2) by lia. simpl.
  assert (parse_fraction (if us =? 0 then [] else "."%char :: pad 6 us)
          = Some us) as ->.
  { destruct (us =? 0) eqn:E; [apply Z.eqb_eq in E; now subst|].
    unfold parse_fraction. simpl expect. simpl.
    change (pad 6 us) with (pad (3 + 3) us). rewrite (pad_split 3 3 us).
    rewrite (number_pad_all 3) by
      (simpl; split; [apply Z.div_pos|apply Z.div_lt_upper_bound]; lia).
    simpl mbind. cbv beta iota.
    destruct (pad 3 us) as [|c l] eqn:Ep.
    { apply (f_equal length) in Ep. now rewrite pad_length in Ep. }
    rewrite <- Ep. rewrite <- (app_nil_r (pad 3 us)).
    rewrite <- (Nat.add_0_r 3) at 1.
    rewrite number_pad, number_O. simpl. f_equal.
    change (10 ^ Z.of_nat 3) with 1000.
    pose proof (Z.div_mod us 1000). lia. }
  simpl.
  rewrite Hy1, Hm1, Hm2, Hd1, Hd2, Hh2, Hi2, Hs2. reflexivity.
Qed.

(** *** [timedelta] arithmetic *)
Definition valid_date (ymd : Z * Z * Z) : Prop :=
  1 <= ymd.1.1 /\ 1 <= ymd.1.2 <= 12 /\ 1 <= ymd.2 <= days_in_month ymd.1.1 ymd.1.2.

Definition date_lt (a b : Z * Z * Z) : Prop :=
  a.1.1 < b.1.1 \/
  a.1.1 = b.1.1 /\ (a.1.2 < b.1.2 \/ a.1.2 = b.1.2 /\ a.2 < b.2).

Lemma days_in_month_bounds (y m : Z) : 28 <= days_in_month y m <= 31.
Proof.
  unfold days_in_month.
  destruct (m =? 2); [destruct (is_leap y); lia|].
  destruct (_ || _); lia.
Qed.

Lemma next_day_valid (ymd : Z * Z * Z) : valid_date ymd -> valid_date (next_day ymd).
Proof.
  destruct ymd as [[y m] d]. unfold valid_date, next_day. simpl.
  intros (Hy & Hm & Hd).
  destruct (d <? days_in_month y m) eqn:E; simpl.
  - apply Z.ltb_lt in E. lia.
  - destruct (m <? 12) eqn:E'; simpl.
    + apply Z.ltb_lt in E'. pose proof (days_in_month_bounds y (m + 1)). lia.
    + pose proof (days_in_month_bounds (y + 1) 1). lia.
Qed.

Lemma next_day_later (ymd : Z * Z * Z) :
  date_lt ymd (next_day ymd) /\ (next_day ymd).1.1 <= ymd.1.1 + 1.
Proof.
  destruct ymd as [[y m] d]. unfold date_lt, next_day. simpl.
  destruct (d <? days_in_month y m); simpl; [lia|].
  destruct (m <? 12); simpl; lia.
Qed.

Lemma date_lt_trans (a b c : Z * Z * Z) : date_lt a b -> date_lt b c -> date_lt a c.
Proof. unfold date_lt. lia. Qed.

Lemma iter_next_day_valid (n : nat) (ymd : Z * Z * Z) :
  valid_date ymd -> valid_date (Nat.iter n next_day ymd).
Proof. induction n; simpl; auto using next_day_valid. Qed.

Lemma iter_next_day_later (n : nat) (ymd : Z * Z * Z) :
  (0 < n)%nat -> date_lt ymd (Nat.iter n next_day ymd).
Proof.
  induction n as [|n IH]; [lia|]. intros _. simpl.
  destruct n as [|n]; [apply next_day_later|].
  eapply date_lt_trans; [apply IH; lia|apply next_day_later].
Qed.

Lemma iter_next_day_year (n : nat) (ymd : Z * Z * Z) :
  (Nat.iter n next_day ymd).1.1 <= ymd.1.1 + Z.of_nat n.
Proof.
  induction n as [|n IH]; simpl; [lia|].
  pose proof (next_day_later (Nat.iter n next_day ymd)). lia.
Qed.

Lemma valid_datetime_spec (d : datetime) :
  valid_datetime d = true <->
  (year d <= 9999 /\ valid_date (year d, month d, day d)) /\
  (0 <= hour d < 24 /\ 0 <= minute d < 60) /\
  0 <= second d < 60 /\ 0 <= microsecond d < 1000000.
Proof.
  unfold valid_datetime, valid_date. simpl.
  rewrite !andb_true_iff, !Z.leb_le, !Z.ltb_lt. lia.
Qed.

Lemma datetime_lt_date (a b : datetime) :
  date_lt (year a, month a, day a) (year b, month b, day b) ->
  datetime_lt a b = true.
Proof.
  unfold date_lt, datetime_lt, datetime_compare. simpl. intros H.
  destruct (Z.compare_spec (year a) (year b)); simpl; try lia; try done.
  destruct (Z.compare_spec (month a) (month b)); simpl; try lia; try done.
  destruct (Z.compare_spec (day a) (day b)); simpl; try lia; try done.
Qed.

Lemma datetime_lt_time (a b : datetime) :
  year a = year b -> month a = month b -> day a = day b ->
  hour a * 60 + minute a < hour b * 60 + minute b ->
  0 <= minute a < 60 -> 0 <= minute b < 60 ->
  datetime_lt a b = true.
Proof.
  unfold datetime_lt, datetime_compare. intros -> -> -> H Ha Hb.
  rewrite !Z.compare_refl. simpl.
  destruct (Z.compare_spec (hour a) (hour b)); simpl; try lia; try done.
  destruct (Z.compare_spec (minute a) (minute b)); simpl; try lia; try done.
Qed.

(** Adding [k >= 0] minutes gives a valid datetime, later when [k > 0], with
    the seconds unchanged. *)
Lemma add_minutes_spec (d e : datetime) (k : Z) :
  valid_datetime d = true -> 0 <= k ->
  add_minutes d k = Ok e ->
  valid_datetime e = true /\
  (0 < k -> datetime_lt d e = true) /\
  second e = second d /\ microsecond e = microsecond d.
Proof.
  intros Hd Hk. apply valid_datetime_spec in Hd as ((Hy & Hdate) & (Hh & Hm) & Hs & Hu).
  unfold add_minutes.
  set (total := hour d * 60 + minute d + k).
  pose proof (iter_next_day_valid (Z.to_nat (total `div` 1440)) _ Hdate) as Hv.
  pose proof (iter_next_day_later (Z.to_nat (total `div` 1440))
                (year d, month d, day d)) as Hl.
  destruct (Nat.iter _ _ _) as [[y m] dd] eqn:E.
  destruct (y <=? 9999) eqn:Ey; [|done]. apply Z.leb_le in Ey.
  intros [= <-]. simpl. split_and!; try done.
  - apply valid_datetime_spec. simpl. unfold total.
    split_and!; try done; Z.div_mod_to_equations; lia.
  - intros Hpos.
    destruct (Z.to_nat (total `div` 1440)) as [|n] eqn:En.
    + simpl in E. injection E as <- <- <-.
      assert (total `div` 1440 = 0) as H0.
      { assert (0 <= total `div` 1440) by (apply Z.div_pos; lia). lia. }
      apply datetime_lt_time; simpl; try done; unfold total in *;
        Z.div_mod_to_equations; lia.
    + apply datetime_lt_date. simpl. apply Hl. lia.
Qed.

Lemma add_minutes_returns (d : datetime) (k : Z) :
  valid_datetime d = true -> 0 <= k < 1440 -> year d < 9999 ->
  exists e, add_minutes d k = Ok e.
Proof.
  intros Hd Hk Hy.
  apply valid_datetime_spec in Hd as (_ & (Hh & Hm) & _).
  unfold add_minutes.
  set (total := hour d * 60 + minute d + k).
  pose proof (iter_next_day_year (Z.to_nat (total `div` 1440))
                (year d, month d, day d)) as Hl.
  destruct (Nat.iter _ _ _) as [[y m] dd] eqn:E. simpl in Hl.
  assert (total `div` 1440 <= 1) by (unfold total; Z.div_mod_to_equations; lia).
  assert ((y <=? 9999) = true) as -> by (apply Z.leb_le; lia). eauto.
Qed.

(** *** [int(str(n))] *)
Local Transparent pad number.

Definition plain_digit (c : ascii) : Prop :=
  is_space c = false /\ Ascii.eqb c "-" = false /\ Ascii.eqb c "+" = false
  /\ exists d, digit_value c = Some d.

Lemma digit_char_plain (d : Z) : 0 <= d < 10 -> plain_digit (digit_char d).
Proof.
  intros H.
  assert (d = 0 \/ d = 1 \/ d = 2 \/ d = 3 \/ d = 4 \/ d = 5 \/ d = 6 \/ d = 7
          \/ d = 8 \/ d = 9) as Hd by lia.
  repeat destruct Hd as [->|Hd]; try subst d; repeat split; eexists; reflexivity.
Qed.

(** With enough fuel, [decimal] puts a non-empty run of digits in front of
    [rest], and [digits] reads the run back as [n]. *)
Lemma decimal_spec (fuel : nat) (n : Z) (rest : list ascii) :
  (0 < fuel)%nat -> 0 <= n < 10 ^ Z.of_nat fuel ->
  exists ds, decimal fuel n rest = ds ++ rest /\ ds <> [] /\
    Forall plain_digit ds /\
    forall a b rest', digits a b (ds ++ rest')
                      = digits (a * 10 ^ Z.of_nat (length ds) + n) true rest'.
Proof.
  revert n rest. induction fuel as [|fuel IH]; intros n rest Hfuel Hn.
  - lia.
  - simpl decimal.
    assert (0 <= n `mod` 10 < 10) as Hmod by (apply Z.mod_pos_bound; lia).
    destruct (n <? 10) eqn:E.
    + apply Z.ltb_lt in E. rewrite Z.mod_small by lia.
      exists [digit_char n]. split_and!; [done|done| |].
      * constructor; [|constructor]. apply digit_char_plain. lia.
      * intros a b rest'. simpl. rewrite digit_value_digit_char by lia.
        f_equal. lia.
    + apply Z.ltb_ge in E.
      destruct (IH (n `div` 10) (digit_char (n `mod` 10) :: rest)) as
        (ds & Hds & Hne & Hplain & Hread).
      { destruct fuel; [simpl in Hn|]; lia. }
      { rewrite Nat2Z.inj_succ, Z.pow_succ_r in Hn by lia.
        split; [apply Z.div_pos; lia|apply Z.div_lt_upper_bound; lia]. }
      exists (ds ++ [digit_char (n `mod` 10)]). split_and!.
      * now rewrite Hds, <- app_assoc.
      * now destruct ds.
      * apply Forall_app. split; [done|]. constructor; [|constructor].
        now apply digit_char_plain.
      * intros a b rest'. rewrite <- app_assoc. simpl app. rewrite Hread.
        simpl digits. rewrite digit_value_mod. f_equal.
        rewrite length_app. simpl length.
        rewrite Nat2Z.inj_add, Z.pow_add_r by lia.
        change (10 ^ Z.of_nat 1) with 10.
        pose proof (Z.div_mod n 10). lia.
Qed.

Lemma lstrip_plain (l : list ascii) :
  match l with c :: _ => is_space c = false | [] => True end -> lstrip l = l.
Proof. destruct l as [|c l]; simpl; [done|]. now intros ->. Qed.

Lemma strip_plain (l : list ascii) : Forall plain_digit l -> strip l = l.
Proof.
  intros H. unfold strip. rewrite (lstrip_plain l).
  - rewrite lstrip_plain; [apply rev_involutive|].
    destruct (rev l) as [|c l'] eqn:E; [done|].
    assert (c ∈ l) as Hc.
    { apply list_elem_of_In, in_rev. rewrite E. now left. }
    rewrite Forall_forall in H. now destruct (H c Hc).
  - destruct H as [|c l' Hc _]; [done|]. now destruct Hc.
Qed.

Lemma log2_fuel (n : Z) : 0 <= n -> n < 10 ^ Z.of_nat (S (Z.to_nat (Z.log2 n))).
Proof.
  intros Hn. rewrite Nat2Z.inj_succ, Z2Nat.id by apply Z.log2_nonneg.
  destruct (Z.eq_dec n 0) as [->|Hne]; [done|].
  destruct (Z.log2_spec n) as [_ Hlt]; [lia|].
  eapply Z.lt_le_trans; [exact Hlt|].
  apply Z.pow_le_mono_l. pose proof (Z.log2_nonneg n). lia.
Qed.

(** [str(n)] for [n >= 0] is a non-empty run of digits that [int] reads
    back as [n]. *)
Lemma str_of_int_spec (n : Z) :
  0 <= n ->
  exists ds, list_ascii_of_string (str_of_int n) = ds /\ ds <> [] /\
    Forall plain_digit ds /\ digits 0 false ds = Some n.
Proof.
  intros Hn. unfold str_of_int.
  assert ((n <? 0) = false) as -> by lia.
  rewrite Z.abs_eq by done.
  destruct (decimal_spec _ n [] (Nat.lt_0_succ _) (conj Hn (log2_fuel n Hn))) as (ds & Hds & Hne & Hp & Hr).
  rewrite app_nil_r in Hds. rewrite Hds, list_ascii_of_string_of_list_ascii.
  exists ds. split_and!; try done.
  specialize (Hr 0 false []). rewrite app_nil_r in Hr. now rewrite Hr.
Qed.

Lemma int_of_str_of_int (n : Z) : 0 <= n -> int_of_str (str_of_int n) = Ok n.
Proof.
  intros Hn. destruct (str_of_int_spec n Hn) as (ds & Hds & Hne & Hp & Hr).
  unfold int_of_str. rewrite Hds, (strip_plain ds Hp).
  destruct ds as [|c l]; [done|].
  apply Forall_cons in Hp as [(_ & -> & -> & _) _]. now rewrite Hr.
Qed.

Lemma plain_digits_no_dash (ds : list ascii) :
  Forall plain_digit ds ->
  PositionTheorems.has_char "-" (string_of_list_ascii ds) = false.
Proof.
  induction 1 as [|c l (_ & Hc & _) _ IH]; simpl; [done|]. now rewrite Hc, IH.
Qed.

Lemma str_of_int_no_dash (n : Z) :
  0 <= n -> PositionTheorems.has_char "-" (str_of_int n) = false.
Proof.
  intros Hn. destruct (str_of_int_spec n Hn) as (ds & Hds & _ & Hp & _).
  rewrite <- (string_of_list_ascii_of_string (str_of_int n)), Hds.
  now apply plain_digits_no_dash.
Qed.

End PyLibFacts.

(** ** Facts about computations that draw numbers and print *)
Module IoFacts.
Import Py PyLib.

Lemma io_bind_inv {L A B} (c : io L A) (k : A -> io L B) (w : world L)
    (r : B * world L) :
  (c ≫= k) w = Ok r -> exists a w1, c w = Ok (a, w1) /\ k a w1 = Ok r.
Proof.
  unfold mbind, io_bind. destruct (c w) as [[a w1]|]; [eauto|done].
Qed.

Lemma io_bind_ok {L A B} (c : io L A) (k : A -> io L B) (w w1 : world L) (a : A) :
  c w = Ok (a, w1) -> (c ≫= k) w = k a w1.
Proof. unfold mbind, io_bind. now intros ->. Qed.

Lemma lift_inv {L A} (x : result A) (w w' : world L) (a : A) :
  lift x w = Ok (a, w') -> x = Ok a /\ w' = w.
Proof. unfold lift. destruct x; [|done]. now intros [= -> ->]. Qed.

Lemma lift_ok {L A} (x : result A) (a : A) (w : world L) :
  x = Ok a -> lift x w = Ok (a, w).
Proof. now intros ->. Qed.

Lemma print_ok {L} (l : L) (w : world L) :
  print l w = Ok (tt, mkWorld (oracle w) (cursor w) (printed w ++ [l])).
Proof. reflexivity. Qed.

Lemma advanced_refl {L} (w : world L) : advanced w w 0 [].
Proof. unfold advanced. now rewrite Nat.add_0_r, app_nil_r. Qed.

Lemma advanced_trans {L} (w1 w2 w3 : world L) (n m : nat) (ls ks : list L) :
  advanced w1 w2 n ls -> advanced w2 w3 m ks ->
  advanced w1 w3 (n + m) (ls ++ ks).
Proof.
  unfold advanced. intros (-> & -> & ->) (-> & -> & ->).
  split_and!; [done|lia|now rewrite app_assoc].
Qed.

Lemma advanced_eq {L} (w w' : world L) (n m : nat) (ls ks : list L) :
  advanced w w' n ls -> n = m -> ls = ks -> advanced w w' m ks.
Proof. now intros H <- <-. Qed.

Lemma advanced_tick {L} (w : world L) : advanced w (tick w) 1 [].
Proof. unfold advanced, tick. simpl. split_and!; [done|lia|now rewrite app_nil_r]. Qed.

Lemma advanced_print {L} (w : world L) (l : L) :
  advanced w (mkWorld (oracle w) (cursor w) (printed w ++ [l])) 0 [l].
Proof. unfold advanced. simpl. split_and!; [done|lia|done]. Qed.

(** [randint(a, b)] for [a <= b] draws one number and returns an int in
    [[a, b]]. *)
Lemma randint_eq {L} (a b : Z) (w : world L) :
  a <= b ->
  randint a b w = Ok (a + oracle w (cursor w) `mod` (b - a + 1), tick w).
Proof.
  intros H. unfold randint. now assert ((b <? a) = false) as -> by lia.
Qed.

Lemma randint_range (a b x : Z) : a <= b -> a <= a + x `mod` (b - a + 1) <= b.
Proof. intros H. pose proof (Z.mod_pos_bound x (b - a + 1)). lia. Qed.

(** [choice(seq)] of a non-empty list draws one number and returns an
    element. *)
Lemma choice_eq {L A} (seq : list A) (w : world L) :
  seq <> [] ->
  exists a, a ∈ seq /\ choice seq w = Ok (a, tick w).
Proof.
  intros H. unfold choice. destruct seq as [|a0 l] eqn:E; [done|].
  rewrite <- E. unfold mbind, io_bind, randbelow.
  set (k := _ `mod` _).
  assert (0 <= k < Z.of_nat (length seq)) as Hk.
  { apply Z.mod_pos_bound. rewrite E. simpl. lia. }
  destruct (lookup_lt_is_Some_2 seq (Z.to_nat k)) as [a Ha]; [lia|].
  rewrite Ha. exists a. split; [|done]. eapply list_elem_of_lookup_2, Ha.
Qed.

Lemma swap_perm {A} (i j : nat) (x : list A) : swap i j x ≡ₚ x.
Proof.
  unfold swap. destruct (x !! i) as [a|] eqn:Ei; [|done].
  destruct (x !! j) as [b|] eqn:Ej; [|done].
  now apply Permutation_insert_swap.
Qed.

Lemma shuffle_from_spec {L A} (i : nat) (x : list A) (w : world L) :
  exists y w', shuffle_from i x w = Ok (y, w') /\ y ≡ₚ x /\ advanced w w' i [].
Proof.
  revert x w. induction i as [|i IH]; intros x w.
  - exists x, w. split_and!; [done|done|apply advanced_refl].
  - simpl shuffle_from. unfold mbind, io_bind, randbelow.
    set (j := Z.to_nat _).
    destruct (IH (swap (S i) j x) (tick w)) as (y & w' & -> & Hp & Ha).
    exists y, w'. split_and!; [done|now rewrite Hp, swap_perm|].
    apply (advanced_trans _ _ _ 1 i [] [] (advanced_tick w) Ha).
Qed.

(** [random.shuffle] returns a rearrangement and draws [len(x) - 1] numbers. *)
Lemma shuffle_spec {L A} (x : list A) (w : world L) :
  exists y w', shuffle x w = Ok (y, w') /\ y ≡ₚ x /\
               advanced w w' (length x - 1) [].
Proof. apply shuffle_from_spec. Qed.

Lemma for_list_spec {L A B} (f : A -> io L B) (P : A -> B -> Prop) (n : nat)
    (l : list A) (w : world L) :
  (forall x w, exists y, P x y /\ exists w', f x w = Ok (y, w') /\ advanced w w' n []) ->
  exists ys w', for_list f l w = Ok (ys, w') /\ Forall2 P l ys /\
                advanced w w' (length l * n) [].
Proof.
  intros Hf. revert w. induction l as [|x l IH]; intros w.
  - exists [], w. split_and!; [done|constructor|apply advanced_refl].
  - destruct (Hf x w) as (y & Hy & w1 & Hw1 & Ha1).
    destruct (IH w1) as (ys & w' & Hys & HP & Ha).
    exists (y :: ys), w'. simpl for_list.
    rewrite (io_bind_ok _ _ _ _ _ Hw1), (io_bind_ok _ _ _ _ _ Hys).
    split_and!; [done|now constructor|].
    simpl length. replace (S (length l) * n)%nat with (n + length l * n)%nat by lia.
    apply (advanced_trans _ _ _ _ _ [] [] Ha1 Ha).
Qed.

End IoFacts.

(** ** The generators: what they return, and when *)
Module GeneratorFacts.
Import Py PyLib Position Scheduler Generator PyLibFacts IoFacts LoopFacts.

Section Facts.
Variable libm_sin : float -> float.
Variable libm_cos : float -> float.
Variable libm_asin : float -> float.
Variable float_pow : float -> float -> result float.
Variable utcnow : datetime.

Local Abbreviation haversine :=
  (Generator.haversine libm_sin libm_cos libm_asin float_pow).
Local Abbreviation in_range :=
  (Generator.in_range libm_sin libm_cos libm_asin float_pow).
Local Abbreviation emitted :=
  (Generator.emitted libm_sin libm_cos libm_asin float_pow).
Local Abbreviation distance_line :=
  (Generator.distance_line libm_sin libm_cos libm_asin float_pow).
Local Abbreviation generated_for :=
  (Generator.generated_for libm_sin libm_cos libm_asin float_pow utcnow).
Local Abbreviation visit_stations :=
  (Generator.visit_stations libm_sin libm_cos libm_asin float_pow).
Local Abbreviation generate_contact_windows :=
  (Generator.generate_contact_windows libm_sin libm_cos libm_asin float_pow utcnow).
Local Abbreviation visit_satellites :=
  (Generator.visit_satellites libm_sin libm_cos libm_asin float_pow utcnow).
Local Abbreviation generate_all_contact_windows :=
  (Generator.generate_all_contact_windows libm_sin libm_cos libm_asin float_pow
     utcnow).
Local Abbreviation simulate := (simulate_satellite_position libm_sin utcnow).

(** *** The loop over the stations *)
Lemma visit_stations_inv (satellite : Satellite) (ts : datetime)
    (lat lon : float) (ground_stations : list GroundStation)
    (acc ws : list ContactWindow) (w w' : world output) :
  visit_stations satellite ts lat lon ground_stations acc w = Ok (ws, w') ->
  exists new ls,
    ws = acc ++ new /\
    Forall2 (emitted satellite ts lat lon)
      (List.filter (in_range lat lon) ground_stations) new /\
    Forall2 (distance_line lat lon) ground_stations ls /\
    advanced w w' (2 * length new) ls.
Proof.
  revert acc w. induction ground_stations as [|gs rest IH]; intros acc w H.
  - injection H as <- <-. exists [], []. rewrite app_nil_r.
    split_and!; [done|constructor|constructor|apply advanced_refl].
  - simpl Generator.visit_stations in H.
    apply io_bind_inv in H as (d & w1 & Hd & H).
    apply lift_inv in Hd as [Hd ->].
    apply io_bind_inv in H as ([] & w2 & Hp & H).
    injection Hp as <-.
    assert (distance_line lat lon gs
              (DistanceTo (gs_id gs) (gs_lat gs) (gs_lon gs) d)) as Hline
      by (exists d; split; [exact Hd|reflexivity]).
    pose proof (advanced_print w
                  (DistanceTo (gs_id gs) (gs_lat gs) (gs_lon gs) d)) as Ha0.
    simpl List.filter. unfold Generator.in_range at 1. rewrite Hd.
    destruct (PrimFloat.ltb d _) eqn:E.
    + apply io_bind_inv in H as (k & w3 & Hk & H).
      rewrite randint_eq in Hk by lia. injection Hk as <- <-.
      apply io_bind_inv in H as (e & w4 & He & H).
      apply lift_inv in He as [He ->].
      apply io_bind_inv in H as (v & w5 & Hv & H).
      rewrite randint_eq in Hv by lia. injection Hv as <- <-.
      apply IH in H as (new & ls & -> & Hem & Hls & Ha).
      eexists (_ :: new), (_ :: ls). split_and!.
      * now rewrite <- app_assoc.
      * constructor; [|exact Hem].
        refine (ex_intro _ d (ex_intro _ e (ex_intro _ _ (ex_intro _ _
                 (conj Hd (conj _ (conj He (conj _ eq_refl))))))));
          apply randint_range; lia.
      * constructor; [exact Hline|exact Hls].
      * pose proof (advanced_trans _ _ _ _ _ _ _ Ha0
                      (advanced_trans _ _ _ _ _ _ _ (advanced_tick _)
                         (advanced_trans _ _ _ _ _ _ _ (advanced_tick _) Ha)))
          as Hall.
        simpl in Hall |- *.
        replace (length new + S (length new + 0))%nat
          with (S (length new + (length new + 0))) by lia.
        exact Hall.
    + apply IH in H as (new & ls & -> & Hem & Hls & Ha).
      exists new, (DistanceTo (gs_id gs) (gs_lat gs) (gs_lon gs) d :: ls).
      split_and!; [done|done|now constructor|].
      apply (advanced_trans _ _ _ _ _ _ _ Ha0 Ha).
Qed.

Lemma visit_stations_returns (satellite : Satellite) (ts : datetime)
    (lat lon : float) (ground_stations : list GroundStation)
    (acc : list ContactWindow) (w : world output) :
  valid_datetime ts = true -> year ts < 9999 ->
  Forall (fun gs => exists d, haversine lat lon (gs_lat gs) (gs_lon gs) = Ok d)
    ground_stations ->
  exists ws w', visit_stations satellite ts lat lon ground_stations acc w
                = Ok (ws, w').
Proof.
  intros Hts Hy Hall. revert acc w.
  induction Hall as [|gs rest [d Hd] _ IH]; intros acc w.
  - exists acc, w. done.
  - simpl Generator.visit_stations.
    rewrite (io_bind_ok _ _ _ _ _ (lift_ok _ _ w Hd)).
    rewrite (io_bind_ok _ _ _ _ _ (print_ok _ w)).
    destruct (PrimFloat.ltb d _); [|apply IH].
    set (w1 := mkWorld _ _ _).
    rewrite (io_bind_ok _ _ _ _ _ (randint_eq 5 15 w1 ltac:(lia))).
    destruct (add_minutes_returns ts
                (5 + oracle w1 (cursor w1) `mod` (15 - 5 + 1)) Hts) as [e He];
      [pose proof (randint_range 5 15 (oracle w1 (cursor w1))); lia|done|].
    rewrite (io_bind_ok _ _ _ _ _ (lift_ok _ _ (tick w1) He)).
    rewrite (io_bind_ok _ _ _ _ _ (randint_eq 100 1000 (tick w1) ltac:(lia))).
    apply IH.
Qed.

(** *** One satellite *)
Lemma generate_contact_windows_inv (satellite : Satellite)
    (ground_stations : list GroundStation) (ts : option datetime)
    (ws : list ContactWindow) (w w' : world output) :
  generate_contact_windows satellite ground_stations ts w = Ok (ws, w') ->
  exists ls, generated_for ground_stations (default utcnow ts) satellite (ws, ls)
             /\ advanced w w' (2 * length ws) ls.
Proof.
  unfold Generator.generate_contact_windows. intros H.
  apply io_bind_inv in H as ([lat lon] & w1 & Hp & H).
  apply lift_inv in Hp as [Hp ->].
  apply visit_stations_inv in H as (new & ls & -> & Hem & Hls & Ha).
  exists ls. split; [|exact Ha]. exists lat, lon. done.
Qed.

(** The positions of the satellites can be computed and the distances to
    the stations too: what the generators need to return. *)
Definition positions_ok (satellites : list Satellite)
    (ground_stations : list GroundStation) (ts : datetime) : Prop :=
  Forall (fun satellite =>
    exists lat lon,
      simulate (orbit_period satellite) (Some ts) (Some (sat_id satellite))
        = Ok (lat, lon) /\
      Forall (fun gs => exists d, haversine lat lon (gs_lat gs) (gs_lon gs) = Ok d)
        ground_stations) satellites.

Lemma generate_contact_windows_returns (satellite : Satellite)
    (ground_stations : list GroundStation) (ts : datetime) (w : world output) :
  valid_datetime ts = true -> year ts < 9999 ->
  positions_ok [satellite] ground_stations ts ->
  exists ws w', generate_contact_windows satellite ground_stations (Some ts) w
                = Ok (ws, w').
Proof.
  intros Hts Hy [(lat & lon & Hp & Hall) _]%Forall_cons.
  unfold Generator.generate_contact_windows. simpl default.
  rewrite (io_bind_ok _ _ _ _ _ (lift_ok _ _ w Hp)).
  now apply visit_stations_returns.
Qed.

(** *** All satellites *)
Lemma visit_satellites_inv (shuffled : list Satellite)
    (ground_stations : list GroundStation) (ts : datetime)
    (acc ws : list ContactWindow) (w w' : world output) :
  visit_satellites shuffled ground_stations ts acc w = Ok (ws, w') ->
  exists groups,
    Forall2 (generated_for ground_stations ts) shuffled groups /\
    ws = acc ++ concat groups.*1 /\
    advanced w w' (2 * length (concat groups.*1)) (concat groups.*2).
Proof.
  revert acc w. induction shuffled as [|satellite rest IH]; intros acc w H.
  - injection H as <- <-. exists []. simpl. rewrite app_nil_r.
    split_and!; [constructor|done|apply advanced_refl].
  - simpl Generator.visit_satellites in H.
    apply io_bind_inv in H as (ws1 & w1 & H1 & H).
    apply generate_contact_windows_inv in H1 as (ls & Hg & Ha1).
    apply IH in H as (groups & Hgs & -> & Ha).
    exists ((ws1, ls) :: groups). rewrite !fmap_cons. simpl concat. simpl fst.
    simpl snd. split_and!.
    + now constructor.
    + now rewrite app_assoc.
    + eapply advanced_eq; [exact (advanced_trans _ _ _ _ _ _ _ Ha1 Ha)| |done].
      rewrite length_app. lia.
Qed.

Lemma visit_satellites_returns (shuffled : list Satellite)
    (ground_stations : list GroundStation) (ts : datetime)
    (acc : list ContactWindow) (w : world output) :
  valid_datetime ts = true -> year ts < 9999 ->
  positions_ok shuffled ground_stations ts ->
  exists ws w', visit_satellites shuffled ground_stations ts acc w = Ok (ws, w').
Proof.
  intros Hts Hy Hall. revert acc w.
  induction Hall as [|satellite rest Hs _ IH]; intros acc w.
  - exists acc, w. done.
  - simpl Generator.visit_satellites.
    destruct (generate_contact_windows_returns satellite ground_stations ts w
                Hts Hy) as (ws1 & w1 & H1).
    { constructor; [exact Hs|constructor]. }
    rewrite (io_bind_ok _ _ _ _ _ H1). apply IH.
Qed.

Lemma generate_all_contact_windows_inv (satellites : list Satellite)
    (ground_stations : list GroundStation) (ts : option datetime)
    (ws : list ContactWindow) (w w' : world output) :
  generate_all_contact_windows satellites ground_stations ts w = Ok (ws, w') ->
  exists shuffled groups,
    shuffled ≡ₚ satellites /\
    Forall2 (generated_for ground_stations (default utcnow ts)) shuffled groups /\
    ws = concat groups.*1 /\
    advanced w w' (length satellites - 1 + 2 * length ws) (concat groups.*2).
Proof.
  unfold Generator.generate_all_contact_windows. intros H.
  apply io_bind_inv in H as (shuffled & w1 & Hsh & H).
  destruct (shuffle_spec satellites w) as (y & w1' & Hy & Hperm & Ha1).
  rewrite Hsh in Hy. injection Hy as <- <-.
  apply visit_satellites_inv in H as (groups & Hgs & -> & Ha).
  exists shuffled, groups. split_and!; try done.
  eapply advanced_eq; [exact (advanced_trans _ _ _ _ _ _ _ Ha1 Ha)|done..].
Qed.

Lemma generate_all_contact_windows_returns (satellites : list Satellite)
    (ground_stations : list GroundStation) (ts : datetime) (w : world output) :
  valid_datetime ts = true -> year ts < 9999 ->
  positions_ok satellites ground_stations ts ->
  exists ws w', generate_all_contact_windows satellites ground_stations
                  (Some ts) w = Ok (ws, w').
Proof.
  intros Hts Hy Hall. unfold Generator.generate_all_contact_windows.
  destruct (shuffle_spec satellites w) as (y & w1 & Hsh & Hperm & _).
  rewrite (io_bind_ok _ _ _ _ _ Hsh). simpl default.
  apply visit_satellites_returns; try done.
  unfold positions_ok. now rewrite Hperm.
Qed.

End Facts.
End GeneratorFacts.

(** ** From the generators to [assign_contacts] *)
Module PipelineFacts.
Import Py PyLib Position Scheduler Generator PyLibFacts IoFacts LoopFacts
  SortFacts GeneratorFacts.

Section Facts.
Variable libm_sin : float -> float.
Variable libm_cos : float -> float.
Variable libm_asin : float -> float.
Variable float_pow : float -> float -> result float.
Variable utcnow : datetime.

Local Abbreviation haversine :=
  (Generator.haversine libm_sin libm_cos libm_asin float_pow).
Local Abbreviation in_range :=
  (Generator.in_range libm_sin libm_cos libm_asin float_pow).
Local Abbreviation emitted :=
  (Generator.emitted libm_sin libm_cos libm_asin float_pow).
Local Abbreviation generated_for :=
  (Generator.generated_for libm_sin libm_cos libm_asin float_pow utcnow).
Local Abbreviation generate_contact_windows :=
  (Generator.generate_contact_windows libm_sin libm_cos libm_asin float_pow utcnow).
Local Abbreviation generate_all_contact_windows :=
  (Generator.generate_all_contact_windows libm_sin libm_cos libm_asin float_pow
     utcnow).
Local Abbreviation generate_and_assign :=
  (Generator.generate_and_assign libm_sin libm_cos libm_asin float_pow utcnow).
Local Abbreviation telemetry_position :=
  (Generator.telemetry_position libm_sin utcnow).
Local Abbreviation simulate := (simulate_satellite_position libm_sin utcnow).

(** *** What an emitted window holds *)
Lemma emitted_interval (satellite : Satellite) (ts : datetime) (lat lon : float)
    (gs : GroundStation) (w : ContactWindow) :
  valid_datetime ts = true ->
  emitted satellite ts lat lon gs w ->
  fromisoformat_naive (timestamp w) = Some ts /\
  exists e, interval fromisoformat_naive w = Some (ts, e) /\
            datetime_lt ts e = true.
Proof.
  intros Hts (d & e & k & v & Hd & Hk & He & Hv & ->).
  destruct (add_minutes_spec ts e k Hts ltac:(lia) He) as (Hve & Hlt & _).
  unfold interval. simpl.
  rewrite (fromisoformat_isoformat ts Hts), (fromisoformat_isoformat e Hve).
  split; [done|]. exists e. split; [done|]. apply Hlt. lia.
Qed.

Lemma Forall2_elem_of_r {A B} (P : A -> B -> Prop) (l : list A) (k : list B)
    (y : B) :
  Forall2 P l k -> y ∈ k -> exists x, x ∈ l /\ P x y.
Proof.
  induction 1 as [|x y' l k Hxy _ IH]; intros Hy.
  - now apply elem_of_nil in Hy.
  - apply elem_of_cons in Hy as [->|Hy].
    + exists x. split; [left|done].
    + destruct (IH Hy) as (x' & Hx' & HP). exists x'. split; [now right|done].
Qed.

(** Where a window of one satellite comes from. *)
Lemma generated_for_origin (ground_stations : list GroundStation)
    (ts : datetime) (satellite : Satellite)
    (out : list ContactWindow * list output) (w : ContactWindow) :
  generated_for ground_stations ts satellite out -> w ∈ out.1 ->
  exists lat lon gs,
    simulate (orbit_period satellite) (Some ts) (Some (sat_id satellite))
      = Ok (lat, lon) /\
    gs ∈ ground_stations /\ in_range lat lon gs = true /\
    emitted satellite ts lat lon gs w.
Proof.
  intros (lat & lon & Hp & Hem & _) Hw.
  destruct (Forall2_elem_of_r _ _ _ _ Hem Hw) as (gs & Hgs & He).
  apply list_elem_of_In, filter_In in Hgs as [Hgs Hr].
  exists lat, lon, gs. split_and!; try done. now apply list_elem_of_In.
Qed.

(** Where a window of [generate_all_contact_windows] comes from. *)
Lemma generated_origin (satellites shuffled : list Satellite)
    (ground_stations : list GroundStation) (ts : datetime)
    (groups : list (list ContactWindow * list output)) (w : ContactWindow) :
  shuffled ≡ₚ satellites ->
  Forall2 (generated_for ground_stations ts) shuffled groups ->
  w ∈ concat groups.*1 ->
  exists satellite lat lon gs,
    satellite ∈ satellites /\
    simulate (orbit_period satellite) (Some ts) (Some (sat_id satellite))
      = Ok (lat, lon) /\
    gs ∈ ground_stations /\ in_range lat lon gs = true /\
    emitted satellite ts lat lon gs w.
Proof.
  intros Hperm Hgs Hw.
  apply list_elem_of_In, in_concat in Hw as (ws1 & Hws1 & Hw).
  apply list_elem_of_In in Hw, Hws1.
  apply list_elem_of_fmap in Hws1 as (out & -> & Hout).
  destruct (Forall2_elem_of_r _ _ _ _ Hgs Hout) as (satellite & Hs & Hg).
  destruct (generated_for_origin _ _ _ _ _ Hg Hw)
    as (lat & lon & gs & Hp & Hgs' & Hr & He).
  exists satellite, lat, lon, gs. split_and!; try done. now rewrite <- Hperm.
Qed.

(** *** The store of the generated windows *)
Lemma heap_of_elem_of (ws : list ContactWindow) (r : nat) :
  (r < length ws)%nat -> heap_of ws r ∈ ws.
Proof. intros H. apply list_elem_of_In, nth_In, H. Qed.

Lemma elem_of_heap_of (ws : list ContactWindow) (w : ContactWindow) :
  w ∈ ws -> exists r, (r < length ws)%nat /\ heap_of ws r = w.
Proof.
  intros H. apply list_elem_of_In in H.
  destruct (In_nth ws w unset_window H) as (r & Hr & Hw). eauto.
Qed.

Lemma existsb_station (ground_stations : list GroundStation) (gs : GroundStation) :
  gs ∈ ground_stations ->
  existsb (fun gs' => String.eqb (gs_id gs') (gs_id gs)) ground_stations = true.
Proof.
  intros H. apply existsb_exists. exists gs.
  split; [now apply list_elem_of_In|apply String.eqb_refl].
Qed.

Lemma capacity_of_elem_of (ground_stations : list GroundStation) (g : string)
    (capacity : Z) :
  capacity_of ground_stations g = Ok capacity ->
  exists gs, gs ∈ ground_stations /\ gs_id gs = g /\ gs_capacity gs = capacity.
Proof.
  unfold capacity_of. destruct (find _ _) as [gs|] eqn:E; [|done].
  intros [= <-]. apply find_some in E as [Hin Heq].
  exists gs. split_and!; [now apply list_elem_of_In|now apply String.eqb_eq|done].
Qed.

Lemma print_all_ok {L} (ls : list L) (w : world L) :
  print_all ls w = Ok (tt, mkWorld (oracle w) (cursor w) (printed w ++ ls)).
Proof.
  revert w. induction ls as [|l ls IH]; intros w; simpl.
  - rewrite app_nil_r. now destruct w.
  - rewrite (io_bind_ok _ _ _ _ _ (print_ok l w)), IH. simpl.
    now rewrite <- app_assoc.
Qed.

(** Windows that were all generated for the timestamp [ts] are scheduled
    without an error, no window counts another one, and a window is
    assigned exactly when its station has a positive capacity. *)
Lemma assign_generated (ws : list ContactWindow)
    (ground_stations : list GroundStation) (ts : datetime) :
  valid_datetime ts = true ->
  Forall (fun w => exists satellite lat lon gs,
            gs ∈ ground_stations /\ emitted satellite ts lat lon gs w) ws ->
  exists h out ds,
    assign_contacts fromisoformat_naive (heap_of ws) (seq 0 (length ws))
      ground_stations
    = Ok (h, out,
          Called :: concat (zip_with (fun r d => lines_for (heap_of ws r) d) out ds))
    /\ out = sorted (fun r => sort_key (heap_of ws r)) (seq 0 (length ws))
    /\ length ds = length ws
    /\ Forall (fun d => d.1 = 0) ds
    /\ forall r, (r < length ws)%nat ->
         same_fields (h r) (heap_of ws r) /\
         exists capacity,
           capacity_of ground_stations (ground_station_id (heap_of ws r))
             = Ok capacity /\
           assigned (h r) = Some (0 <? capacity).
Proof.
  intros Hts Hall. rewrite Forall_forall in Hall.
  set (h := heap_of ws). set (l := seq 0 (length ws)).
  assert (forall r, r ∈ l -> (r < length ws)%nat) as Hl.
  { intros r Hr. apply elem_of_seq in Hr. lia. }
  assert (well_formed fromisoformat_naive h l ground_stations = true) as Hwf.
  { unfold well_formed. apply forallb_forall. intros r Hr%list_elem_of_In.
    destruct (Hall _ (heap_of_elem_of ws r (Hl r Hr)))
      as (satellite & lat & lon & gs & Hgs & He).
    destruct (emitted_interval _ _ _ _ _ _ Hts He) as (_ & e & Hi & _).
    unfold well_formed_window. unfold interval in Hi.
    fold h in Hi |- *.
    destruct (fromisoformat_naive (start_time (h r))); [|done].
    destruct (fromisoformat_naive (end_time (h r))); [|done].
    rewrite !bool_decide_eq_true_2 by eauto. simpl.
    destruct He as (dist & e' & k & v & _ & _ & _ & _ & Hw).
    fold h in Hw. rewrite Hw. simpl. now apply existsb_station. }
  destruct (run_total fromisoformat_naive ground_stations h l Hwf)
    as (ds & st' & Htrace & Hrun).
  pose proof (run_trace_assignments _ _ _ _ _ _ Htrace) as Hout. simpl in Hout.
  set (key := fun r => sort_key (h r)) in *.
  destruct (run_trace_same_start _ _ (isoformat ts) _ _ _ _ Htrace) as [H0 Hheap].
  - apply Forall_forall. intros r Hr. rewrite sorted_perm in Hr. simpl.
    destruct (Hall _ (heap_of_elem_of ws r (Hl r Hr)))
      as (satellite & lat & lon & gs & _ & (d & e & k & v & _ & _ & _ & _ & Hw)).
    fold h in Hw. now rewrite Hw.
  - intros g l0. rewrite initial_lookup.
    destruct (existsb _ _); [|done]. intros [= <-]. constructor.
  - exists (st_heap st'), (assignments st'), ds. split_and!.
    + apply SchedulerTheorems.assign_contacts_run. exists st'. split_and!; try done.
      rewrite (run_trace_stdout _ _ _ _ _ _ Htrace), Hout. reflexivity.
    + exact Hout.
    + rewrite (run_trace_length _ _ _ _ _ _ Htrace), sorted_length.
      apply length_seq.
    + exact H0.
    + intros r Hr. split.
      * apply (run_trace_same_fields _ _ _ _ _ _ Htrace).
      * apply Hheap. rewrite sorted_perm. apply elem_of_seq. lia.
Qed.

(** Every window of [generate_all_contact_windows] was emitted for a
    satellite and a station of the two lists. *)
Lemma generated_all_emitted (satellites : list Satellite)
    (ground_stations : list GroundStation) (ts : option datetime)
    (ws : list ContactWindow) (w w' : world output) :
  generate_all_contact_windows satellites ground_stations ts w = Ok (ws, w') ->
  Forall (fun c => exists satellite lat lon gs,
            satellite ∈ satellites /\
            simulate (orbit_period satellite) (Some (default utcnow ts))
              (Some (sat_id satellite)) = Ok (lat, lon) /\
            gs ∈ ground_stations /\ in_range lat lon gs = true /\
            emitted satellite (default utcnow ts) lat lon gs c) ws.
Proof.
  intros (shuffled & groups & Hperm & Hgs & -> & _)%generate_all_contact_windows_inv.
  apply Forall_forall. intros c Hc.
  apply (generated_origin _ _ _ _ _ _ Hperm Hgs Hc).
Qed.

Lemma sorted_seq_bound (key : nat -> Z * string) (n r : nat) :
  r ∈ sorted key (seq 0 n) -> (r < n)%nat.
Proof. rewrite sorted_perm. intros H%elem_of_seq. lia. Qed.

(** [main] from the generation to the second count: it does not raise,
    no window is counted as overlapping, and a window is assigned exactly
    when its station has a positive capacity. *)
Lemma generate_and_assign_by_capacity (satellites : list Satellite)
    (ground_stations : list GroundStation) (ts : datetime) (w : world output) :
  valid_datetime ts = true -> year ts < 9999 ->
  positions_ok libm_sin libm_cos libm_asin float_pow utcnow
    satellites ground_stations ts ->
  exists ws w1 h out ds w',
    generate_all_contact_windows satellites ground_stations (Some ts) w
      = Ok (ws, w1) /\
    generate_and_assign fromisoformat_naive satellites ground_stations ts w
      = Ok ((h, out, List.filter (fun r => is_assigned (h r)) out), w') /\
    out = sorted (fun r => sort_key (heap_of ws r)) (seq 0 (length ws)) /\
    length ds = length ws /\
    Forall (fun d => d.1 = 0) ds /\
    (forall r, (r < length ws)%nat ->
       same_fields (h r) (heap_of ws r) /\
       exists capacity,
         capacity_of ground_stations (ground_station_id (heap_of ws r))
           = Ok capacity /\
         assigned (h r) = Some (0 <? capacity)) /\
    advanced w1 w' 0
      (Generated (length ws)
       :: (Scheduling <$>
             Called :: concat (zip_with (fun r d => lines_for (heap_of ws r) d)
                                 out ds))
       ++ [AssignedTotal (length (List.filter (fun r => is_assigned (h r)) out))]).
Proof.
  intros Hts Hy Hpos.
  destruct (generate_all_contact_windows_returns _ _ _ _ _ satellites
              ground_stations ts w Hts Hy Hpos) as (ws & w1 & Hgen).
  pose proof (generated_all_emitted _ _ _ _ _ _ Hgen) as Hall. simpl in Hall.
  destruct (assign_generated ws ground_stations ts Hts)
    as (h & out & ds & Hassign & Hout & Hlen & H0 & Hheap).
  { eapply Forall_impl; [exact Hall|].
    intros c (satellite & lat & lon & gs & _ & _ & Hgs & _ & He). eauto 6. }
  exists ws, w1, h, out, ds. eexists. split_and!; try done.
  - unfold Generator.generate_and_assign.
    rewrite (io_bind_ok _ _ _ _ _ Hgen).
    rewrite (io_bind_ok _ _ _ _ _ (print_ok _ w1)).
    rewrite (io_bind_ok _ _ _ _ _ (lift_ok _ _ _ Hassign)).
    cbv beta iota.
    rewrite (io_bind_ok _ _ _ _ _ (print_all_ok _ _)).
    rewrite (io_bind_ok _ _ _ _ _ (print_ok _ _)).
    reflexivity.
  - unfold advanced. simpl. split_and!; [done|lia|].
    now rewrite <- !app_assoc.
Qed.

(** With positive capacities everywhere, every window is assigned. *)
Lemma all_assigned (ground_stations : list GroundStation)
    (ws : list ContactWindow) (h : heap) (out : list loc) :
  Forall (fun gs => 0 < gs_capacity gs) ground_stations ->
  out = sorted (fun r => sort_key (heap_of ws r)) (seq 0 (length ws)) ->
  (forall r, (r < length ws)%nat ->
     same_fields (h r) (heap_of ws r) /\
     exists capacity,
       capacity_of ground_stations (ground_station_id (heap_of ws r))
         = Ok capacity /\
       assigned (h r) = Some (0 <? capacity)) ->
  (forall r, (r < length ws)%nat -> assigned (h r) = Some true) /\
  List.filter (fun r => is_assigned (h r)) out = out /\
  length out = length ws.
Proof.
  intros Hcap -> Hheap.
  assert (forall r, (r < length ws)%nat -> assigned (h r) = Some true) as Hall.
  { intros r Hr. destruct (Hheap r Hr) as (_ & c & Hc & ->).
    apply capacity_of_elem_of in Hc as (gs & Hgs & _ & <-).
    rewrite Forall_forall in Hcap. specialize (Hcap gs Hgs).
    do 2 f_equal. lia. }
  split_and!; [exact Hall| |].
  - apply forallb_filter_id, forallb_forall.
    intros r Hr%list_elem_of_In%sorted_seq_bound.
    unfold is_assigned. now rewrite (Hall r Hr).
  - now rewrite sorted_length, length_seq.
Qed.

End Facts.
End PipelineFacts.

(** ** The catalogs *)
Module CatalogFacts.
Import Py PyLib Position Scheduler Generator PyLibFacts IoFacts.

(** What the comprehensions build for the index [i]. *)
Definition catalog_satellite (i : Z) (s : Satellite) : Prop :=
  sat_id s = String.append "SAT-" (str_of_int i) /\
  90 <= orbit_period s <= 180 /\ 1 <= sat_priority s <= 3.

Definition catalog_station (i : Z) (gs : GroundStation) : Prop :=
  gs_id gs = String.append "GS-" (str_of_int i) /\
  gs_location gs = String.append "Location-" (str_of_int i) /\
  1 <= gs_capacity gs <= 10 /\ -180 <= gs_lon gs <= 180 /\
  -60 <= gs_lat gs <= 60.

Lemma new_satellite_spec (i : Z) (w : world output) :
  exists s, catalog_satellite i s /\
    exists w', new_satellite i w = Ok (s, w') /\ advanced w w' 2 [].
Proof.
  unfold new_satellite.
  rewrite (io_bind_ok _ _ _ _ _ (randint_eq 90 180 w ltac:(lia))).
  destruct (choice_eq [1; 2; 3] (tick w) ltac:(done)) as (p & Hp & Hc).
  rewrite (io_bind_ok _ _ _ _ _ Hc).
  eexists. split; [|eexists; split; [reflexivity|]].
  - split_and!; simpl; try done; try (apply randint_range; lia);
      repeat (apply elem_of_cons in Hp as [->|Hp]); try lia;
      now apply elem_of_nil in Hp.
  - apply (advanced_trans _ _ _ 1 1 [] [] (advanced_tick w)
             (advanced_tick (tick w))).
Qed.

Lemma new_ground_station_spec (i : Z) (w : world output) :
  exists gs, catalog_station i gs /\
    exists w', new_ground_station i w = Ok (gs, w') /\ advanced w w' 3 [].
Proof.
  unfold new_ground_station.
  rewrite (io_bind_ok _ _ _ _ _ (randint_eq 1 10 w ltac:(lia))).
  rewrite (io_bind_ok _ _ _ _ _ (randint_eq (-180) 180 (tick w) ltac:(lia))).
  rewrite (io_bind_ok _ _ _ _ _ (randint_eq (-60) 60 (tick (tick w)) ltac:(lia))).
  eexists. split; [|eexists; split; [reflexivity|]].
  - split_and!; simpl; try done; apply randint_range; lia.
  - apply (advanced_trans _ _ _ 1 2 [] [] (advanced_tick w)
             (advanced_trans _ _ _ 1 1 [] [] (advanced_tick (tick w))
                (advanced_tick (tick (tick w))))).
Qed.

Lemma range_length (first count : nat) : length (range first count) = count.
Proof. unfold range. now rewrite length_fmap, length_seq. Qed.

Lemma elem_of_range (first count : nat) (i : Z) :
  i ∈ range first count <-> Z.of_nat first <= i < Z.of_nat first + Z.of_nat count.
Proof.
  unfold range. rewrite list_elem_of_fmap. split.
  - intros (n & -> & Hn%elem_of_seq). lia.
  - intros H. exists (Z.to_nat i). split; [lia|]. apply elem_of_seq. lia.
Qed.

Lemma range_NoDup (first count : nat) : NoDup (range first count).
Proof.
  unfold range. apply NoDup_fmap_2; [|apply NoDup_seq].
  intros x y. lia.
Qed.

Lemma str_of_int_inj (i j : Z) :
  0 <= i -> 0 <= j -> str_of_int i = str_of_int j -> i = j.
Proof.
  intros Hi Hj H.
  pose proof (int_of_str_of_int i Hi) as Ei.
  rewrite H, (int_of_str_of_int j Hj) in Ei. congruence.
Qed.

Lemma append_inj (p a b : string) : String.append p a = String.append p b -> a = b.
Proof. induction p as [|c p IH]; simpl; [done|]. intros [= H]. auto. Qed.

Lemma Forall2_fmap_eq {A B C} (f : B -> C) (g : A -> C) (l : list A) (k : list B) :
  Forall2 (fun a b => f b = g a) l k -> f <$> k = g <$> l.
Proof.
  induction 1 as [|a b l k H _ IH]; [done|].
  rewrite !fmap_cons. now rewrite H, IH.
Qed.

Lemma identifiers_NoDup (prefix : string) (first count : nat) :
  NoDup ((fun i => String.append prefix (str_of_int i)) <$> range first count).
Proof.
  apply NoDup_fmap_2_strong; [|apply range_NoDup].
  intros i j Hi%elem_of_range Hj%elem_of_range H%append_inj.
  apply str_of_int_inj; [lia|lia|done].
Qed.

Lemma offset_of_identifier (i : Z) :
  0 <= i -> offset_of (Some (String.append "SAT-" (str_of_int i))) = Ok i.
Proof.
  intros Hi. unfold offset_of.
  change (String.eqb (String.append "SAT-" (str_of_int i)) "") with false.
  cbv iota.
  rewrite (PositionTheorems.split_prefixed _ (str_of_int_no_dash i Hi)).
  simpl. now apply int_of_str_of_int.
Qed.

(** [SATELLITES]: always built, from 200 random numbers. *)
Lemma satellites_catalog (w : world output) :
  exists satellites w',
    SATELLITES w = Ok (satellites, w') /\
    Forall2 catalog_satellite (range 1 100) satellites /\
    advanced w w' 200 [].
Proof.
  destruct (for_list_spec new_satellite catalog_satellite 2 (range 1 100) w)
    as (ys & w' & Hf & HP & Ha).
  { intros i w0. apply new_satellite_spec. }
  rewrite range_length in Ha. exists ys, w'. split_and!; done.
Qed.

(** [GROUND_STATIONS]: always built, from 21 random numbers. *)
Lemma ground_stations_catalog (w : world output) :
  exists ground_stations w',
    GROUND_STATIONS w = Ok (ground_stations, w') /\
    Forall2 catalog_station (range 1 7) ground_stations /\
    advanced w w' 21 [].
Proof.
  destruct (for_list_spec new_ground_station catalog_station 3 (range 1 7) w)
    as (ys & w' & Hf & HP & Ha).
  { intros i w0. apply new_ground_station_spec. }
  rewrite range_length in Ha. exists ys, w'. split_and!; done.
Qed.

Lemma Forall2_elem_of_l {A B} (P : A -> B -> Prop) (l : list A) (k : list B)
    (y : B) :
  Forall2 P l k -> y ∈ k -> exists x, x ∈ l /\ P x y.
Proof. apply PipelineFacts.Forall2_elem_of_r. Qed.

End CatalogFacts.

(** ** Properties of the generators, the catalogs and [main] *)
Module GeneratorTheorems.
Import Py PyLib Position Scheduler Generator PyLibFacts IoFacts LoopFacts
  SortFacts GeneratorFacts PipelineFacts CatalogFacts PrimFloat.

Lemma negative_identifier (i : Z) :
  i < 0 -> offset_of (Some (String.append "SAT-" (str_of_int i))) = Raise ValueError.
Proof.
  intros Hi. unfold str_of_int.
  assert ((i <? 0) = true) as -> by lia.
  set (ds := decimal _ _ _). simpl string_of_list_ascii.
  reflexivity.
Qed.

(** X6.  The identifier [f"SAT-{i}"] gives the offset [i] back: for
    [i >= 0] the second field of the identifier is [str(i)] and [int] reads
    it as [i]; for [i < 0] the second field is empty and [int] raises
    [ValueError]. *)
Theorem satellite_identifier_round_trip (i : Z) :
  offset_of (Some (String.append "SAT-" (str_of_int i)))
  = if 0 <=? i then Ok i else Raise ValueError.
Proof.
  destruct (0 <=? i) eqn:E.
  - apply offset_of_identifier. lia.
  - apply negative_identifier. lia.
Qed.

Section Generators.
Variable libm_sin : float -> float.
Variable libm_cos : float -> float.
Variable libm_asin : float -> float.
Variable float_pow : float -> float -> result float.
Variable utcnow : datetime.

Local Abbreviation haversine :=
  (Generator.haversine libm_sin libm_cos libm_asin float_pow).
Local Abbreviation in_range :=
  (Generator.in_range libm_sin libm_cos libm_asin float_pow).
Local Abbreviation emitted :=
  (Generator.emitted libm_sin libm_cos libm_asin float_pow).
Local Abbreviation generated_for :=
  (Generator.generated_for libm_sin libm_cos libm_asin float_pow utcnow).
Local Abbreviation positions_ok :=
  (GeneratorFacts.positions_ok libm_sin libm_cos libm_asin float_pow utcnow).
Local Abbreviation generate_contact_windows :=
  (Generator.generate_contact_windows libm_sin libm_cos libm_asin float_pow utcnow).
Local Abbreviation generate_all_contact_windows :=
  (Generator.generate_all_contact_windows libm_sin libm_cos libm_asin float_pow
     utcnow).
Local Abbreviation generate_and_assign :=
  (Generator.generate_and_assign libm_sin libm_cos libm_asin float_pow utcnow).
Local Abbreviation telemetry_position :=
  (Generator.telemetry_position libm_sin utcnow).
Local Abbreviation simulate := (simulate_satellite_position libm_sin utcnow).

Lemma generated_length (ground_stations : list GroundStation) (ts : datetime)
    (shuffled : list Satellite)
    (groups : list (list ContactWindow * list output)) :
  Forall2 (generated_for ground_stations ts) shuffled groups ->
  (length (concat groups.*1) <= length shuffled * length ground_stations)%nat.
Proof.
  induction 1 as [|satellite out shuffled groups (lat & lon & _ & Hem & _) _ IH];
    [done|].
  rewrite fmap_cons. simpl concat. rewrite length_app. simpl length.
  apply Forall2_length in Hem.
  pose proof (filter_length_le (in_range lat lon) ground_stations). lia.
Qed.

Lemma emitted_in_range (satellite : Satellite) (ts : datetime) (lat lon : float)
    (gs : GroundStation) (c : ContactWindow) :
  in_range lat lon gs = true -> emitted satellite ts lat lon gs c ->
  haversine lat lon (gs_lat gs) (gs_lon gs) = Ok (distance c) /\
  PrimFloat.ltb (distance c) 5000%float = true.
Proof.
  unfold Generator.in_range. intros Hr (d & e & k & v & Hd & _ & _ & _ & ->).
  rewrite Hd in Hr. done.
Qed.

Lemma find_NoDup (satellites : list Satellite) (satellite : Satellite) :
  NoDup (sat_id <$> satellites) -> satellite ∈ satellites ->
  find (fun s => String.eqb (sat_id s) (sat_id satellite)) satellites
  = Some satellite.
Proof.
  induction satellites as [|s l IH]; intros Hnd Hin.
  - now apply elem_of_nil in Hin.
  - rewrite fmap_cons in Hnd. apply NoDup_cons in Hnd as [Hs Hl]. simpl.
    destruct (String.eqb (sat_id s) (sat_id satellite)) eqn:E.
    + apply String.eqb_eq in E.
      apply elem_of_cons in Hin as [->|Hin]; [done|].
      exfalso. apply Hs. rewrite E. apply list_elem_of_fmap. eauto.
    + apply elem_of_cons in Hin as [->|Hin]; [|now apply IH].
      now rewrite String.eqb_refl in E.
Qed.

(** X7.  [generate_contact_windows] returns whenever the position of the
    satellite and its distance to every station can be computed (and the
    year is not the last one): it returns one window for each station less
    than 5000 km away, in the order of the stations and none for the others,
    each lasting 5 to 15 minutes from the timestamp with a data volume of
    100 to 1000; it prints one line for every station; and it draws two
    random numbers for each window. *)
Theorem generate_contact_windows_spec (satellite : Satellite)
    (ground_stations : list GroundStation) (ts : option datetime)
    (w : world output) :
  valid_datetime (default utcnow ts) = true -> year (default utcnow ts) < 9999 ->
  positions_ok [satellite] ground_stations (default utcnow ts) ->
  exists ws ls w',
    generate_contact_windows satellite ground_stations ts w = Ok (ws, w') /\
    generated_for ground_stations (default utcnow ts) satellite (ws, ls) /\
    advanced w w' (2 * length ws) ls.
Proof.
  intros Hts Hy Hpos.
  assert (generate_contact_windows satellite ground_stations ts
          = generate_contact_windows satellite ground_stations
              (Some (default utcnow ts))) as -> by (destruct ts; reflexivity).
  destruct (generate_contact_windows_returns _ _ _ _ _ satellite ground_stations
              _ w Hts Hy Hpos) as (ws & w' & Hgen).
  destruct (generate_contact_windows_inv _ _ _ _ _ _ _ _ _ _ _ Hgen)
    as (ls & Hg & Ha).
  exists ws, ls, w'. done.
Qed.

(** X8.  Every window [generate_all_contact_windows] returns starts at the
    timestamp of the call, which is also its [timestamp]; ends later, at a
    time [fromisoformat] reads back; has no [assigned] key yet; carries the
    identifier and the priority of a satellite of the list and the
    identifier of a station of the list; and has a distance below 5000 and a
    data volume from 100 to 1000. *)
Theorem generated_windows_fields (satellites : list Satellite)
    (ground_stations : list GroundStation) (ts : option datetime)
    (ws : list ContactWindow) (w w' : world output) :
  valid_datetime (default utcnow ts) = true ->
  generate_all_contact_windows satellites ground_stations ts w = Ok (ws, w') ->
  Forall (fun c =>
    start_time c = isoformat (default utcnow ts) /\
    timestamp c = isoformat (default utcnow ts) /\
    assigned c = None /\ 100 <= datavolume c <= 1000 /\
    PrimFloat.ltb (distance c) 5000%float = true /\
    (exists e, interval fromisoformat_naive c = Some (default utcnow ts, e) /\
               datetime_lt (default utcnow ts) e = true) /\
    (exists satellite, satellite ∈ satellites /\
       satellite_id c = sat_id satellite /\ priority c = sat_priority satellite) /\
    (exists gs, gs ∈ ground_stations /\ ground_station_id c = gs_id gs)) ws.
Proof.
  intros Hts Hgen.
  eapply Forall_impl; [apply (generated_all_emitted _ _ _ _ _ _ _ _ _ _ _ Hgen)|].
  simpl. intros c (satellite & lat & lon & gs & Hs & _ & Hgs & Hr & He).
  destruct (emitted_in_range _ _ _ _ _ _ Hr He) as [_ Hlt].
  destruct (emitted_interval _ _ _ _ _ _ _ _ _ _ Hts He) as [_ Hi].
  destruct He as (d & e & k & v & _ & _ & _ & Hv & ->). simpl in *.
  split_and!; try done; try lia; eauto.
Qed.

(** X9.  [generate_all_contact_windows] returns whenever every position
    and every distance can be computed: the result is the concatenation, over
    a rearrangement of the satellites, of what [generate_contact_windows]
    gives for each of them; it has at most one window per satellite and
    station; one random number is drawn per satellite but one for the
    shuffle and two per window; one line is printed per satellite and
    station. *)
Theorem generate_all_contact_windows_spec (satellites : list Satellite)
    (ground_stations : list GroundStation) (ts : option datetime)
    (w : world output) :
  valid_datetime (default utcnow ts) = true -> year (default utcnow ts) < 9999 ->
  positions_ok satellites ground_stations (default utcnow ts) ->
  exists ws w' shuffled groups,
    generate_all_contact_windows satellites ground_stations ts w = Ok (ws, w') /\
    shuffled ≡ₚ satellites /\
    Forall2 (generated_for ground_stations (default utcnow ts)) shuffled groups /\
    ws = concat groups.*1 /\
    (length ws <= length satellites * length ground_stations)%nat /\
    length (concat groups.*2)
      = (length satellites * length ground_stations)%nat /\
    advanced w w' (length satellites - 1 + 2 * length ws) (concat groups.*2).
Proof.
  intros Hts Hy Hpos.
  assert (generate_all_contact_windows satellites ground_stations ts
          = generate_all_contact_windows satellites ground_stations
              (Some (default utcnow ts))) as -> by (destruct ts; reflexivity).
  destruct (generate_all_contact_windows_returns _ _ _ _ _ satellites
              ground_stations _ w Hts Hy Hpos) as (ws & w' & Hgen).
  destruct (generate_all_contact_windows_inv _ _ _ _ _ _ _ _ _ _ _ Hgen)
    as (shuffled & groups & Hperm & Hgs & -> & Ha).
  exists (concat groups.*1), w', shuffled, groups. split_and!; try done.
  - rewrite <- Hperm. exact (generated_length _ _ _ _ Hgs).
  - rewrite <- Hperm. clear Ha Hgen Hperm Hpos.
    induction Hgs as [|satellite out shuffled groups (lat & lon & _ & _ & Hl) _ IH];
      [done|].
    rewrite fmap_cons. simpl concat. rewrite length_app, IH.
    apply Forall2_length in Hl. simpl length. lia.
Qed.

(** X10.  [main], from the generation to the second count it prints, does
    not raise when the generation does not: every generated window is
    accepted by [assign_contacts]; since all of them start at the same
    timestamp, none is counted as overlapping another ([Overlaps ... 0] on
    every line), so a window is assigned exactly when the capacity of its
    station is positive; the other fields of the windows stay as
    generated. *)
Theorem generated_windows_assigned_by_capacity (satellites : list Satellite)
    (ground_stations : list GroundStation) (ts : datetime) (w : world output) :
  valid_datetime ts = true -> year ts < 9999 ->
  positions_ok satellites ground_stations ts ->
  exists ws w1 h out ds w',
    generate_all_contact_windows satellites ground_stations (Some ts) w
      = Ok (ws, w1) /\
    generate_and_assign fromisoformat_naive satellites ground_stations ts w
      = Ok ((h, out, List.filter (fun r => is_assigned (h r)) out), w') /\
    out = sorted (fun r => sort_key (heap_of ws r)) (seq 0 (length ws)) /\
    length ds = length ws /\
    Forall (fun d => d.1 = 0) ds /\
    (forall r, (r < length ws)%nat ->
       same_fields (h r) (heap_of ws r) /\
       exists capacity,
         capacity_of ground_stations (ground_station_id (heap_of ws r))
           = Ok capacity /\
         assigned (h r) = Some (0 <? capacity)) /\
    advanced w1 w' 0
      (Generated (length ws)
       :: (Scheduling <$>
             Called :: concat (zip_with (fun r d => lines_for (heap_of ws r) d)
                                 out ds))
       ++ [AssignedTotal (length (List.filter (fun r => is_assigned (h r)) out))]).
Proof. apply generate_and_assign_by_capacity. Qed.

(** X13.  With the stations of [GROUND_STATIONS], whose capacities are at
    least 1, [main] assigns every window it generated: the list [assigned]
    is the whole list returned by [assign_contacts], and the count printed
    after "Assigned" is the count printed after "Generated". *)
Theorem catalog_stations_assign_every_window (w0 w1 : world output)
    (satellites : list Satellite) (ground_stations : list GroundStation)
    (ts : datetime) (w : world output) :
  GROUND_STATIONS w0 = Ok (ground_stations, w1) ->
  valid_datetime ts = true -> year ts < 9999 ->
  positions_ok satellites ground_stations ts ->
  exists ws w2 h out lines w',
    generate_all_contact_windows satellites ground_stations (Some ts) w
      = Ok (ws, w2) /\
    generate_and_assign fromisoformat_naive satellites ground_stations ts w
      = Ok ((h, out, out), w') /\
    length out = length ws /\
    (forall r, (r < length ws)%nat -> assigned (h r) = Some true) /\
    advanced w2 w' 0
      (Generated (length ws) :: lines ++ [AssignedTotal (length ws)]).
Proof.
  intros Hcat Hts Hy Hpos.
  destruct (ground_stations_catalog w0) as (gss & w1' & Hcat' & Hall & _).
  rewrite Hcat in Hcat'. injection Hcat' as <- <-.
  destruct (generate_and_assign_by_capacity _ _ _ _ _ satellites ground_stations
              ts w Hts Hy Hpos)
    as (ws & w2 & h & out & ds & w' & Hgen & Hrun & Hout & _ & _ & Hheap & Ha).
  destruct (all_assigned ground_stations ws h out) as (Hasg & Hfilter & Hlen);
    try done.
  { apply Forall_forall. intros gs Hgs.
    destruct (Forall2_elem_of_l _ _ _ _ Hall Hgs) as (i & _ & _ & _ & Hc & _).
    lia. }
  rewrite Hfilter in Hrun, Ha. rewrite Hlen in Ha.
  exists ws, w2, h, out. eexists. exists w'. split_and!; done.
Qed.

(** X14.  The telemetry of an assigned window is computed at the position
    the window was generated from.  With distinct satellite identifiers, for
    every window [main] finds assigned: the look-up of the orbit period finds
    the satellite of the window (no [StopIteration]); [fromisoformat] reads
    the [timestamp] of the window; and the position [simulate_telemetry]
    computes is the one whose distance to the station of the window is the
    [distance] of the window, which is below 5000. *)
Theorem telemetry_position_is_generation_position (satellites : list Satellite)
    (ground_stations : list GroundStation) (ts : datetime) (w : world output) :
  valid_datetime ts = true -> year ts < 9999 ->
  positions_ok satellites ground_stations ts ->
  NoDup (sat_id <$> satellites) ->
  exists h out assigned w',
    generate_and_assign fromisoformat_naive satellites ground_stations ts w
      = Ok ((h, out, assigned), w') /\
    Forall (fun r => exists satellite gs lat lon,
      satellite ∈ satellites /\ gs ∈ ground_stations /\
      ground_station_id (h r) = gs_id gs /\
      orbit_period_of satellites (satellite_id (h r))
        = Ok (orbit_period satellite) /\
      telemetry_position fromisoformat_naive (h r) (orbit_period satellite)
        = Ok (lat, lon) /\
      haversine lat lon (gs_lat gs) (gs_lon gs) = Ok (distance (h r)) /\
      PrimFloat.ltb (distance (h r)) 5000%float = true) assigned.
Proof.
  intros Hts Hy Hpos Hnd.
  destruct (generate_and_assign_by_capacity _ _ _ _ _ satellites ground_stations
              ts w Hts Hy Hpos)
    as (ws & w2 & h & out & ds & w' & Hgen & Hrun & Hout & _ & _ & Hheap & _).
  eexists h, out, _, w'. split; [exact Hrun|].
  apply Forall_forall. intros r Hr%list_elem_of_In%filter_In.
  destruct Hr as [Hr%list_elem_of_In _]. rewrite Hout in Hr.
  apply sorted_seq_bound in Hr.
  destruct (Hheap r Hr) as ((Hsat & Hgs & _ & _ & Hstamp & Hdist & _) & _).
  pose proof (generated_all_emitted _ _ _ _ _ _ _ _ _ _ _ Hgen) as Hall.
  rewrite Forall_forall in Hall.
  destruct (Hall _ (heap_of_elem_of ws r Hr))
    as (satellite & lat & lon & gs & Hs & Hp & Hg & Hrange & He).
  simpl in Hp, He.
  destruct (emitted_in_range _ _ _ _ _ _ Hrange He) as [Hd Hlt].
  destruct (emitted_interval _ _ _ _ _ _ _ _ _ _ Hts He) as [Hparse _].
  exists satellite, gs, lat, lon.
  assert (satellite_id (heap_of ws r) = sat_id satellite /\
          ground_station_id (heap_of ws r) = gs_id gs) as [Hid Hst].
  { destruct He as (d & e & k & v & _ & _ & _ & _ & ->). done. }
  split_and!; try done.
  - now rewrite Hgs.
  - unfold orbit_period_of. rewrite Hsat, Hid, (find_NoDup _ _ Hnd Hs). done.
  - unfold Generator.telemetry_position. rewrite Hstamp, Hparse, Hsat, Hid.
    exact Hp.
  - now rewrite Hdist.
  - now rewrite Hdist.
Qed.
End Generators.

(** X11.  [SATELLITES] is always built: 100 satellites [SAT-1] to
    [SAT-100] in this order, with distinct identifiers, an orbit period from
    90 to 180 and a priority from 1 to 3, out of 200 random numbers; the
    offset [simulate_satellite_position] reads from the identifier of the
    [i]-th satellite is [i]. *)
Theorem satellites_catalog_spec (w : world output) :
  exists satellites w',
    SATELLITES w = Ok (satellites, w') /\
    length satellites = 100%nat /\
    Forall2 catalog_satellite (range 1 100) satellites /\
    NoDup (sat_id <$> satellites) /\
    Forall2 (fun i s => offset_of (Some (sat_id s)) = Ok i) (range 1 100)
      satellites /\
    advanced w w' 200 [].
Proof.
  destruct (satellites_catalog w) as (satellites & w' & Hs & Hall & Ha).
  exists satellites, w'. split_and!; try done.
  - apply Forall2_length in Hall. now rewrite range_length in Hall.
  - rewrite (Forall2_fmap_eq sat_id
               (fun i => String.append "SAT-" (str_of_int i)) (range 1 100)).
    + apply identifiers_NoDup.
    + eapply Forall2_impl; [exact Hall|]. now intros i s (H & _).
  - apply Forall2_same_length_lookup. split; [now apply Forall2_length in Hall|].
    intros n i s Hi Hn.
    destruct (Forall2_lookup_lr _ _ _ _ _ _ Hall Hi Hn) as (-> & _).
    apply offset_of_identifier.
    apply list_elem_of_lookup_2, elem_of_range in Hi. lia.
Qed.

(** X12.  [GROUND_STATIONS] is always built: 7 stations [GS-1] to [GS-7]
    in this order, with distinct identifiers, a capacity from 1 to 10, a
    longitude from -180 to 180 and a latitude from -60 to 60, out of 21
    random numbers. *)
Theorem ground_stations_catalog_spec (w : world output) :
  exists ground_stations w',
    GROUND_STATIONS w = Ok (ground_stations, w') /\
    length ground_stations = 7%nat /\
    Forall2 catalog_station (range 1 7) ground_stations /\
    NoDup (gs_id <$> ground_stations) /\
    advanced w w' 21 [].
Proof.
  destruct (ground_stations_catalog w) as (gss & w' & Hs & Hall & Ha).
  exists gss, w'. split_and!; try done.
  - apply Forall2_length in Hall. now rewrite range_length in Hall.
  - rewrite (Forall2_fmap_eq gs_id
               (fun i => String.append "GS-" (str_of_int i)) (range 1 7)).
    + apply identifiers_NoDup.
    + eapply Forall2_impl; [exact Hall|]. now intros i s (H & _).
Qed.

(** *** The theorems at concrete inputs *)
Import GeneratorScenarios.

(** The position of [sat_1] at noon is (0, 4) and every distance is 0. *)
Ltac sample_positions :=
  constructor; [|constructor]; exists 0%float, 4%float;
  split; [vm_compute; reflexivity|];
  repeat (constructor; [exists 0%float; vm_compute; reflexivity|]);
  constructor.

Lemma generate_contact_windows_witness :
  exists ws ls w',
    generate_contact_windows sin_zero cos_one asin_same pow_square
      Scenarios.midnight sat_1 [station_1] (Some Scenarios.noon) counting
      = Ok (ws, w') /\
    generated_for sin_zero cos_one asin_same pow_square Scenarios.midnight
      [station_1] Scenarios.noon sat_1 (ws, ls) /\
    advanced counting w' (2 * length ws) ls.
Proof.
  apply (generate_contact_windows_spec sin_zero cos_one asin_same pow_square
           Scenarios.midnight sat_1 [station_1] (Some Scenarios.noon) counting).
  - reflexivity.
  - reflexivity.
  - sample_positions.
Defined.

Lemma generated_windows_fields_witness :
  Forall (fun c =>
    start_time c = isoformat Scenarios.noon /\
    timestamp c = isoformat Scenarios.noon /\
    assigned c = None /\ 100 <= datavolume c <= 1000 /\
    PrimFloat.ltb (distance c) 5000%float = true /\
    (exists e, interval fromisoformat_naive c = Some (Scenarios.noon, e) /\
               datetime_lt Scenarios.noon e = true) /\
    (exists satellite, satellite ∈ [sat_1] /\
       satellite_id c = sat_id satellite /\ priority c = sat_priority satellite) /\
    (exists gs, gs ∈ [station_1] /\ ground_station_id c = gs_id gs))
    sample_windows.
Proof.
  apply (generated_windows_fields sin_zero cos_one asin_same pow_square
           Scenarios.midnight [sat_1] [station_1] (Some Scenarios.noon)
           sample_windows counting sample_world).
  - reflexivity.
  - vm_compute. reflexivity.
Defined.

Lemma generate_all_contact_windows_witness :
  exists ws w' shuffled groups,
    generate_all_contact_windows sin_zero cos_one asin_same pow_square
      Scenarios.midnight [sat_1] [station_1] (Some Scenarios.noon) counting
      = Ok (ws, w') /\
    shuffled ≡ₚ [sat_1] /\
    Forall2 (generated_for sin_zero cos_one asin_same pow_square
               Scenarios.midnight [station_1] Scenarios.noon) shuffled groups /\
    ws = concat groups.*1 /\
    (length ws <= length [sat_1] * length [station_1])%nat /\
    length (concat groups.*2) = (length [sat_1] * length [station_1])%nat /\
    advanced counting w' (length [sat_1] - 1 + 2 * length ws) (concat groups.*2).
Proof.
  apply (generate_all_contact_windows_spec sin_zero cos_one asin_same pow_square
           Scenarios.midnight [sat_1] [station_1] (Some Scenarios.noon) counting).
  - reflexivity.
  - reflexivity.
  - sample_positions.
Defined.

Lemma assigned_by_capacity_witness :
  exists ws w1 h out ds w',
    generate_all_contact_windows sin_zero cos_one asin_same pow_square
      Scenarios.midnight [sat_1] [station_1] (Some Scenarios.noon) counting
      = Ok (ws, w1) /\
    generate_and_assign sin_zero cos_one asin_same pow_square Scenarios.midnight
      fromisoformat_naive [sat_1] [station_1] Scenarios.noon counting
      = Ok ((h, out, List.filter (fun r => is_assigned (h r)) out), w') /\
    out = sorted (fun r => sort_key (heap_of ws r)) (seq 0 (length ws)) /\
    length ds = length ws /\
    Forall (fun d => d.1 = 0) ds /\
    (forall r, (r < length ws)%nat ->
       same_fields (h r) (heap_of ws r) /\
       exists capacity,
         capacity_of [station_1] (ground_station_id (heap_of ws r))
           = Ok capacity /\
         assigned (h r) = Some (0 <? capacity)) /\
    advanced w1 w' 0
      (Generated (length ws)
       :: (Scheduling <$>
             Called :: concat (zip_with (fun r d => lines_for (heap_of ws r) d)
                                 out ds))
       ++ [AssignedTotal (length (List.filter (fun r => is_assigned (h r)) out))]).
Proof.
  apply (generated_windows_assigned_by_capacity sin_zero cos_one asin_same
           pow_square Scenarios.midnight [sat_1] [station_1] Scenarios.noon
           counting).
  - reflexivity.
  - reflexivity.
  - sample_positions.
Defined.

Lemma catalog_stations_witness :
  exists ws w2 h out lines w',
    generate_all_contact_windows sin_zero cos_one asin_same pow_square
      Scenarios.midnight [sat_1] sample_stations (Some Scenarios.noon) counting
      = Ok (ws, w2) /\
    generate_and_assign sin_zero cos_one asin_same pow_square Scenarios.midnight
      fromisoformat_naive [sat_1] sample_stations Scenarios.noon counting
      = Ok ((h, out, out), w') /\
    length out = length ws /\
    (forall r, (r < length ws)%nat -> assigned (h r) = Some true) /\
    advanced w2 w' 0
      (Generated (length ws) :: lines ++ [AssignedTotal (length ws)]).
Proof.
  apply (catalog_stations_assign_every_window sin_zero cos_one asin_same
           pow_square Scenarios.midnight counting
           (mkWorld (fun n => Z.of_nat n) 21 []) [sat_1] sample_stations
           Scenarios.noon counting).
  - vm_compute. reflexivity.
  - reflexivity.
  - reflexivity.
  - sample_positions.
Defined.

Lemma telemetry_position_witness :
  exists h out assigned w',
    generate_and_assign sin_zero cos_one asin_same pow_square Scenarios.midnight
      fromisoformat_naive [sat_1] [station_1] Scenarios.noon counting
      = Ok ((h, out, assigned), w') /\
    Forall (fun r => exists satellite gs lat lon,
      satellite ∈ [sat_1] /\ gs ∈ [station_1] /\
      ground_station_id (h r) = gs_id gs /\
      orbit_period_of [sat_1] (satellite_id (h r))
        = Ok (orbit_period satellite) /\
      telemetry_position sin_zero Scenarios.midnight fromisoformat_naive (h r)
        (orbit_period satellite) = Ok (lat, lon) /\
      haversine sin_zero cos_one asin_same pow_square lat lon
        (gs_lat gs) (gs_lon gs) = Ok (distance (h r)) /\
      PrimFloat.ltb (distance (h r)) 5000%float = true) assigned.
Proof.
  apply (telemetry_position_is_generation_position sin_zero cos_one asin_same
           pow_square Scenarios.midnight [sat_1] [station_1] Scenarios.noon
           counting).
  - reflexivity.
  - reflexivity.
  - sample_positions.
  - apply NoDup_singleton.
Defined.

End GeneratorTheorems.
